(** * A shallow embedding of the OpenCog core of melonai

    The JavaScript sources embedded here are
      - src/opencog/atomspace/Atom.js   (Atom, TruthValue, AttentionValue)
      - the file of [class AtomSpace]   (the graph store, unnamed/part_001)
      - src/opencog/ecan/ECAN.js        (attention allocation)
      - src/opencog/pln/PLN.js          (probabilistic inference)
      - the file of [class CogServer]   (the job scheduler, unnamed/part_003)
      - the table of atom types         (AtomTypes, unnamed/part_002).

    Conventions of the embedding.
      - A JavaScript number is an exact rational ([Q]); NaN and the infinities
        are not modelled, nor is rounding.  The counterexamples below use
        inputs on which double-precision arithmetic gives the same values;
        the theorems are about comparisons, clamps and the expressions the
        code itself computes, or say on which numbers they hold.
      - An [Atom] object lives in a heap ([list Atom]); the reference to an
        object is its position in the heap, and that position is also the
        atom's [id] (uuidv4 is taken to be collision free, so one object has
        one id and conversely).
      - A JavaScript [Map] or [Set] that the code iterates is a list in
        insertion order; a [Map] that is only looked up is a [gmap].
      - [Math.random()] reads the next entry of an explicit oracle. *)

From Stdlib Require Import QArith Qminmax Lqa.
From stdpp Require Import gmap strings list fin_maps.

Open Scope Q_scope.
Open Scope list_scope.

(** ** JavaScript helpers *)

Definition Qltb (a b : Q) : bool := negb (Qle_bool b a).

Definition Math_min (a b : Q) : Q := if Qle_bool a b then a else b.
Definition Math_max (a b : Q) : Q := if Qle_bool a b then b else a.

(** [x || d] on numbers: [null]/[undefined] and [0] are falsy. *)
Definition num_or (x : option Q) (d : Q) : Q :=
  match x with
  | Some v => if Qeq_bool v 0 then d else v
  | None => d
  end.

(** [x || d] on counts. *)
Definition nat_or (x : option nat) (d : nat) : nat :=
  match x with
  | Some (S n) => S n
  | _ => d
  end.

(** Truthiness of an optional string: [null] and [""] are falsy. *)
Definition truthy_name (n : option string) : bool :=
  match n with
  | Some EmptyString => false
  | Some _ => true
  | None => false
  end.

Abbreviation ref := nat.

(** [Set.prototype.add] / [delete] on an insertion-ordered set. *)
Definition Set_add (x : ref) (s : list ref) : list ref :=
  if decide (x ∈ s) then s else s ++ [x].

Definition Set_delete (x : ref) (s : list ref) : list ref :=
  filter (fun y => y ≠ x) s.

(** ** Atom.js *)

Record TruthValue := mkTV { strength : Q; confidence : Q }.

(** [new TruthValue(strength = 0.5, confidence = 0.0)]: both clamped to [0,1]. *)
Definition new_TruthValue (s c : Q) : TruthValue :=
  mkTV (Math_max 0 (Math_min 1 s)) (Math_max 0 (Math_min 1 c)).

Definition default_TruthValue : TruthValue := new_TruthValue 0.5 0.

Record AttentionValue := mkAV { sti : Q; lti : Q; vlti : bool }.

Definition default_AttentionValue : AttentionValue := mkAV 0 0 false.

Definition setSTI (v : Q) (a : AttentionValue) : AttentionValue :=
  mkAV v (lti a) (vlti a).

Record Atom := mkAtom {
  atom_type : string;
  atom_name : option string;
  outgoing : list ref;
  tv : TruthValue;
  av : AttentionValue;
  incoming : list ref
}.

(** [new Atom(type, name, outgoing, tv)]: [tv || new TruthValue()], a fresh
    attention value and an empty incoming set. *)
Definition new_Atom (ty : string) (nm : option string) (out : list ref)
    (t : option TruthValue) : Atom :=
  mkAtom ty nm out (default default_TruthValue t) default_AttentionValue [].

Definition isNode (a : Atom) : bool := Nat.eqb (length (outgoing a)) 0.
Definition isLink (a : Atom) : bool := Nat.ltb 0 (length (outgoing a)).

Definition setTruthValue (t : TruthValue) (a : Atom) : Atom :=
  mkAtom (atom_type a) (atom_name a) (outgoing a) t (av a) (incoming a).

Definition setAV (v : AttentionValue) (a : Atom) : Atom :=
  mkAtom (atom_type a) (atom_name a) (outgoing a) (tv a) v (incoming a).

Definition addIncoming (r : ref) (a : Atom) : Atom :=
  mkAtom (atom_type a) (atom_name a) (outgoing a) (tv a) (av a)
         (Set_add r (incoming a)).

Definition removeIncoming (r : ref) (a : Atom) : Atom :=
  mkAtom (atom_type a) (atom_name a) (outgoing a) (tv a) (av a)
         (Set_delete r (incoming a)).

(** The heap of Atom objects is a [list Atom]; [alter] is an in-place
    method call on one of them. *)
Definition heap_alter (f : Atom -> Atom) (r : ref) (h : list Atom) : list Atom :=
  alter f r h.

Definition getSTI (h : list Atom) (r : ref) : Q :=
  match h !! r with
  | Some a => sti (av a)
  | None => 0
  end.

Definition heap_setSTI (r : ref) (v : Q) (h : list Atom) : list Atom :=
  heap_alter (fun a => setAV (setSTI v (av a)) a) r h.

(** ** AtomTypes.js

    An object literal is the list of its properties in insertion order;
    [Object.values] and [Object.entries] read it in that order. *)

Module AtomTypes.

Open Scope string_scope.

(** [const NODE_TYPES = { CONCEPT_NODE: 'ConceptNode', ... }] *)
Definition NODE_TYPES : list (string * string) :=
  [ ("CONCEPT_NODE", "ConceptNode"); ("PREDICATE_NODE", "PredicateNode");
    ("SCHEMA_NODE", "SchemaNode"); ("PROCEDURE_NODE", "ProcedureNode");
    ("GROUNDED_PREDICATE_NODE", "GroundedPredicateNode");
    ("GROUNDED_SCHEMA_NODE", "GroundedSchemaNode");
    ("VARIABLE_NODE", "VariableNode");
    ("TYPED_VARIABLE_NODE", "TypedVariableNode");
    ("NUMBER_NODE", "NumberNode"); ("WORD_NODE", "WordNode");
    ("DOCUMENT_NODE", "DocumentNode"); ("SENTENCE_NODE", "SentenceNode");
    ("PHRASE_NODE", "PhraseNode"); ("ANCHOR_NODE", "AnchorNode");
    ("TYPE_NODE", "TypeNode"); ("TYPE_INH_NODE", "TypeInhNode");
    ("CONTEXT_NODE", "ContextNode"); ("TIME_NODE", "TimeNode");
    ("TEMPORAL_NODE", "TemporalNode") ].

(** [const LINK_TYPES = { ... }] *)
Definition LINK_TYPES : list (string * string) :=
  [ ("LIST_LINK", "ListLink"); ("SET_LINK", "SetLink");
    ("MEMBER_LINK", "MemberLink"); ("INHERITANCE_LINK", "InheritanceLink");
    ("SIMILARITY_LINK", "SimilarityLink"); ("SUBSET_LINK", "SubsetLink");
    ("AND_LINK", "AndLink"); ("OR_LINK", "OrLink"); ("NOT_LINK", "NotLink");
    ("IMPLICATION_LINK", "ImplicationLink");
    ("EQUIVALENCE_LINK", "EquivalenceLink");
    ("EVALUATION_LINK", "EvaluationLink");
    ("EXECUTION_LINK", "ExecutionLink"); ("FOR_ALL_LINK", "ForAllLink");
    ("EXISTS_LINK", "ExistsLink"); ("AT_TIME_LINK", "AtTimeLink");
    ("BEFORE_LINK", "BeforeLink"); ("AFTER_LINK", "AfterLink");
    ("DURING_LINK", "DuringLink"); ("AT_LOCATION_LINK", "AtLocationLink");
    ("CONTEXT_LINK", "ContextLink"); ("BIND_LINK", "BindLink");
    ("GET_LINK", "GetLink"); ("SATISFY_LINK", "SatisfyLink");
    ("PLUS_LINK", "PlusLink"); ("MINUS_LINK", "MinusLink");
    ("TIMES_LINK", "TimesLink"); ("DIVIDE_LINK", "DivideLink");
    ("COND_LINK", "CondLink"); ("REFERENCE_LINK", "ReferenceLink");
    ("ASSOCIATIVE_LINK", "AssociativeLink");
    ("SEQUENTIAL_LINK", "SequentialLink"); ("HEBBIAN_LINK", "HebbianLink");
    ("ASYMMETRIC_HEBBIAN_LINK", "AsymmetricHebbianLink");
    ("SYMMETRIC_HEBBIAN_LINK", "SymmetricHebbianLink") ].

(** [const OPENCOG_TYPES = { ... }] *)
Definition OPENCOG_TYPES : list (string * string) :=
  [ ("PLN_RULE_NODE", "PLNRuleNode"); ("PLN_FORMULA_NODE", "PLNFormulaNode");
    ("ATTENTION_LINK", "AttentionLink"); ("ECONOMIC_LINK", "EconomicLink");
    ("PATTERN_NODE", "PatternNode"); ("PATTERN_LINK", "PatternLink");
    ("FREQUENT_PATTERN_LINK", "FrequentPatternLink");
    ("GOAL_NODE", "GoalNode"); ("PLAN_NODE", "PlanNode");
    ("ACTION_NODE", "ActionNode"); ("TASK_NODE", "TaskNode");
    ("AGENT_NODE", "AgentNode");
    ("COGNITIVE_PROCESS_NODE", "CognitiveProcessNode");
    ("EPISODIC_MEMORY_NODE", "EpisodicMemoryNode");
    ("SEMANTIC_MEMORY_NODE", "SemanticMemoryNode");
    ("WORKING_MEMORY_NODE", "WorkingMemoryNode");
    ("LEARNING_LINK", "LearningLink"); ("FEEDBACK_LINK", "FeedbackLink");
    ("REWARD_NODE", "RewardNode"); ("MOTIVATION_NODE", "MotivationNode") ].

(** [const ATOM_TYPES = { ...NODE_TYPES, ...LINK_TYPES, ...OPENCOG_TYPES }]:
    no key occurs twice, so the spread is the concatenation. *)
Definition ATOM_TYPES : list (string * string) :=
  NODE_TYPES ++ LINK_TYPES ++ OPENCOG_TYPES.

(** [const TYPE_HIERARCHY = { [NODE_TYPES.CONCEPT_NODE]: ['Node'], ... }] *)
Definition TYPE_HIERARCHY : list (string * list string) :=
  [ ("ConceptNode", ["Node"]); ("PredicateNode", ["Node"]);
    ("SchemaNode", ["Node"]); ("VariableNode", ["Node"]);
    ("NumberNode", ["Node"]); ("WordNode", ["Node"]); ("ListLink", ["Link"]);
    ("SetLink", ["Link"]); ("InheritanceLink", ["Link"]);
    ("SimilarityLink", ["Link"]); ("EvaluationLink", ["Link"]);
    ("AndLink", ["Link"]); ("OrLink", ["Link"]); ("NotLink", ["Link"]);
    ("GoalNode", ["Node"]); ("AgentNode", ["Node"]);
    ("AttentionLink", ["Link"]) ].

Definition Object_values (o : list (string * string)) : list string :=
  map snd o.

(** [array.includes(x)] on strings. *)
Definition includes (l : list string) (x : string) : bool :=
  existsb (String.eqb x) l.

Definition isNodeType (type : string) : bool :=
  includes (Object_values NODE_TYPES) type
  || includes
       [ "GoalNode"; "AgentNode"; "PLNRuleNode"; "PatternNode";
         "EpisodicMemoryNode"; "SemanticMemoryNode"; "WorkingMemoryNode";
         "RewardNode"; "MotivationNode"; "TaskNode"; "ActionNode"; "PlanNode";
         "CognitiveProcessNode"; "PLNFormulaNode" ]
       type.

Definition isLinkType (type : string) : bool :=
  includes (Object_values LINK_TYPES) type
  || includes
       [ "AttentionLink"; "EconomicLink"; "PatternLink"; "FrequentPatternLink";
         "LearningLink"; "FeedbackLink" ]
       type.

(** [getSubtypes(parentType)]: the loop over [Object.entries(TYPE_HIERARCHY)]. *)
Definition getSubtypes (parentType : string) : list string :=
  map fst (List.filter (fun entry => includes (snd entry) parentType)
                       TYPE_HIERARCHY).

Definition isValidType (type : string) : bool :=
  includes (Object_values ATOM_TYPES) type.

End AtomTypes.

(** ** Atom.js: [AttentionValue.setLTI] *)

Definition setLTI (v : Q) (a : AttentionValue) : AttentionValue :=
  mkAV (sti a) v (vlti a).

(** ** AtomSpace.js

    The fields of [class AtomSpace], together with the heap its atoms live in.
    [atoms] lists the keys of the [Map] [this.atoms] in insertion order; the
    value stored under a key is the Atom object of that id. *)

Record World := mkW {
  heap : list Atom;
  atoms : list ref;
  typeIndex : gmap string (list ref);
  nameIndex : gmap string (list ref);
  incomingIndex : gmap nat (list ref);
  attentionalFocus : list ref;
  size : Z
}.

(** [new AtomSpace()] over an empty heap. *)
Definition new_AtomSpace : World := mkW [] [] ∅ ∅ ∅ [] 0%Z.

Definition with_heap (h : list Atom) (w : World) : World :=
  mkW h (atoms w) (typeIndex w) (nameIndex w) (incomingIndex w)
      (attentionalFocus w) (size w).

Definition with_focus (f : list ref) (w : World) : World :=
  mkW (heap w) (atoms w) (typeIndex w) (nameIndex w) (incomingIndex w) f (size w).

Definition hasAtom (id : ref) (w : World) : bool := bool_decide (id ∈ atoms w).

(** [this.atoms.get(id)]: the object, when the id is a key. *)
Definition getAtom (id : ref) (w : World) : option Atom :=
  if hasAtom id w then heap w !! id else None.

(** [if (!index.has(k)) index.set(k, new Set()); index.get(k).add(r)]. *)
Definition index_add `{Countable K} (k : K) (r : ref)
    (m : gmap K (list ref)) : gmap K (list ref) :=
  <[k := Set_add r (default [] (m !! k))]> m.

(** [s = index.get(k); if (s) { s.delete(r); if (s.size === 0) index.delete(k) }]. *)
Definition index_remove_prune `{Countable K} (k : K) (r : ref)
    (m : gmap K (list ref)) : gmap K (list ref) :=
  match m !! k with
  | Some s =>
      match Set_delete r s with
      | [] => delete k m
      | s' => <[k := s']> m
      end
  | None => m
  end.

(** [s = index.get(k); if (s) s.delete(r)]. *)
Definition index_remove `{Countable K} (k : K) (r : ref)
    (m : gmap K (list ref)) : gmap K (list ref) :=
  match m !! k with
  | Some s => <[k := Set_delete r s]> m
  | None => m
  end.

(** Body of the loop "Update incoming sets for outgoing atoms" of [addAtom]. *)
Definition wire_incoming (r : ref) (w : World) (o : ref) : World :=
  mkW (heap_alter (addIncoming r) o (heap w)) (atoms w) (typeIndex w)
      (nameIndex w) (index_add o r (incomingIndex w))
      (attentionalFocus w) (size w).

(** [addAtom(atom)] for the object at reference [r].  The first branch (no
    object at [r]) has no JavaScript counterpart and is never taken by
    [addNode] and [addLink], which allocate the object first. *)
Definition addAtom (r : ref) (w : World) : ref * World :=
  match heap w !! r with
  | None => (r, w)
  | Some a =>
      if hasAtom r w then (r, w)
      else
        let w1 :=
          mkW (heap w) (atoms w ++ [r])
              (index_add (atom_type a) r (typeIndex w))
              (if isNode a && truthy_name (atom_name a)
               then index_add (default EmptyString (atom_name a)) r (nameIndex w)
               else nameIndex w)
              (incomingIndex w) (attentionalFocus w) (size w + 1)%Z in
        (r, foldl (wire_incoming r) w1 (outgoing a))
  end.

(** Body of the loop "Update incoming sets" of [removeAtom]. *)
Definition unwire_incoming (id : ref) (w : World) (o : ref) : World :=
  mkW (heap_alter (removeIncoming id) o (heap w)) (atoms w) (typeIndex w)
      (nameIndex w) (index_remove o id (incomingIndex w))
      (attentionalFocus w) (size w).

(** Body of the loop "Remove incoming references" of [removeAtom]: for a link
    [i] that points to the removed atom, [incomingAtom.removeIncoming(atom)]
    deletes the removed atom from the incoming set of [i]; the outgoing
    array of [i] is not touched. *)
Definition drop_incoming_reference (id : ref) (live : list ref)
    (h : list Atom) (i : ref) : list Atom :=
  if bool_decide (i ∈ live) then heap_alter (removeIncoming id) i h else h.

Definition removeAtom (id : ref) (w : World) : bool * World :=
  match getAtom id w with
  | None => (false, w)
  | Some a =>
      let w1 :=
        mkW (heap w) (atoms w)
            (index_remove_prune (atom_type a) id (typeIndex w))
            (if truthy_name (atom_name a)
             then index_remove_prune (default EmptyString (atom_name a)) id (nameIndex w)
             else nameIndex w)
            (incomingIndex w)
            (Set_delete id (attentionalFocus w)) (size w) in
      let w2 := foldl (unwire_incoming id) w1 (outgoing a) in
      let w3 :=
        match incomingIndex w2 !! id with
        | Some s =>
            mkW (foldl (drop_incoming_reference id (atoms w2)) (heap w2) s)
                (atoms w2) (typeIndex w2) (nameIndex w2)
                (delete id (incomingIndex w2)) (attentionalFocus w2) (size w2)
        | None => w2
        end in
      (true,
       mkW (heap w3) (Set_delete id (atoms w3)) (typeIndex w3) (nameIndex w3)
           (incomingIndex w3) (attentionalFocus w3) (size w3 - 1)%Z)
  end.

(** [getNodeByName(type, name)]: [nameIndex.get(null)] is [undefined]. *)
Definition getNodeByName (ty : string) (nm : option string) (w : World)
    : option ref :=
  match nm with
  | None => None
  | Some n =>
      match nameIndex w !! n with
      | None => None
      | Some s =>
          find (fun id =>
                  match getAtom id w with
                  | Some a => bool_decide (atom_type a = ty)
                  | None => false
                  end) s
      end
  end.

(** [arraysEqual] compares the two arrays element by element with [===],
    that is, by object identity. *)
Definition arraysEqual (a b : list ref) : bool := bool_decide (a = b).

Definition getLinkByOutgoing (ty : string) (out : list ref) (w : World)
    : option ref :=
  match typeIndex w !! ty with
  | None => None
  | Some s =>
      find (fun id =>
              match getAtom id w with
              | Some a => isLink a && arraysEqual (outgoing a) out
              | None => false
              end) s
  end.

(** [existing.setTruthValue(tv)] when a truth value was supplied. *)
Definition overwrite_tv (e : ref) (t : option TruthValue) (w : World) : World :=
  match t with
  | Some v => with_heap (heap_alter (setTruthValue v) e (heap w)) w
  | None => w
  end.

(** [new Atom(...)]: the object is appended to the heap. *)
Definition alloc (a : Atom) (w : World) : ref * World :=
  (length (heap w), with_heap (heap w ++ [a]) w).

Definition addNode (ty : string) (nm : option string) (t : option TruthValue)
    (w : World) : ref * World :=
  match getNodeByName ty nm w with
  | Some e => (e, overwrite_tv e t w)
  | None =>
      let '(r, w1) := alloc (new_Atom ty nm [] t) w in
      addAtom r w1
  end.

Definition addLink (ty : string) (out : list ref) (t : option TruthValue)
    (w : World) : ref * World :=
  match getLinkByOutgoing ty out w with
  | Some e => (e, overwrite_tv e t w)
  | None =>
      let '(r, w1) := alloc (new_Atom ty None out t) w in
      addAtom r w1
  end.

Definition getAllAtoms (w : World) : list ref := atoms w.

Definition getSize (w : World) : Z := size w.

(** [Array.from(set).map(id => this.atoms.get(id)).filter(atom => atom)]. *)
Definition live_only (w : World) (s : list ref) : list ref :=
  List.filter (fun id => hasAtom id w) s.

Definition getAtomsByType (ty : string) (w : World) : list ref :=
  live_only w (default [] (typeIndex w !! ty)).

Definition getIncoming (id : ref) (w : World) : list ref :=
  live_only w (default [] (incomingIndex w !! id)).

Definition addToAttentionalFocus (id : ref) (w : World) : bool * World :=
  if hasAtom id w
  then (true, with_focus (Set_add id (attentionalFocus w)) w)
  else (false, w).

Definition removeFromAttentionalFocus (id : ref) (w : World) : World :=
  with_focus (Set_delete id (attentionalFocus w)) w.

Definition getAttentionalFocus (w : World) : list ref :=
  live_only w (attentionalFocus w).

(** Atom type tags used by the engines (AtomTypes.js). *)
Definition CONCEPT_NODE : string := "ConceptNode".
Definition PREDICATE_NODE : string := "PredicateNode".
Definition LIST_LINK : string := "ListLink".
Definition IMPLICATION_LINK : string := "ImplicationLink".
Definition EVALUATION_LINK : string := "EvaluationLink".
Definition HEBBIAN_LINK : string := "HebbianLink".

Module AtomSpace.

(** A query pattern [{ type, name, arity }]; an absent property is [None]. *)
Record Pattern := mkPattern {
  pattern_type : option string;
  pattern_name : option string;
  pattern_arity : option nat
}.

(** [matchesPattern(atom, pattern)]: [pattern.type] and [pattern.name] are
    tested for truthiness, [pattern.arity] against [undefined]. *)
Definition matchesPattern (a : Atom) (p : Pattern) : bool :=
  if truthy_name (pattern_type p)
     && negb (bool_decide (Some (atom_type a) = pattern_type p)) then false
  else if truthy_name (pattern_name p)
          && negb (bool_decide (atom_name a = pattern_name p)) then false
  else match pattern_arity p with
       | Some n => Nat.eqb (length (outgoing a)) n
       | None => true
       end.

(** [query(pattern)]: the scan of [this.atoms.values()]. *)
Definition query (p : Pattern) (w : World) : list ref :=
  List.filter (fun r => match heap w !! r with
                        | Some a => matchesPattern a p
                        | None => false
                        end) (atoms w).

End AtomSpace.

(** ** Exceptions

    A JavaScript call either returns or throws; mutations made before a
    throw persist, so the state is returned next to the outcome. *)

Inductive Exn (A : Type) : Type :=
  | Ok (a : A)
  | Throw (msg : string).
Arguments Ok {A} a.
Arguments Throw {A} msg.

(** [tv.getStrength()].  [class TruthValue] (Atom.js) declares [getMean],
    [getConfidence], [setStrength], [setConfidence], [isValid], [toJSON] and
    [toString]; it declares no [getStrength], and nothing else in the
    repository adds one.  The property lookup therefore yields [undefined]
    and calling it raises a TypeError. *)
Definition TruthValue_getStrength (t : TruthValue) : Exn Q :=
  Throw "TypeError: tv.getStrength is not a function".

Definition getMean (t : TruthValue) : Q := strength t.
Definition getConfidence (t : TruthValue) : Q := confidence t.

(** ** ECAN.js *)

Module ECAN.

Record Options := mkOptions {
  opt_maxAF : option nat;
  opt_minSTI : option Q;
  opt_maxSTI : option Q;
  opt_stimulusAmount : option Q;
  opt_decayRate : option Q;
  opt_spreadProbability : option Q;
  opt_totalSTI : option Q;
  opt_totalLTI : option Q;
  opt_rentAmount : option Q;
  opt_hebbianLearningRate : option Q;
  opt_diffusionRate : option Q
}.

Definition no_options : Options :=
  mkOptions None None None None None None None None None None None.

Record Config := mkConfig {
  maxAF : nat;
  minSTI : Q;
  maxSTI : Q;
  stimulusAmount : Q;
  decayRate : Q;
  spreadProbability : Q;
  totalSTI : Q;
  totalLTI : Q;
  rentAmount : Q;
  hebbianLearningRate : Q;
  diffusionRate : Q
}.

(** [this.config = { maxAF: options.maxAF || 100, ... }]. *)
Definition make_config (o : Options) : Config :=
  mkConfig (nat_or (opt_maxAF o) 100)
           (num_or (opt_minSTI o) (-1000))
           (num_or (opt_maxSTI o) 1000)
           (num_or (opt_stimulusAmount o) 10)
           (num_or (opt_decayRate o) 0.01)
           (num_or (opt_spreadProbability o) 0.1)
           (num_or (opt_totalSTI o) 10000)
           (num_or (opt_totalLTI o) 10000)
           (num_or (opt_rentAmount o) 1)
           (num_or (opt_hebbianLearningRate o) 0.1)
           (num_or (opt_diffusionRate o) 0.2).

Record Stats := mkStats {
  cyclesRun : nat;
  totalStimuli : nat;
  averageAFSize : Q;
  importanceSpread : Q
}.

(** The fields of [class ECAN] other than [atomSpace], and the oracle read by
    [Math.random()]: [random n] is the result of the [n]-th call. *)
Record t := mkECAN {
  config : Config;
  currentSTIPool : Q;
  currentLTIPool : Q;
  cycle : nat;
  stats : Stats;
  random : nat -> Q;
  drawn : nat
}.

Definition new_ECAN (o : Options) (rnd : nat -> Q) : t :=
  let c := make_config o in
  mkECAN c (totalSTI c) (totalLTI c) 0 (mkStats 0 0 0 0) rnd 0.

Definition with_pool (p : Q) (e : t) : t :=
  mkECAN (config e) p (currentLTIPool e) (cycle e) (stats e) (random e) (drawn e).

Definition with_stats (s : Stats) (e : t) : t :=
  mkECAN (config e) (currentSTIPool e) (currentLTIPool e) (cycle e) s
         (random e) (drawn e).

Definition Math_random (e : t) : Q * t :=
  (random e (drawn e),
   mkECAN (config e) (currentSTIPool e) (currentLTIPool e) (cycle e) (stats e)
          (random e) (S (drawn e))).

(** The engine together with the graph it works on. *)
Definition System : Type := World * t.

(** *** stimulateAtom(atomId, amount = null) *)
Definition stimulateAtom (atomId : ref) (amount : option Q) (s : System)
    : bool * System :=
  let '(w, e) := s in
  match getAtom atomId w with
  | None => (false, s)
  | Some _ =>
      let amt := num_or amount (stimulusAmount (config e)) in
      let currentSTI := getSTI (heap w) atomId in
      let newSTI := Math_min (currentSTI + amt) (maxSTI (config e)) in
      let w' := with_heap (heap_setSTI atomId newSTI (heap w)) w in
      let e1 := with_pool (Math_max 0 (currentSTIPool e - amt)) e in
      let st := stats e1 in
      (true,
       (w', with_stats (mkStats (cyclesRun st) (S (totalStimuli st))
                                (averageAFSize st) (importanceSpread st)) e1))
  end.

(** *** collectRent() *)
Definition rent_step (c : Config) (acc : list Atom * Q) (r : ref)
    : list Atom * Q :=
  let '(h, pool) := acc in
  let currentSTI := getSTI h r in
  let newSTI := Math_max (currentSTI - rentAmount c) (minSTI c) in
  (heap_setSTI r newSTI h, pool + rentAmount c).

Definition collectRent (s : System) : System :=
  let '(w, e) := s in
  let '(h, pool) :=
    foldl (rent_step (config e)) (heap w, currentSTIPool e)
          (getAttentionalFocus w) in
  (with_heap h w, with_pool pool e).

(** *** applySTIDecay() *)
Definition decay_step (c : Config) (acc : list Atom * Q) (r : ref)
    : list Atom * Q :=
  let '(h, pool) := acc in
  let currentSTI := getSTI h r in
  if Qltb 0 currentSTI then
    let decay := currentSTI * decayRate c in
    let newSTI := Math_max (currentSTI - decay) 0 in
    (heap_setSTI r newSTI h, pool + decay)
  else acc.

Definition applySTIDecay (s : System) : System :=
  let '(w, e) := s in
  let '(h, pool) :=
    foldl (decay_step (config e)) (heap w, currentSTIPool e) (getAllAtoms w) in
  (with_heap h w, with_pool pool e).

(** *** spreadFromAtom(atom) *)

(** [connectedAtoms]: the incoming atoms, then the outgoing ones of a link,
    collected in a [Set]. *)
Definition connectedAtoms (r : ref) (w : World) : list ref :=
  let out := match heap w !! r with
             | Some a => if isLink a then outgoing a else []
             | None => []
             end in
  foldl (fun s x => Set_add x s) [] (getIncoming r w ++ out).

(** One turn of the loop over [connectedAtoms]; the accumulator is the heap,
    the engine (for the oracle) and [totalSpread]. *)
Definition spread_step (amountPerAtom : Q)
    (acc : list Atom * t * Q) (x : ref) : list Atom * t * Q :=
  let '(h, e, totalSpread) := acc in
  let '(rnd, e') := Math_random e in
  if Qltb rnd (spreadProbability (config e)) then
    let newSTI := Math_min (getSTI h x + amountPerAtom) (maxSTI (config e)) in
    (heap_setSTI x newSTI h, e', totalSpread + amountPerAtom)
  else (h, e', totalSpread).

Definition spreadFromAtom (r : ref) (s : System) : Q * System :=
  let '(w, e) := s in
  let currentSTI := getSTI (heap w) r in
  let spreadAmount := currentSTI * diffusionRate (config e) in
  if Qltb spreadAmount 1 then (0, s)
  else
    let connected := connectedAtoms r w in
    match connected with
    | [] => (0, s)
    | _ =>
        let amountPerAtom :=
          spreadAmount / inject_Z (Z.of_nat (length connected)) in
        let '(h, e', totalSpread) :=
          foldl (spread_step amountPerAtom) (heap w, e, 0) connected in
        (totalSpread,
         (with_heap (heap_setSTI r (currentSTI - totalSpread) h) w, e'))
    end.

(** *** spreadImportance() *)
Definition spreadImportance_step (acc : Q * System) (r : ref) : Q * System :=
  let '(totalSpread, s) := acc in
  let currentSTI := getSTI (heap (fst s)) r in
  if Qltb (minSTI (config (snd s)) * 2) currentSTI then
    let '(d, s') := spreadFromAtom r s in (totalSpread + d, s')
  else acc.

Definition spreadImportance (s : System) : System :=
  let '(totalSpread, (w, e)) :=
    foldl spreadImportance_step (0, s) (getAttentionalFocus (fst s)) in
  let st := stats e in
  (w, with_stats (mkStats (cyclesRun st) (totalStimuli st)
                          (averageAFSize st) totalSpread) e).

(** *** updateAttentionalFocus() *)

(** [Array.prototype.sort] is stable; the comparator [b.sti - a.sti] puts
    [x] before [y] when [sti y <= sti x] and [x] came first. *)
Fixpoint insert_by_sti (h : list Atom) (x : ref) (l : list ref) : list ref :=
  match l with
  | [] => [x]
  | y :: l' =>
      if Qle_bool (getSTI h y) (getSTI h x) then x :: y :: l'
      else y :: insert_by_sti h x l'
  end.

Definition sort_by_sti_desc (h : list Atom) (l : list ref) : list ref :=
  foldr (insert_by_sti h) [] l.

Definition updateAttentionalFocus (s : System) : System :=
  let '(w, e) := s in
  let w1 := foldl (fun w r => removeFromAttentionalFocus r w) w
                  (getAttentionalFocus w) in
  let sortedAtoms :=
    take (maxAF (config e))
         (sort_by_sti_desc (heap w1)
            (List.filter (fun r => Qle_bool (minSTI (config e)) (getSTI (heap w1) r))
                         (getAllAtoms w1))) in
  (foldl (fun w r => snd (addToAttentionalFocus r w)) w1 sortedAtoms, e).

(** *** applyForgetting() *)
Definition forgettable (c : Config) (h : list Atom) (r : ref) : bool :=
  match h !! r with
  | Some a =>
      if Qltb 0 (lti (av a)) || vlti (av a) then false
      else Qltb (sti (av a)) (minSTI c * 2)
  | None => false
  end.

Definition forget_step (s : System) (r : ref) : System :=
  let '(w, e) := s in
  let '(rnd, e') := Math_random e in
  if Qltb rnd 0.1 then (snd (removeAtom r w), e') else (w, e').

Definition applyForgetting (s : System) : System :=
  let '(w, e) := s in
  foldl forget_step s
        (List.filter (forgettable (config e) (heap w)) (getAllAtoms w)).

(** *** updateStatistics() *)
Definition updateStatistics (s : System) : System :=
  let '(w, e) := s in
  let af := getAttentionalFocus w in
  let st := stats e in
  let c := inject_Z (Z.of_nat (cycle e)) in
  (w, with_stats
        (mkStats (cyclesRun st) (totalStimuli st)
                 ((averageAFSize st * (c - 1)
                   + inject_Z (Z.of_nat (length af))) / c)
                 (importanceSpread st)) e).

(** *** runCycle() *)
Definition begin_cycle (s : System) : System :=
  let '(w, e) := s in
  let st := stats e in
  (w, mkECAN (config e) (currentSTIPool e) (currentLTIPool e) (S (cycle e))
             (mkStats (S (cyclesRun st)) (totalStimuli st)
                      (averageAFSize st) (importanceSpread st))
             (random e) (drawn e)).

Definition runCycle (s : System) : System :=
  updateStatistics
    (applyForgetting
       (updateAttentionalFocus
          (spreadImportance
             (applySTIDecay
                (collectRent (begin_cycle s)))))).

(** *** performHebbianLearning(atom1Id, atom2Id) *)
Definition findHebbianLink (a1 a2 : ref) (w : World) : option ref :=
  find (fun l =>
          match heap w !! l with
          | Some a =>
              (bool_decide (outgoing a !! 0%nat = Some a1)
               && bool_decide (outgoing a !! 1%nat = Some a2))
              || (bool_decide (outgoing a !! 0%nat = Some a2)
                  && bool_decide (outgoing a !! 1%nat = Some a1))
          | None => false
          end)
       (getAtomsByType HEBBIAN_LINK w).

Definition performHebbianLearning (a1 a2 : ref) (s : System)
    : Exn bool * System :=
  let '(w, e) := s in
  match getAtom a1 w, getAtom a2 w with
  | Some _, Some _ =>
      let '(l, w1) :=
        match findHebbianLink a1 a2 w with
        | Some l => (l, w)
        | None => addLink HEBBIAN_LINK [a1; a2] (Some (new_TruthValue 0.1 0.1)) w
        end in
      let t := match heap w1 !! l with
               | Some a => tv a
               | None => default_TruthValue
               end in
      match TruthValue_getStrength t with
      | Throw m => (Throw m, (w1, e))
      | Ok st =>
          let newStrength := Math_min (st + hebbianLearningRate (config e)) 1 in
          let newConfidence :=
            Math_min (getConfidence t + hebbianLearningRate (config e) * 0.1) 1 in
          (Ok true,
           (with_heap
              (heap_alter (setTruthValue (new_TruthValue newStrength newConfidence))
                          l (heap w1)) w1, e))
      end
  | _, _ => (Ok false, s)
  end.

(** *** getHighestSTIAtoms(count = 10) *)
Definition getHighestSTIAtoms (count : nat) (w : World) : list ref :=
  take count (sort_by_sti_desc (heap w) (getAllAtoms w)).

End ECAN.

(** ** PLN.js *)

Module PLN.

Record Config := mkConfig {
  minConfidence : Q;
  maxInferenceDepth : Q;
  strengthThreshold : Q;
  defaultConfidence : Q;
  defaultStrength : Q;
  revisionInflationFactor : Q
}.

Record Options := mkOptions {
  opt_minConfidence : option Q;
  opt_maxInferenceDepth : option Q;
  opt_strengthThreshold : option Q;
  opt_defaultConfidence : option Q;
  opt_defaultStrength : option Q;
  opt_revisionInflationFactor : option Q
}.

Definition no_options : Options := mkOptions None None None None None None.

Definition make_config (o : Options) : Config :=
  mkConfig (num_or (opt_minConfidence o) 0.01)
           (num_or (opt_maxInferenceDepth o) 5)
           (num_or (opt_strengthThreshold o) 0.1)
           (num_or (opt_defaultConfidence o) 0.1)
           (num_or (opt_defaultStrength o) 0.5)
           (num_or (opt_revisionInflationFactor o) 1.2).

(** A computation over the graph that may throw. *)
Definition M (A : Type) : Type := World -> Exn A * World.

Definition ret {A} (a : A) : M A := fun w => (Ok a, w).

Definition bind {A B} (m : M A) (k : A -> M B) : M B :=
  fun w =>
    match m w with
    | (Ok a, w') => k a w'
    | (Throw e, w') => (Throw e, w')
    end.

Definition lift {A} (x : Exn A) : M A := fun w => (x, w).

(** Reading a property of the object behind a reference; on [undefined] the
    property access raises a TypeError. *)
Definition deref (r : ref) : M Atom :=
  fun w =>
    match heap w !! r with
    | Some a => (Ok a, w)
    | None => (Throw "TypeError: cannot read properties of undefined", w)
    end.

Definition exn_bind {A B} (x : Exn A) (k : A -> Exn B) : Exn B :=
  match x with
  | Ok a => k a
  | Throw e => Throw e
  end.

Notation "x <- m ;; k" := (bind m (fun x => k))
  (at level 100, m at next level, right associativity).
Notation "x <-! m ;; k" := (exn_bind m (fun x => k))
  (at level 100, m at next level, right associativity).

Record Pattern := mkPattern { pattern_type : option string }.

Record Candidate := mkCandidate {
  premise1 : ref;
  premise2 : ref;
  truthValues : option (list TruthValue)
}.

Record Result := mkResult {
  result_rule : string;
  premises : list ref;
  conclusion : option ref;
  result_atom : option ref;
  truthValue : option TruthValue
}.

Record Rule := mkRule {
  rule_name : string;
  pattern : option (Pattern * Pattern);
  apply : Candidate -> M (option Result)
}.

(** The engine calls [tv.getStrength()] on truth values; which method
    that call reaches is decided by the class of the object, so the engine
    is written over the method it dispatches to.  For the objects of this
    repository that is [TruthValue_getStrength]. *)
Section Dispatch.
Variable getStrength : TruthValue -> Exn Q.

(** *** Truth-value formulas *)

Definition calculateDeductionTV (tv1 tv2 : TruthValue) : Exn TruthValue :=
  s1 <-! getStrength tv1 ;;
  let c1 := getConfidence tv1 in
  s2 <-! getStrength tv2 ;;
  let c2 := getConfidence tv2 in
  let strength := s1 * s2 in
  let confidence := c1 * c2 * (1 - s1 + s1 * s2) in
  Ok (new_TruthValue strength (Math_min confidence 1)).

Definition calculateInductionTV (tv1 tv2 : TruthValue) : Exn TruthValue :=
  s1 <-! getStrength tv1 ;;
  let c1 := getConfidence tv1 in
  s2 <-! getStrength tv2 ;;
  let c2 := getConfidence tv2 in
  let strength := s2 in
  let confidence := c1 * c2 * s1 in
  Ok (new_TruthValue strength (Math_min confidence 1)).

Definition calculateAbductionTV (tv1 tv2 : TruthValue) : Exn TruthValue :=
  s1 <-! getStrength tv1 ;;
  let c1 := getConfidence tv1 in
  s2 <-! getStrength tv2 ;;
  let c2 := getConfidence tv2 in
  let strength := s2 * s1 in
  let confidence := c1 * c2 in
  Ok (new_TruthValue strength (Math_min confidence 1)).

Definition calculateModusPonensTV (tv1 tv2 : TruthValue) : Exn TruthValue :=
  s1 <-! getStrength tv1 ;;
  let c1 := getConfidence tv1 in
  s2 <-! getStrength tv2 ;;
  let c2 := getConfidence tv2 in
  let strength := s1 * s2 in
  let confidence := c1 * c2 in
  Ok (new_TruthValue strength (Math_min confidence 1)).

Definition reviseTwoTruthValues (c : Config) (tv1 tv2 : TruthValue)
    : Exn TruthValue :=
  s1 <-! getStrength tv1 ;;
  let c1 := getConfidence tv1 in
  s2 <-! getStrength tv2 ;;
  let c2 := getConfidence tv2 in
  let totalConfidence := c1 + c2 - c1 * c2 in
  let strength := (s1 * c1 + s2 * c2 - s1 * s2 * c1 * c2) / totalConfidence in
  let confidence := totalConfidence * revisionInflationFactor c in
  Ok (new_TruthValue strength (Math_min confidence 1)).

Fixpoint revise_from (c : Config) (acc : TruthValue) (l : list TruthValue)
    : Exn TruthValue :=
  match l with
  | [] => Ok acc
  | t :: l' => r <-! reviseTwoTruthValues c acc t ;; revise_from c r l'
  end.

Definition reviseMultipleTruthValues (c : Config) (l : list TruthValue)
    : Exn TruthValue :=
  match l with
  | [] => Ok default_TruthValue
  | [t] => Ok t
  | t :: l' => revise_from c t l'
  end.

(** *** Equivalence of atoms: same id, or same type and same name *)
Definition atomsAreEquivalent (r1 r2 : ref) : M bool :=
  a1 <- deref r1 ;;
  a2 <- deref r2 ;;
  ret (bool_decide (r1 = r2)
       || (bool_decide (atom_type a1 = atom_type a2)
           && bool_decide (atom_name a1 = atom_name a2))).

(** [outgoing[i]] of a two-element outgoing array. *)
Definition out2 (a : Atom) : option (ref * ref) :=
  match outgoing a with
  | [x; y] => Some (x, y)
  | _ => None
  end.

Definition addLinkM (ty : string) (out : list ref) (t : option TruthValue)
    : M ref :=
  fun w => let '(r, w') := addLink ty out t w in (Ok r, w').

Definition addNodeM (ty : string) (nm : option string) (t : option TruthValue)
    : M ref :=
  fun w => let '(r, w') := addNode ty nm t w in (Ok r, w').

(** *** applyDeduction: A->B, B->C |- A->C *)
Definition applyDeduction (cand : Candidate) : M (option Result) :=
  p1 <- deref (premise1 cand) ;;
  p2 <- deref (premise2 cand) ;;
  match out2 p1, out2 p2 with
  | Some (A, B1), Some (B2, C) =>
      same <- atomsAreEquivalent B1 B2 ;;
      if negb same then ret None
      else
        conclusionTV <- lift (calculateDeductionTV (tv p1) (tv p2)) ;;
        conclusion <- addLinkM IMPLICATION_LINK [A; C] (Some conclusionTV) ;;
        ret (Some (mkResult "deduction" [premise1 cand; premise2 cand]
                            (Some conclusion) (Some conclusion)
                            (Some conclusionTV)))
  | _, _ => ret None
  end.

(** *** applyInduction: A->B, A->C |- C->B *)
Definition applyInduction (cand : Candidate) : M (option Result) :=
  p1 <- deref (premise1 cand) ;;
  p2 <- deref (premise2 cand) ;;
  match out2 p1, out2 p2 with
  | Some (A1, B), Some (A2, C) =>
      same <- atomsAreEquivalent A1 A2 ;;
      if negb same then ret None
      else
        conclusionTV <- lift (calculateInductionTV (tv p1) (tv p2)) ;;
        conclusion <- addLinkM IMPLICATION_LINK [C; B] (Some conclusionTV) ;;
        ret (Some (mkResult "induction" [premise1 cand; premise2 cand]
                            (Some conclusion) (Some conclusion)
                            (Some conclusionTV)))
  | _, _ => ret None
  end.

(** *** applyAbduction: A->B, C->B |- A->C *)
Definition applyAbduction (cand : Candidate) : M (option Result) :=
  p1 <- deref (premise1 cand) ;;
  p2 <- deref (premise2 cand) ;;
  match out2 p1, out2 p2 with
  | Some (A, B1), Some (C, B2) =>
      same <- atomsAreEquivalent B1 B2 ;;
      if negb same then ret None
      else
        conclusionTV <- lift (calculateAbductionTV (tv p1) (tv p2)) ;;
        conclusion <- addLinkM IMPLICATION_LINK [A; C] (Some conclusionTV) ;;
        ret (Some (mkResult "abduction" [premise1 cand; premise2 cand]
                            (Some conclusion) (Some conclusion)
                            (Some conclusionTV)))
  | _, _ => ret None
  end.

(** *** evaluatesAsTrue(evaluationLink, atom) *)
Definition evaluatesAsTrue (c : Config) (evaluationLink atom : ref) : M bool :=
  ev <- deref evaluationLink ;;
  if negb (bool_decide (atom_type ev = EVALUATION_LINK)) then ret false
  else
    match out2 ev with
    | None => ret false
    | Some (predicate, argument) =>
        matches <- atomsAreEquivalent argument atom ;;
        s <- lift (getStrength (tv ev)) ;;
        let isTrue := Qltb 0.5 s && Qltb (minConfidence c) (getConfidence (tv ev)) in
        ret (matches && isTrue)
    end.

(** *** applyModusPonens: A->B, A |- B *)
Definition applyModusPonens (c : Config) (cand : Candidate) : M (option Result) :=
  p1 <- deref (premise1 cand) ;;
  match out2 p1 with
  | None => ret None
  | Some (A1, B) =>
      holds <- evaluatesAsTrue c (premise2 cand) A1 ;;
      if negb holds then ret None
      else
        p2 <- deref (premise2 cand) ;;
        conclusionTV <- lift (calculateModusPonensTV (tv p1) (tv p2)) ;;
        t <- addNodeM PREDICATE_NODE (Some "true"%string) None ;;
        conclusion <- addLinkM EVALUATION_LINK [t; B] (Some conclusionTV) ;;
        ret (Some (mkResult "modusPonens" [premise1 cand; premise2 cand]
                            (Some conclusion) (Some conclusion)
                            (Some conclusionTV)))
  end.

(** *** applyRevision(candidate) *)
Definition applyRevision (c : Config) (cand : Candidate) : M (option Result) :=
  match truthValues cand with
  | Some (t1 :: t2 :: l) =>
      revisedTV <- lift (reviseMultipleTruthValues c (t1 :: t2 :: l)) ;;
      ret (Some (mkResult "revision" [] None None (Some revisedTV)))
  | _ => ret None
  end.

(** *** initializeInferenceRules(): the registry, in insertion order *)
Definition implication_pattern : Pattern := mkPattern (Some IMPLICATION_LINK).
Definition evaluation_pattern : Pattern := mkPattern (Some EVALUATION_LINK).

Definition deduction_rule : Rule :=
  mkRule "Deduction" (Some (implication_pattern, implication_pattern))
         applyDeduction.

Definition induction_rule : Rule :=
  mkRule "Induction" (Some (implication_pattern, implication_pattern))
         applyInduction.

Definition abduction_rule : Rule :=
  mkRule "Abduction" (Some (implication_pattern, implication_pattern))
         applyAbduction.

Definition revision_rule (c : Config) : Rule :=
  mkRule "Revision" None (applyRevision c).

Definition modusPonens_rule (c : Config) : Rule :=
  mkRule "Modus Ponens" (Some (implication_pattern, evaluation_pattern))
         (applyModusPonens c).

Definition rules (c : Config) : list Rule :=
  [ deduction_rule; induction_rule; abduction_rule; revision_rule c;
    modusPonens_rule c ].

(** *** matchesPattern(atom, pattern) *)
Definition matchesPattern (w : World) (r : ref) (p : Pattern) : bool :=
  match pattern_type p, heap w !! r with
  | Some ty, Some a => bool_decide (atom_type a = ty)
  | Some ty, None => false
  | None, _ => true
  end.

(** *** findRuleCandidates(rule): the loops [i] and [j = i + 1 ...] *)
Fixpoint candidate_pairs (w : World) (p1 p2 : Pattern) (l : list ref)
    : list Candidate :=
  match l with
  | [] => []
  | atom1 :: rest =>
      map (fun atom2 => mkCandidate atom1 atom2 None)
          (List.filter (fun atom2 => matchesPattern w atom1 p1
                                      && matchesPattern w atom2 p2) rest)
      ++ candidate_pairs w p1 p2 rest
  end.

Definition findRuleCandidates (rule : Rule) (w : World) : list Candidate :=
  match pattern rule with
  | None => []
  | Some (p1, p2) => candidate_pairs w p1 p2 (getAllAtoms w)
  end.

(** *** isValidInference(result) *)
Definition isValidInference (c : Config) (r : Result) : Exn bool :=
  match truthValue r with
  | None => Ok false
  | Some t =>
      if Qle_bool (minConfidence c) (getConfidence t)
      then s <-! getStrength t ;; Ok (Qle_bool (strengthThreshold c) s)
      else Ok false
  end.

(** *** applyRule(rule): the loop over the candidates inside [try]; a throw
    leaves the loop, is logged, and [results] is returned as it stands. *)
Fixpoint applyRule_loop (c : Config) (rule : Rule) (cands : list Candidate)
    (results : list Result) (w : World) : list Result * World :=
  match cands with
  | [] => (results, w)
  | cand :: rest =>
      match apply rule cand w with
      | (Throw _, w') => (results, w')
      | (Ok None, w') => applyRule_loop c rule rest results w'
      | (Ok (Some r), w') =>
          match isValidInference c r with
          | Throw _ => (results, w')
          | Ok false => applyRule_loop c rule rest results w'
          | Ok true =>
              let w'' := match result_atom r with
                         | Some a => snd (addAtom a w')
                         | None => w'
                         end in
              applyRule_loop c rule rest (results ++ [r]) w''
          end
      end
  end.

Definition applyRule (c : Config) (rule : Rule) (w : World)
    : list Result * World :=
  applyRule_loop c rule (findRuleCandidates rule w) [] w.

(** *** performInference(maxIterations = 100) *)
Record InferenceReport := mkReport {
  results : list Result;
  iterations : nat;
  totalInferences : nat
}.

(** One pass of [for (const [ruleName, rule] of this.rules)]. *)
Definition apply_all_rules (c : Config) (rs : list Rule) (w : World)
    : list Result * World :=
  foldl (fun acc rule =>
           let '(found, w1) := applyRule c rule (snd acc) in
           (fst acc ++ found, w1))
        ([], w) rs.

Fixpoint inference_loop (c : Config) (fuel : nat) (iteration : nat)
    (acc : list Result) (w : World) : InferenceReport * World :=
  match fuel with
  | O => (mkReport acc iteration (length acc), w)
  | S fuel' =>
      let '(found, w') := apply_all_rules c (rules c) w in
      match found with
      | [] => (mkReport acc (S iteration) (length acc), w')
      | _ => inference_loop c fuel' (S iteration) (acc ++ found) w'
      end
  end.

Definition performInference (c : Config) (maxIterations : nat) (w : World)
    : InferenceReport * World :=
  inference_loop c maxIterations 0 [] w.

End Dispatch.

End PLN.

(** ** CogServer.js: the job-execution path

    Time is [Date.now()] in milliseconds.  The body of a plugin is seen
    through the way the promise returned by [plugin.execute] settles,
    measured from the call. *)

Module CogServer.

Inductive Status := queued | running | completed | failed | cancelled.

Record JobOptions := mkJobOptions {
  priority : Q;
  timeout : N;
  maxRetries : nat
}.

Record Job := mkJob {
  job_id : nat;
  pluginId : string;
  options : JobOptions;
  status : Status;
  startedAt : option N;
  completedAt : option N;
  retryCount : nat;
  result : option string;
  error : option string
}.

Record Plugin := mkPlugin {
  executionCount : nat;
  lastExecuted : option N;
  averageExecutionTime : Q
}.

Record Stats := mkStats {
  totalJobsCompleted : nat;
  totalJobsFailed : nat;
  averageJobDuration : Q
}.

Record t := mkServer {
  plugins : gmap string Plugin;
  jobQueue : list Job;
  runningJobs : list Job;
  completedJobs : list Job;
  stats : Stats
}.

(** How the promise of [plugin.execute(...)] settles: resolved or rejected
    [after] milliseconds, or never. *)
Inductive Settlement :=
  | Resolves (after : N) (value : string)
  | Rejects (after : N) (message : string)
  | Pending.

(** [const SAFE_TIMEOUT = 30000; // 30 seconds max] *)
Definition SAFE_TIMEOUT : N := 30000.

(** [await Promise.race([executionPromise, timeoutPromise])]: the delay after
    which the race settles, and its outcome.  The timer was armed before
    [plugin.execute] was called, so it wins a tie. *)
Definition race (p : Settlement) : N * Exn string :=
  match p with
  | Resolves d v =>
      if N.ltb d SAFE_TIMEOUT then (d, Ok v)
      else (SAFE_TIMEOUT, Throw "Job timed out")
  | Rejects d m =>
      if N.ltb d SAFE_TIMEOUT then (d, Throw m)
      else (SAFE_TIMEOUT, Throw "Job timed out")
  | Pending => (SAFE_TIMEOUT, Throw "Job timed out")
  end.

(** [this.runningJobs.delete(job.id)] *)
Definition running_delete (id : nat) (l : list Job) : list Job :=
  List.filter (fun j => negb (Nat.eqb (job_id j) id)) l.

(** [this.runningJobs.set(job.id, job)] *)
Definition running_set (j : Job) (l : list Job) : list Job :=
  if existsb (fun k => Nat.eqb (job_id k) (job_id j)) l
  then map (fun k => if Nat.eqb (job_id k) (job_id j) then j else k) l
  else l ++ [j].

(** [this.jobQueue.sort((a, b) => b.options.priority - a.options.priority)] *)
Fixpoint insert_by_priority (j : Job) (l : list Job) : list Job :=
  match l with
  | [] => [j]
  | k :: l' =>
      if Qle_bool (priority (options k)) (priority (options j))
      then j :: k :: l'
      else k :: insert_by_priority j l'
  end.

Definition sort_queue (l : list Job) : list Job :=
  foldr insert_by_priority [] l.

Definition completeJob (now : N) (job : Job) (value : string) (s : t)
    : Job * t :=
  let job' := mkJob (job_id job) (pluginId job) (options job) completed
                    (startedAt job) (Some now) (retryCount job)
                    (Some value) (error job) in
  let duration :=
    inject_Z (Z.of_N now) - inject_Z (Z.of_N (default 0%N (startedAt job))) in
  let plugins' :=
    match plugins s !! pluginId job with
    | Some p =>
        let n := S (executionCount p) in
        <[pluginId job :=
            mkPlugin n (Some now)
              ((averageExecutionTime p * (inject_Z (Z.of_nat n) - 1) + duration)
               / inject_Z (Z.of_nat n))]> (plugins s)
    | None => plugins s
    end in
  let done := S (totalJobsCompleted (stats s)) in
  (job',
   mkServer plugins' (jobQueue s) (running_delete (job_id job) (runningJobs s))
            (completedJobs s ++ [job'])
            (mkStats done (totalJobsFailed (stats s))
               ((averageJobDuration (stats s) * (inject_Z (Z.of_nat done) - 1)
                 + duration) / inject_Z (Z.of_nat done)))).

Definition failJob (now : N) (job : Job) (message : string) (s : t)
    : Job * t :=
  let job' := mkJob (job_id job) (pluginId job) (options job) failed
                    (startedAt job) (Some now) (retryCount job)
                    (result job) (Some message) in
  (job',
   mkServer (plugins s) (jobQueue s)
            (running_delete (job_id job) (runningJobs s))
            (completedJobs s ++ [job'])
            (mkStats (totalJobsCompleted (stats s))
                     (S (totalJobsFailed (stats s)))
                     (averageJobDuration (stats s)))).

Definition retryJob (job : Job) (message : string) (s : t) : Job * t :=
  let job' := mkJob (job_id job) (pluginId job) (options job) queued
                    (startedAt job) (completedAt job) (S (retryCount job))
                    (result job) (Some message) in
  (job',
   mkServer (plugins s) (sort_queue (jobQueue s ++ [job']))
            (running_delete (job_id job) (runningJobs s))
            (completedJobs s) (stats s)).

(** [executeJob(job)], started at time [now], for a plugin body that settles
    as [body] says.  The result is the time at which the job leaves the
    path, the job record and the server. *)
Definition executeJob (now : N) (body : Settlement) (job : Job) (s : t)
    : N * Job * t :=
  match plugins s !! pluginId job with
  | None =>
      let '(j, s') := failJob now job ("Plugin " +:+ pluginId job +:+ " not found") s in
      (now, j, s')
  | Some _ =>
      let job1 := mkJob (job_id job) (pluginId job) (options job) running
                        (Some now) (completedAt job) (retryCount job)
                        (result job) (error job) in
      let s1 := mkServer (plugins s) (jobQueue s)
                         (running_set job1 (runningJobs s))
                         (completedJobs s) (stats s) in
      let '(delay, outcome) := race body in
      let later := (now + delay)%N in
      match outcome with
      | Ok value =>
          let '(j, s') := completeJob later job1 value s1 in (later, j, s')
      | Throw message =>
          if Nat.ltb (retryCount job1) (maxRetries (options job1))
          then let '(j, s') := retryJob job1 message s1 in (later, j, s')
          else let '(j, s') := failJob later job1 message s1 in (later, j, s')
      end
  end.

(** The test of [checkTimeouts()] on one running job at time [now]. *)
Definition timed_out (now : N) (job : Job) : bool :=
  Z.ltb (Z.of_N (timeout (options job)))
        (Z.of_N now - Z.of_N (default 0%N (startedAt job))).

End CogServer.

(** ** CogServer.js: registration, scheduling and the cognitive cycle

    The rest of [class CogServer], over the job-execution path above.
    [Date.now()] reads an explicit clock, one entry for each call.  Events
    are emitted to no listener.  A call of a plugin's [execute] works on
    the atom space only and leaves the server as it is; it either returns
    (a promise, as the five built-in [async] ones do, or any other value),
    and then the job settles in a later turn, after the [await] of
    [executeJob], or it throws at once, and then the [catch] of
    [executeJob] runs before [executeJob] returns.  A job in
    [completedJobs] is the job as it was when it was pushed there. *)

Module Scheduler.
Import CogServer.

Record Config := mkConfig {
  maxConcurrentJobs : nat;
  jobTimeout : N;
  cycleInterval : N;
  enableScheduler : bool;
  maxQueueSize : nat
}.

Record Options := mkOptions {
  opt_maxConcurrentJobs : option nat;
  opt_jobTimeout : option N;
  opt_cycleInterval : option N;
  opt_enableScheduler : option bool;
  opt_maxQueueSize : option nat
}.

Definition no_options : Options := mkOptions None None None None None.

(** [x || d] on milliseconds. *)
Definition N_or (x : option N) (d : N) : N :=
  match x with
  | Some 0%N => d
  | Some v => v
  | None => d
  end.

(** [this.config = { maxConcurrentJobs: options.maxConcurrentJobs || 4, ...,
    enableScheduler: options.enableScheduler !== false, ... }]. *)
Definition make_config (o : Options) : Config :=
  mkConfig (nat_or (opt_maxConcurrentJobs o) 4)
           (N_or (opt_jobTimeout o) 30000)
           (N_or (opt_cycleInterval o) 1000)
           (match opt_enableScheduler o with
            | Some false => false
            | _ => true
            end)
           (nat_or (opt_maxQueueSize o) 1000).

(** What an entry of the [Map] [this.plugins] holds besides the statistics
    kept in [CogServer.Plugin]. *)
Record Registration := mkRegistration {
  plugin_priority : Q;
  enabled : bool
}.

(** The argument of [registerPlugin]: whether [execute] is a function, and
    the properties [priority] and [enabled] when it has them ([enabled] by
    its truthiness).  As the built-in ones, it has no property of its own
    named as the statistics ([executionCount], [lastExecuted],
    [averageExecutionTime]), which the spread would copy. *)
Record Descriptor := mkDescriptor {
  has_execute : bool;
  given_priority : option Q;
  given_enabled : option bool
}.

(** The [options] argument of [scheduleJob]: the properties it has. *)
Record Given := mkGiven {
  priority_given : option Q;
  timeout_given : option N;
  maxRetries_given : option nat
}.

(** The server: the state of the job-execution path ([core]), and with it
    the configuration, the registration part of [this.plugins] (over the
    same keys as [plugins core]), the flags and counters, the clock read by
    [Date.now()], and the number of job ids generated so far. *)
Record Server := mkCogServer {
  core : t;
  config : Config;
  registry : gmap string Registration;
  isRunning : bool;
  scheduler : bool;
  cycleCount : nat;
  totalJobsScheduled : nat;
  cyclesRun : nat;
  clock : nat -> N;
  ticks : nat;
  jobsGenerated : nat
}.

Definition with_core (c : t) (s : Server) : Server :=
  mkCogServer c (config s) (registry s) (isRunning s) (scheduler s)
              (cycleCount s) (totalJobsScheduled s) (cyclesRun s) (clock s)
              (ticks s) (jobsGenerated s).

Definition with_queue (q : list Job) (c : t) : t :=
  mkServer (plugins c) q (runningJobs c) (completedJobs c) (stats c).

Definition Date_now (s : Server) : N * Server :=
  (clock s (ticks s),
   mkCogServer (core s) (config s) (registry s) (isRunning s) (scheduler s)
               (cycleCount s) (totalJobsScheduled s) (cyclesRun s) (clock s)
               (S (ticks s)) (jobsGenerated s)).

(** *** registerPlugin(id, plugin)

    The spread [...plugin] comes last in the object literal, so a property
    the descriptor has wins over the default written before it. *)
Definition registerPlugin (id : string) (plugin : Descriptor) (s : Server)
    : Exn bool * Server :=
  if negb (has_execute plugin)
  then (Throw "Plugin must have an execute function", s)
  else
    let c := core s in
    (Ok true,
     mkCogServer
       (mkServer (<[id := mkPlugin 0 None 0]> (plugins c)) (jobQueue c)
                 (runningJobs c) (completedJobs c) (stats c))
       (config s)
       (<[id := mkRegistration (default 1 (given_priority plugin))
                               (default true (given_enabled plugin))]>
          (registry s))
       (isRunning s) (scheduler s) (cycleCount s) (totalJobsScheduled s)
       (cyclesRun s) (clock s) (ticks s) (jobsGenerated s)).

(** *** unregisterPlugin(id) *)
Definition unregisterPlugin (id : string) (s : Server) : bool * Server :=
  match registry s !! id with
  | Some _ =>
      let c := core s in
      (true,
       mkCogServer
         (mkServer (delete id (plugins c)) (jobQueue c) (runningJobs c)
                   (completedJobs c) (stats c))
         (config s) (delete id (registry s))
         (isRunning s) (scheduler s) (cycleCount s) (totalJobsScheduled s)
         (cyclesRun s) (clock s) (ticks s) (jobsGenerated s))
  | None => (false, s)
  end.

(** *** generateJobId()

    [`job_${Date.now()}_${Math.random()...}`] is taken to be collision
    free: the id is the number of ids generated before. *)
Definition generateJobId (s : Server) : nat * Server :=
  let '(_, s1) := Date_now s in
  (jobsGenerated s,
   mkCogServer (core s1) (config s1) (registry s1) (isRunning s1)
               (scheduler s1) (cycleCount s1) (totalJobsScheduled s1)
               (cyclesRun s1) (clock s1) (ticks s1) (S (jobsGenerated s1))).

(** *** scheduleJob(pluginId, parameters = {}, options = {}) *)
Definition scheduleJob (pluginId : string) (o : Given) (s : Server)
    : Exn nat * Server :=
  match registry s !! pluginId with
  | None => (Throw ("Plugin " +:+ pluginId +:+ " not found"), s)
  | Some plugin =>
      if negb (enabled plugin)
      then (Throw ("Plugin " +:+ pluginId +:+ " is disabled"), s)
      else if Nat.leb (maxQueueSize (config s)) (length (jobQueue (core s)))
      then (Throw "Job queue is full", s)
      else
        let '(id, s1) := generateJobId s in
        let '(_, s2) := Date_now s1 in
        let job :=
          mkJob id pluginId
                (mkJobOptions
                   (default (plugin_priority plugin) (priority_given o))
                   (default (jobTimeout (config s)) (timeout_given o))
                   (default 0%nat (maxRetries_given o)))
                queued None None 0 None None in
        (Ok id,
         mkCogServer
           (with_queue (sort_queue (jobQueue (core s2) ++ [job])) (core s2))
           (config s2) (registry s2) (isRunning s2) (scheduler s2)
           (cycleCount s2) (S (totalJobsScheduled s2)) (cyclesRun s2)
           (clock s2) (ticks s2) (jobsGenerated s2))
  end.

(** *** start() *)
Definition start (s : Server) : bool * Server :=
  if isRunning s then (false, s)
  else
    (true,
     mkCogServer (core s) (config s) (registry s) true
                 (if enableScheduler (config s) then true else scheduler s)
                 (cycleCount s) (totalJobsScheduled s) (cyclesRun s) (clock s)
                 (ticks s) (jobsGenerated s)).

(** *** cancelJob(jobId) *)
Definition cancelJob (jobId : nat) (s : Server) : bool * Server :=
  match find (fun j => Nat.eqb (job_id j) jobId) (runningJobs (core s)) with
  | Some job =>
      let '(now, s1) := Date_now s in
      let c := core s1 in
      let job' := mkJob (job_id job) (pluginId job) (options job) cancelled
                        (startedAt job) (Some now) (retryCount job)
                        (result job) (error job) in
      (true,
       with_core (mkServer (plugins c) (jobQueue c)
                           (running_delete jobId (runningJobs c))
                           (completedJobs c ++ [job']) (stats c)) s1)
  | None => (false, s)
  end.

(** *** stop() *)
Definition stop (s : Server) : bool * Server :=
  if negb (isRunning s) then (false, s)
  else
    let s1 :=
      mkCogServer (core s) (config s) (registry s) false false (cycleCount s)
                  (totalJobsScheduled s) (cyclesRun s) (clock s) (ticks s)
                  (jobsGenerated s) in
    (true,
     foldl (fun s jobId => snd (cancelJob jobId s)) s1
           (map job_id (runningJobs (core s1)))).

(** *** failJob(job, error) and retryJob(job, error) on the server:
    [failJob] stamps the job with its own reading of the clock. *)
Definition failJob (job : Job) (message : string) (s : Server) : Server :=
  let '(now, s1) := Date_now s in
  with_core (snd (CogServer.failJob now job message (core s1))) s1.

Definition retryJob (job : Job) (message : string) (s : Server) : Server :=
  with_core (snd (CogServer.retryJob job message (core s))) s.

(** What a call of [plugin.execute(...)] does before it returns: it
    returns, or it throws an error with this message. *)
Inductive Call :=
  | Returns
  | ThrowsNow (message : string).

(** *** executeJob(job), up to its [await].  The plugin is looked up, and
    the job is failed when it is gone.  Otherwise the job is marked as
    running and [plugin.execute] is called inside the [try]: when the call
    throws, the [catch] re-queues the job if a retry is left and fails it
    if none is. *)
Definition startJob (call : Call) (job : Job) (s : Server) : Server :=
  match plugins (core s) !! pluginId job with
  | None => failJob job ("Plugin " +:+ pluginId job +:+ " not found") s
  | Some _ =>
      let '(now, s1) := Date_now s in
      let c := core s1 in
      let job1 := mkJob (job_id job) (pluginId job) (options job) running
                        (Some now) (completedAt job) (retryCount job)
                        (result job) (error job) in
      let s2 := with_core (mkServer (plugins c) (jobQueue c)
                                    (running_set job1 (runningJobs c))
                                    (completedJobs c) (stats c)) s1 in
      match call with
      | Returns => s2
      | ThrowsNow message =>
          if Nat.ltb (retryCount job1) (maxRetries (options job1))
          then retryJob job1 message s2
          else failJob job1 message s2
      end
  end.

(** *** checkTimeouts(): the overdue jobs are collected against one reading
    of the clock, and then failed one after the other. *)
Definition checkTimeouts (s : Server) : Server :=
  let '(now, s1) := Date_now s in
  foldl (fun s job => failJob job "Job timed out" s) s1
        (List.filter (timed_out now) (runningJobs (core s1))).

(** *** processCycle()

    The loop [while (runningJobs.size < maxConcurrentJobs && jobQueue.length
    > 0)] takes the head of the queue at each turn; [calls turn] is what
    the call of [plugin.execute] does in that turn, if there is one.  A job
    that is re-queued has used one of its retries, so the loop ends within
    as many turns as the queue has attempts left ([attempts]); that number
    is the fuel of [start_jobs], and more fuel gives the same server
    (lemma [start_jobs_enough]). *)
Definition attempts_left (job : Job) : nat :=
  S (maxRetries (options job) - retryCount job).

Definition attempts (queue : list Job) : nat :=
  foldr (fun job n => (attempts_left job + n)%nat) 0%nat queue.

Fixpoint start_jobs (fuel : nat) (calls : nat -> Call) (turn : nat)
    (s : Server) : Server :=
  match fuel with
  | O => s
  | S fuel' =>
      match jobQueue (core s) with
      | [] => s
      | job :: rest =>
          if Nat.ltb (length (runningJobs (core s)))
                     (maxConcurrentJobs (config s))
          then start_jobs fuel' calls (S turn)
                 (startJob (calls turn) job
                    (with_core (with_queue rest (core s)) s))
          else s
      end
  end.

Definition processCycle (calls : nat -> Call) (s : Server) : Server :=
  let s1 :=
    mkCogServer (core s) (config s) (registry s) (isRunning s) (scheduler s)
                (S (cycleCount s)) (totalJobsScheduled s) (S (cyclesRun s))
                (clock s) (ticks s) (jobsGenerated s) in
  checkTimeouts (start_jobs (attempts (jobQueue (core s1))) calls 0 s1).

(** *** getJob(jobId) *)
Definition getJob (jobId : nat) (s : Server) : option Job :=
  let has_id := fun j => Nat.eqb (job_id j) jobId in
  match find has_id (runningJobs (core s)) with
  | Some job => Some job
  | None =>
      match find has_id (jobQueue (core s)) with
      | Some job => Some job
      | None => find has_id (completedJobs (core s))
      end
  end.

(** *** new CogServer(atomSpace, options), with the five built-in plugins *)
Definition builtin (priority : Q) : Descriptor :=
  mkDescriptor true (Some priority) None.

Definition initializeBuiltinPlugins (s : Server) : Server :=
  let s := snd (registerPlugin "pln" (builtin 5) s) in
  let s := snd (registerPlugin "ecan" (builtin 8) s) in
  let s := snd (registerPlugin "patternMining" (builtin 3) s) in
  let s := snd (registerPlugin "goalProcessing" (builtin 7) s) in
  snd (registerPlugin "memoryConsolidation" (builtin 4) s).

Definition new_CogServer (o : Options) (clk : nat -> N) : Server :=
  initializeBuiltinPlugins
    (mkCogServer (mkServer ∅ [] [] [] (mkStats 0 0 0)) (make_config o) ∅
                 false false 0 0 0 clk 0 0).

End Scheduler.

(** ** CogServer.js: the memory consolidation plugin

    [executeMemoryConsolidationPlugin(atomSpace, parameters, options)] is
    an [async] function without an [await]: its body runs when it is
    called, and the promise it returns is resolved with the object it
    returns.  [parameters] is an object; [stiThreshold] is its property of
    that name, if it has one. *)

Module Plugins.

(** One turn of [atoms.forEach(atom => { ... })]. *)
Definition consolidate_step (stiThreshold : option Q) (h : list Atom) (r : ref)
    : list Atom :=
  if Qltb (num_or stiThreshold 50) (getSTI h r)
  then heap_alter (fun a => setAV (setLTI (lti (av a) + 1) (av a)) a) r h
  else h.

(** The result is the value of [consolidatedAtoms]. *)
Definition executeMemoryConsolidationPlugin (stiThreshold : option Q)
    (w : World) : nat * World :=
  let consolidatedCount := 0%nat in
  let h := foldl (consolidate_step stiThreshold) (heap w) (getAllAtoms w) in
  (consolidatedCount, with_heap h w).

End Plugins.

(** * Specification vocabulary and scenarios

    The predicates in which the properties below are stated, and the
    concrete graphs, engines and jobs they are evaluated on. *)

(** ** The graph store *)

(** Every key of the graph is the reference of an allocated object.  It
    holds in the empty graph and every operation keeps it. *)
Definition allocated (w : World) : Prop :=
  forall r, r ∈ atoms w -> (r < length (heap w))%nat.

(** The focus holds only keys of the graph.  Every operation of the store
    keeps this ([addToAttentionalFocus] tests [atoms.has], [removeAtom]
    deletes the id from the focus). *)
Definition focus_live (w : World) : Prop :=
  forall x, x ∈ attentionalFocus w -> x ∈ atoms w.

(** The three together: the keys of [this.atoms] are distinct (it is a
    [Map]), allocated, and the focus holds only keys. *)
Record well_formed (w : World) : Prop := mk_wf {
  wf_keys : NoDup (atoms w);
  wf_allocated : allocated w;
  wf_focus : focus_live w
}.

(** What the de-duplicating lookups read of an atom. *)
Definition shape (a : Atom) : string * list ref := (atom_type a, outgoing a).

(** The shape of the atom stored under a key, if any. *)
Definition shape_of (w : World) (id : ref) : option (string * list ref) :=
  shape <$> getAtom id w.

(** The tests of [getNodeByName] and [getLinkByOutgoing] on a shape. *)
Definition node_test (ty : string) (sh : option (string * list ref)) : bool :=
  match sh with
  | Some (ty', _) => bool_decide (ty' = ty)
  | None => false
  end.

Definition link_test (out : list ref) (sh : option (string * list ref)) : bool :=
  match sh with
  | Some (_, out') => Nat.ltb 0 (length out') && arraysEqual out' out
  | None => false
  end.

(** One concept node named by the empty string, added twice to the empty
    graph: the result of each call. *)
Definition twice_empty_name : (ref * World) * (ref * World) :=
  let first := addNode CONCEPT_NODE (Some EmptyString) None new_AtomSpace in
  (first, addNode CONCEPT_NODE (Some EmptyString) None (snd first)).

(** The same with no name at all ([addNode(type)]). *)
Definition twice_no_name : (ref * World) * (ref * World) :=
  let first := addNode CONCEPT_NODE None None new_AtomSpace in
  (first, addNode CONCEPT_NODE None None (snd first)).

(** Scenario S3: the nodes A and B. *)
Definition two_nodes : World :=
  snd (addNode CONCEPT_NODE (Some "B"%string) None
         (snd (addNode CONCEPT_NODE (Some "A"%string) None new_AtomSpace))).

(** Scenario S4: A (id 0), B (id 1) and [ListLink(A,B)] (id 2). *)
Definition scenario_S4 : World :=
  snd (addLink LIST_LINK [0; 1]%nat None two_nodes).

(** What never changes of an atom once it is created. *)
Definition static (a : Atom) : string * option string * list ref :=
  (atom_type a, atom_name a, outgoing a).

(** Everything of an atom but its STI. *)
Definition but_sti (a : Atom)
    : string * option string * list ref * TruthValue * (Q * bool) * list ref :=
  (atom_type a, atom_name a, outgoing a, tv a, (lti (av a), vlti (av a)),
   incoming a).

(** The tests the three indexes stand for. *)
Definition has_type (h : list Atom) (ty : string) (r : ref) : bool :=
  match h !! r with
  | Some a => bool_decide (atom_type a = ty)
  | None => false
  end.

Definition is_node_named (h : list Atom) (n : string) (r : ref) : bool :=
  match h !! r with
  | Some a => isNode a && bool_decide (atom_name a = Some n)
  | None => false
  end.

Definition points_to (h : list Atom) (o : ref) (r : ref) : bool :=
  match h !! r with
  | Some a => bool_decide (o ∈ outgoing a)
  | None => false
  end.

(** The indexes are exact: each entry lists, in insertion order, the keys of
    the graph that pass its test, and [size] counts the keys.  The incoming
    index is exact for the atoms that have not been removed. *)
Record indexed (w : World) : Prop := mk_indexed {
  ix_size : size w = Z.of_nat (length (atoms w));
  ix_type : forall ty,
    default [] (typeIndex w !! ty) = List.filter (has_type (heap w) ty) (atoms w);
  ix_name : forall n,
    default [] (nameIndex w !! n)
    = if decide (n = EmptyString) then []
      else List.filter (is_node_named (heap w) n) (atoms w);
  ix_incoming : forall o,
    o ∈ atoms w \/ (length (heap w) <= o)%nat ->
    default [] (incomingIndex w !! o)
    = List.filter (points_to (heap w) o) (atoms w)
}.

(** No two atoms of the graph are structurally equal: links with the same
    type and outgoing atoms, nodes with the same type and (non-empty) name. *)
Definition deduplicated (w : World) : Prop :=
  forall r1 r2 a1 a2,
    r1 ∈ atoms w -> r2 ∈ atoms w ->
    heap w !! r1 = Some a1 -> heap w !! r2 = Some a2 ->
    atom_type a1 = atom_type a2 ->
    outgoing a1 = outgoing a2 ->
    (outgoing a1 <> []
     \/ (atom_name a1 = atom_name a2 /\ truthy_name (atom_name a1) = true)) ->
    r1 = r2.

(** A new atom that duplicates none of the graph. *)
Definition unlike (w : World) (a : Atom) : Prop :=
  forall r a', r ∈ atoms w -> heap w !! r = Some a' ->
    atom_type a' = atom_type a -> outgoing a' = outgoing a ->
    (outgoing a <> []
     \/ (atom_name a' = atom_name a /\ truthy_name (atom_name a) = true)) ->
    False.

Record consistent (w : World) : Prop := mk_consistent {
  cs_wf : well_formed w;
  cs_indexed : indexed w;
  cs_dedup : deduplicated w
}.

(** Two graphs that differ in STIs and in the focus at most. *)
Record same_graph (w w' : World) : Prop := mk_same_graph {
  sg_atoms : atoms w' = atoms w;
  sg_type : typeIndex w' = typeIndex w;
  sg_name : nameIndex w' = nameIndex w;
  sg_incoming : incomingIndex w' = incomingIndex w;
  sg_size : size w' = size w;
  sg_heap : but_sti <$> heap w' = but_sti <$> heap w
}.

(** [atomSpace.addAtom(atom)] for an atom [a] that the caller has just made
    with [new Atom(...)], as [addKnowledge] of the integration layer does. *)
Definition addAtom_new (a : Atom) (w : World) : ref * World :=
  let '(r, w1) := alloc a w in addAtom r w1.

(** ** ECAN *)

Section EngineVocabulary.
Import ECAN.
Variable c : Config.

(** What [applySTIDecay] takes from an atom whose STI is [x]. *)
Definition decay_of (x : Q) : Q :=
  if Qltb 0 x then x * decayRate c else 0.

(** The STI it leaves. *)
Definition decayed_sti (x : Q) : Q :=
  if Qltb 0 x then Math_max (x - x * decayRate c) 0 else x.

(** What it takes from the atoms of [l] altogether. *)
Definition decay_total (h : list Atom) (l : list ref) : Q :=
  foldr (fun r acc => decay_of (getSTI h r) + acc) 0 l.

(** An STI within [[minSTI, maxSTI]]. *)
Definition in_bounds (x : Q) : Prop := minSTI c <= x /\ x <= maxSTI c.

(** The configurations under which the bounds make sense; the default
    configuration is one of them. *)
Record sane_config : Prop := mk_sane {
  sane_minSTI : minSTI c <= 0;
  sane_maxSTI : 0 <= maxSTI c;
  sane_rent : 0 <= rentAmount c;
  sane_decay : 0 <= decayRate c;
  sane_diffusion_lo : 0 <= diffusionRate c;
  sane_diffusion_hi : diffusionRate c <= 1;
  sane_stimulus : 0 <= stimulusAmount c
}.

(** Every reference whose STI was within the bounds still has it there. *)
Definition sti_kept (h h' : list Atom) : Prop :=
  forall r, in_bounds (getSTI h r) -> in_bounds (getSTI h' r).

(** What every ECAN operation does to the store, as far as STIs go: STIs
    that were within the bounds stay there, the configuration stays, the
    heap does not shrink, and a key of the graph afterwards was a key
    before or is the reference of an object created meanwhile. *)
Definition step_ok (s s' : System) : Prop :=
  sti_kept (heap (fst s)) (heap (fst s'))
  /\ config (snd s') = config (snd s)
  /\ (length (heap (fst s)) <= length (heap (fst s')))%nat
  /\ forall x, x ∈ atoms (fst s') ->
       x ∈ atoms (fst s) \/ (length (heap (fst s)) <= x)%nat.

(** The phases before the focus update only write STIs and the pool. *)
Definition store_same (s s' : System) : Prop :=
  atoms (fst s') = atoms (fst s)
  /\ attentionalFocus (fst s') = attentionalFocus (fst s)
  /\ config (snd s') = config (snd s).

(** The focus invariant itself. *)
Definition focus_ok (c : Config) (w : World) : Prop :=
  (length (attentionalFocus w) <= maxAF c)%nat
  /\ forall x, x ∈ attentionalFocus w ->
       x ∈ atoms w /\ minSTI c <= getSTI (heap w) x.

End EngineVocabulary.

(** The decay as the specification words it: the STI of an atom with
    [STI > 0] is reduced by [STI * decayRate] rounded toward zero.
    Rounding toward zero is the quotient of numerator by denominator. *)
Definition round_toward_zero (q : Q) : Z := Z.quot (Qnum q) (Zpos (Qden q)).

(** The STI the decay leaves, in the specification's words. *)
Definition spec_decayed_sti (c : ECAN.Config) (x : Q) : Q :=
  if Qltb 0 x then x - inject_Z (round_toward_zero (x * ECAN.decayRate c)) else x.

(** One concept node stimulated by 50, under the default configuration. *)
Definition decay_example : ECAN.System :=
  snd (ECAN.stimulateAtom 0 (Some 50)
         (snd (addNode CONCEPT_NODE (Some "cat"%string) None new_AtomSpace),
          ECAN.new_ECAN ECAN.no_options (fun _ => 1))).

(** Scenario S2: [maxAF = 3], five concept nodes stimulated by 10, 20, 30,
    40 and 50; the oracle never lets the random phases fire. *)
Definition scenario_S2 : ECAN.System :=
  let w := new_AtomSpace in
  let w := snd (addNode CONCEPT_NODE (Some "a"%string) None w) in
  let w := snd (addNode CONCEPT_NODE (Some "b"%string) None w) in
  let w := snd (addNode CONCEPT_NODE (Some "c"%string) None w) in
  let w := snd (addNode CONCEPT_NODE (Some "d"%string) None w) in
  let w := snd (addNode CONCEPT_NODE (Some "e"%string) None w) in
  let e := ECAN.new_ECAN
             (ECAN.mkOptions (Some 3%nat) None None None None None None None
                             None None None) (fun _ => 1) in
  let s := snd (ECAN.stimulateAtom 0 (Some 10) (w, e)) in
  let s := snd (ECAN.stimulateAtom 1 (Some 20) s) in
  let s := snd (ECAN.stimulateAtom 2 (Some 30) s) in
  let s := snd (ECAN.stimulateAtom 3 (Some 40) s) in
  snd (ECAN.stimulateAtom 4 (Some 50) s).

(** The operations of the engine: the six phases of a cycle, a whole cycle,
    [stimulateAtom] and [performHebbianLearning]. *)
Inductive ecan_operation :=
  | CollectRent
  | ApplySTIDecay
  | SpreadImportance
  | UpdateAttentionalFocus
  | ApplyForgetting
  | UpdateStatistics
  | RunCycle
  | StimulateAtom (atomId : ref) (amount : option Q)
  | PerformHebbianLearning (atom1Id atom2Id : ref).

Definition perform (op : ecan_operation) (s : ECAN.System) : ECAN.System :=
  match op with
  | CollectRent => ECAN.collectRent s
  | ApplySTIDecay => ECAN.applySTIDecay s
  | SpreadImportance => ECAN.spreadImportance s
  | UpdateAttentionalFocus => ECAN.updateAttentionalFocus s
  | ApplyForgetting => ECAN.applyForgetting s
  | UpdateStatistics => ECAN.updateStatistics s
  | RunCycle => ECAN.runCycle s
  | StimulateAtom atomId amount => snd (ECAN.stimulateAtom atomId amount s)
  | PerformHebbianLearning a1 a2 => snd (ECAN.performHebbianLearning a1 a2 s)
  end.

(** The amount [stimulateAtom] really adds must not be negative: the
    function clamps at [maxSTI] only. *)
Definition nonnegative_stimulus (c : ECAN.Config) (op : ecan_operation) : Prop :=
  match op with
  | StimulateAtom _ amount => 0 <= num_or amount (ECAN.stimulusAmount c)
  | _ => True
  end.

(** Every atom of the graph has its STI within the bounds. *)
Definition sti_bounded (c : ECAN.Config) (w : World) : Prop :=
  forall r, r ∈ atoms w -> in_bounds c (getSTI (heap w) r).

(** One concept node under the default configuration. *)
Definition one_node : ECAN.System :=
  (snd (addNode CONCEPT_NODE (Some "cat"%string) None new_AtomSpace),
   ECAN.new_ECAN ECAN.no_options (fun _ => 1)).

(** The state of a cycle when its forgetting phase begins. *)
Definition before_forgetting (s : ECAN.System) : ECAN.System :=
  ECAN.updateAttentionalFocus
    (ECAN.spreadImportance
       (ECAN.applySTIDecay (ECAN.collectRent (ECAN.begin_cycle s)))).

(** A list of atoms in descending order of STI. *)
Fixpoint descending (h : list Atom) (l : list ref) : Prop :=
  match l with
  | [] => True
  | x :: l' => (forall y, y ∈ l' -> getSTI h y <= getSTI h x) /\ descending h l'
  end.

(** The atoms that may enter the focus. *)
Definition eligible (c : ECAN.Config) (w : World) : list ref :=
  List.filter (fun r => Qle_bool (ECAN.minSTI c) (getSTI (heap w) r))
              (getAllAtoms w).

(** The STI held by the atoms of [l] altogether. *)
Definition total_sti (h : list Atom) (l : list ref) : Q :=
  foldr (fun r acc => getSTI h r + acc) 0 l.

(** A store with one concept node whose LTI is 1. *)
Definition lasting_node : World :=
  mkW [mkAtom CONCEPT_NODE (Some "cat"%string) [] default_TruthValue
              (mkAV (-5000) 1 false) []]
      [0%nat] {[ CONCEPT_NODE := [0%nat] ]} {[ "cat"%string := [0%nat] ]} ∅ []
      1%Z.

(** What [collectRent] credits to the pool for an atom whose STI is [x]
    without taking it from the atom: the part of the rent that the clamp
    at [minSTI] gives back. *)
Definition unpaid_rent (c : ECAN.Config) (x : Q) : Q :=
  Math_max (x - ECAN.rentAmount c) (ECAN.minSTI c) + ECAN.rentAmount c - x.

Definition unpaid_total (c : ECAN.Config) (h : list Atom) (l : list ref) : Q :=
  foldr (fun r acc => unpaid_rent c (getSTI h r) + acc) 0 l.

(** An integer of magnitude at most 2^50.  The sum and the difference of
    two such numbers are integers of magnitude at most 2^51, which double
    precision computes without rounding: on them the rationals of the
    embedding and the numbers of the code are the same. *)
Definition whole (x : Q) : Prop :=
  exists z : Z, x == inject_Z z /\ (Z.abs z <= 2 ^ 50)%Z.

(** The atom [a] after [setLTI(getLTI() + 1)]. *)
Definition consolidated (a : Atom) : Atom :=
  setAV (setLTI (lti (av a) + 1) (av a)) a.

(** ** PLN *)

Section InferenceVocabulary.
Import PLN.

(** The outcome of a rule body that produced no conclusion: it returned
    [null] or it threw. *)
Definition no_conclusion (o : Exn (option Result)) : Prop :=
  match o with
  | Ok (Some _) => False
  | _ => True
  end.

(** A rule whose body never concludes and never writes. *)
Definition inert (rule : Rule) : Prop :=
  forall cand w,
    snd (apply rule cand w) = w /\ no_conclusion (fst (apply rule cand w)).

End InferenceVocabulary.

(** The configuration of [new PLN(atomSpace)]. *)
Definition default_pln : PLN.Config := PLN.make_config PLN.no_options.

(** Scenario S1: concepts A, B, C (ids 0, 1, 2), [ImplicationLink(A,B)]
    with (0.9, 0.8) (id 3) and [ImplicationLink(B,C)] with (0.7, 0.6)
    (id 4). *)
Definition scenario_S1 : World :=
  let w := new_AtomSpace in
  let w := snd (addNode CONCEPT_NODE (Some "A"%string) None w) in
  let w := snd (addNode CONCEPT_NODE (Some "B"%string) None w) in
  let w := snd (addNode CONCEPT_NODE (Some "C"%string) None w) in
  let w := snd (addLink IMPLICATION_LINK [0; 1]%nat
                  (Some (new_TruthValue 0.9 0.8)) w) in
  snd (addLink IMPLICATION_LINK [1; 2]%nat (Some (new_TruthValue 0.7 0.6)) w).

(** The graph of S1 with the two implications inserted the other way
    round: [ImplicationLink(B,C)] is atom 3 and [ImplicationLink(A,B)] is
    atom 4. *)
Definition scenario_S1_reversed : World :=
  let w := new_AtomSpace in
  let w := snd (addNode CONCEPT_NODE (Some "A"%string) None w) in
  let w := snd (addNode CONCEPT_NODE (Some "B"%string) None w) in
  let w := snd (addNode CONCEPT_NODE (Some "C"%string) None w) in
  let w := snd (addLink IMPLICATION_LINK [1; 2]%nat
                  (Some (new_TruthValue 0.7 0.6)) w) in
  snd (addLink IMPLICATION_LINK [0; 1]%nat (Some (new_TruthValue 0.9 0.8)) w).

(** An accessor of [strength], as a class with a [getStrength] method would
    have it.  It is used for comparison only: the truth values of this
    repository have no such method. *)
Definition strength_accessor (t : TruthValue) : Exn Q := Ok (strength t).

(** The graph of S1 with confidences 0.05 and 0.1: the conclusion has
    confidence 0.00365, below [minConfidence = 0.01]. *)
Definition scenario_low_confidence : World :=
  let w := new_AtomSpace in
  let w := snd (addNode CONCEPT_NODE (Some "A"%string) None w) in
  let w := snd (addNode CONCEPT_NODE (Some "B"%string) None w) in
  let w := snd (addNode CONCEPT_NODE (Some "C"%string) None w) in
  let w := snd (addLink IMPLICATION_LINK [0; 1]%nat
                  (Some (new_TruthValue 0.9 0.05)) w) in
  snd (addLink IMPLICATION_LINK [1; 2]%nat (Some (new_TruthValue 0.7 0.1)) w).




(** ** CogServer *)

Section DeadlineVocabulary.
Import CogServer.

(** The plugin body does not settle within [SAFE_TIMEOUT]. *)
Definition settles_late (body : Settlement) : Prop :=
  match body with
  | Resolves d _ => (SAFE_TIMEOUT < d)%N
  | Rejects d _ => (SAFE_TIMEOUT < d)%N
  | Pending => True
  end.

(** A server with the plugin "pln" registered. *)
Definition one_plugin : t :=
  mkServer {[ "pln"%string := mkPlugin 0 None 0 ]} [] [] [] (mkStats 0 0 0).

(** A job of that plugin whose configured timeout is 60000 ms and which
    may be retried [retries] times. *)
Definition patient_job (retries : nat) : Job :=
  mkJob 1 "pln" (mkJobOptions 5 60000 retries) queued None None 0 None None.

End DeadlineVocabulary.

(** A queue in descending order of priority. *)
Fixpoint by_priority (l : list CogServer.Job) : Prop :=
  match l with
  | [] => True
  | j :: l' =>
      (forall k, k ∈ l' ->
         CogServer.priority (CogServer.options k)
         <= CogServer.priority (CogServer.options j))
      /\ by_priority l'
  end.

(** The record [failJob] leaves of a job that timed out, when its
    reading of the clock is [now]. *)
Definition timed_out_record (now : N) (job : CogServer.Job) : CogServer.Job :=
  CogServer.mkJob (CogServer.job_id job) (CogServer.pluginId job)
    (CogServer.options job) CogServer.failed (CogServer.startedAt job)
    (Some now) (CogServer.retryCount job) (CogServer.result job)
    (Some "Job timed out"%string).

(** The record [cancelJob] leaves of a job cancelled at time [now]. *)
Definition cancelled_record (now : N) (job : CogServer.Job) : CogServer.Job :=
  CogServer.mkJob (CogServer.job_id job) (CogServer.pluginId job)
    (CogServer.options job) CogServer.cancelled (CogServer.startedAt job)
    (Some now) (CogServer.retryCount job) (CogServer.result job)
    (CogServer.error job).

(** A server as [new CogServer(atomSpace)] makes it, its clock at 0. *)
Definition fresh_server : Scheduler.Server :=
  Scheduler.new_CogServer Scheduler.no_options (fun _ => 0%N).

(** ** Reachable graphs *)

(** The graphs built from [new AtomSpace()] by [addNode], [addLink],
    [removeAtom], the two operations on the focus, the operations of ECAN
    and the inference runs of PLN.  [addAtom] is in them as [addNode] and
    [addLink] call it, on the atom they have just made after their lookup
    found none; a caller's own [addAtom(atom)] is not among the operations. *)
Inductive reachable : World -> Prop :=
  | reach_new : reachable new_AtomSpace
  | reach_addNode ty nm t w :
      reachable w -> reachable (snd (addNode ty nm t w))
  | reach_addLink ty out t w :
      reachable w -> reachable (snd (addLink ty out t w))
  | reach_removeAtom id w :
      reachable w -> reachable (snd (removeAtom id w))
  | reach_addToAttentionalFocus id w :
      reachable w -> reachable (snd (addToAttentionalFocus id w))
  | reach_removeFromAttentionalFocus id w :
      reachable w -> reachable (removeFromAttentionalFocus id w)
  | reach_ecan op e w :
      reachable w -> reachable (fst (perform op (w, e)))
  | reach_pln c n w :
      reachable w ->
      reachable (snd (PLN.performInference TruthValue_getStrength c n w)).

(** A store with one concept node, in the focus, and a default engine. *)
Definition focused_node : ECAN.System :=
  (snd (addToAttentionalFocus 0 (fst one_node)), snd one_node).

(** * Properties *)

(** ** Numbers *)

Lemma Qltb_true (a b : Q) : Qltb a b = true <-> a < b.
Proof.
  unfold Qltb. rewrite negb_true_iff. split.
  - intros H. apply Qnot_le_lt. intros Hle.
    apply Qle_bool_iff in Hle. congruence.
  - intros H. destruct (Qle_bool b a) eqn:E; [|reflexivity].
    apply Qle_bool_iff in E. lra.
Qed.

Lemma Qltb_false (a b : Q) : Qltb a b = false <-> b <= a.
Proof.
  unfold Qltb. rewrite negb_false_iff. apply Qle_bool_iff.
Qed.

Lemma Qle_bool_false (a b : Q) : Qle_bool a b = false <-> b < a.
Proof.
  split.
  - intros H. apply Qnot_le_lt. intros Hle.
    apply Qle_bool_iff in Hle. congruence.
  - intros H. destruct (Qle_bool a b) eqn:E; [|reflexivity].
    apply Qle_bool_iff in E. lra.
Qed.

Lemma Math_min_cases (a b : Q) :
  (a <= b /\ Math_min a b = a) \/ (b < a /\ Math_min a b = b).
Proof.
  unfold Math_min. destruct (Qle_bool a b) eqn:E.
  - left. split; [by apply Qle_bool_iff | reflexivity].
  - right. split; [by apply Qle_bool_false | reflexivity].
Qed.

Lemma Math_max_cases (a b : Q) :
  (a <= b /\ Math_max a b = b) \/ (b < a /\ Math_max a b = a).
Proof.
  unfold Math_max. destruct (Qle_bool a b) eqn:E.
  - left. split; [by apply Qle_bool_iff | reflexivity].
  - right. split; [by apply Qle_bool_false | reflexivity].
Qed.

(** ** The heap *)

Lemma heap_setSTI_length r v (h : list Atom) :
  length (heap_setSTI r v h) = length h.
Proof. unfold heap_setSTI, heap_alter. apply length_alter. Qed.

Lemma getSTI_heap_setSTI_eq r v (h : list Atom) :
  (r < length h)%nat -> getSTI (heap_setSTI r v h) r = v.
Proof.
  intros Hr. unfold getSTI, heap_setSTI, heap_alter.
  destruct (lookup_lt_is_Some_2 h r Hr) as [a Ha].
  rewrite list_lookup_alter_eq, Ha. reflexivity.
Qed.

Lemma getSTI_heap_setSTI_ne r r' v (h : list Atom) :
  r <> r' -> getSTI (heap_setSTI r v h) r' = getSTI h r'.
Proof.
  intros Hne. unfold getSTI, heap_setSTI, heap_alter.
  rewrite list_lookup_alter_ne by done. reflexivity.
Qed.

Lemma getSTI_unallocated r (h : list Atom) :
  (length h <= r)%nat -> getSTI h r = 0.
Proof.
  intros Hr. unfold getSTI. rewrite lookup_ge_None_2 by done. reflexivity.
Qed.

(** ** The decay phase *)

Section Decay.
Import ECAN.
Variable c : Config.

Lemma getSTI_ext (h h' : list Atom) r :
  h' !! r = h !! r -> getSTI h' r = getSTI h r.
Proof. unfold getSTI. intros ->. reflexivity. Qed.

Lemma decay_total_ext (h h' : list Atom) (l : list ref) :
  (forall r, r ∈ l -> getSTI h' r = getSTI h r) ->
  decay_total c h' l = decay_total c h l.
Proof.
  induction l as [|x l IH]; intros Hext; simpl; [reflexivity|].
  rewrite Hext by apply list_elem_of_here.
  rewrite IH; [reflexivity|].
  intros r Hr. apply Hext. by apply list_elem_of_further.
Qed.

Lemma decay_step_spec (h : list Atom) (pool : Q) (x : ref) :
  length (fst (decay_step c (h, pool) x)) = length h
  /\ (forall r, r <> x -> fst (decay_step c (h, pool) x) !! r = h !! r)
  /\ getSTI (fst (decay_step c (h, pool) x)) x = decayed_sti c (getSTI h x)
  /\ snd (decay_step c (h, pool) x) == pool + decay_of c (getSTI h x).
Proof.
  unfold decay_step, decayed_sti, decay_of.
  destruct (Qltb 0 (getSTI h x)) eqn:E; simpl.
  - split; [|split; [|split]].
    + apply heap_setSTI_length.
    + intros r Hr. unfold heap_setSTI, heap_alter.
      by apply list_lookup_alter_ne.
    + apply getSTI_heap_setSTI_eq.
      destruct (decide (x < length h)%nat) as [Hlt|Hge]; [done|].
      rewrite getSTI_unallocated in E by lia. discriminate.
    + reflexivity.
  - split; [|split; [|split]]; try reflexivity. lra.
Qed.

Lemma decay_fold_spec (l : list ref) :
  forall (h : list Atom) (pool : Q),
  NoDup l ->
  length (fst (foldl (decay_step c) (h, pool) l)) = length h
  /\ (forall r, r ∉ l -> fst (foldl (decay_step c) (h, pool) l) !! r = h !! r)
  /\ (forall r, r ∈ l ->
        getSTI (fst (foldl (decay_step c) (h, pool) l)) r
        = decayed_sti c (getSTI h r))
  /\ snd (foldl (decay_step c) (h, pool) l) == pool + decay_total c h l.
Proof.
  induction l as [|x l IH]; intros h pool Hnd; cbn [foldl].
  - cbn [fst snd decay_total foldr]. split; [|split; [|split]]; try reflexivity.
    + intros r Hr. by apply elem_of_nil in Hr.
    + lra.
  - apply NoDup_cons in Hnd as [Hx Hnd].
    destruct (decay_step_spec h pool x) as (Hlen & Hother & Hself & Hpool).
    destruct (decay_step c (h, pool) x) as [h1 pool1]; cbn [fst snd] in *.
    destruct (IH h1 pool1 Hnd) as (Hlen' & Hout & Hin & Hpool').
    split; [|split; [|split]].
    + congruence.
    + intros r Hr. apply not_elem_of_cons in Hr as [Hrx Hrl].
      rewrite Hout by done. by apply Hother.
    + intros r Hr. apply elem_of_cons in Hr as [->|Hr].
      * rewrite (getSTI_ext h1 _ x) by (by apply Hout). exact Hself.
      * rewrite Hin by done. f_equal. apply getSTI_ext, Hother.
        intros ->. contradiction.
    + rewrite Hpool', Hpool. cbn [decay_total foldr].
      fold (decay_total c h l). fold (decay_total c h1 l).
      rewrite (decay_total_ext h h1 l).
      * lra.
      * intros r Hr. apply getSTI_ext, Hother. intros ->. contradiction.
Qed.

End Decay.

Arguments ECAN.decay_step : simpl never.
Arguments ECAN.rent_step : simpl never.
Arguments ECAN.spread_step : simpl never.

(** C9, counterexample.  With STI 50 and decayRate 0.01 the decay phase
    leaves 49.5, whereas a decrement rounded toward zero (0.5 rounds to 0)
    would leave 50. *)
Lemma decay_is_not_rounded :
  getSTI (heap (fst decay_example)) 0 = 50
  /\ getSTI (heap (fst (ECAN.applySTIDecay decay_example))) 0 == 49.5
  /\ spec_decayed_sti (ECAN.config (snd decay_example)) 50 == 50
  /\ ~ (getSTI (heap (fst (ECAN.applySTIDecay decay_example))) 0
        == spec_decayed_sti (ECAN.config (snd decay_example))
             (getSTI (heap (fst decay_example)) 0)).
Proof.
  split; [|split; [|split]].
  - vm_compute. reflexivity.
  - vm_compute. reflexivity.
  - vm_compute. reflexivity.
  - intros H. vm_compute in H. discriminate H.
Qed.

(** C9, as amended.  In the decay phase every atom of the graph with
    [STI > 0] has its STI set to [max(STI - STI * decayRate, 0)], the
    product not being rounded (so the STI is reduced by exactly
    [STI * decayRate] whenever [decayRate <= 1]); the unrounded products are
    added to the STI pool; atoms with [STI <= 0] keep their STI. *)
Theorem applySTIDecay_exact (w : World) (e : ECAN.t) :
  NoDup (atoms w) ->
  (forall r, r ∈ atoms w -> 0 < getSTI (heap w) r ->
     getSTI (heap (fst (ECAN.applySTIDecay (w, e)))) r
     = Math_max (getSTI (heap w) r
                 - getSTI (heap w) r * ECAN.decayRate (ECAN.config e)) 0
     /\ (ECAN.decayRate (ECAN.config e) <= 1 ->
         getSTI (heap (fst (ECAN.applySTIDecay (w, e)))) r
         == getSTI (heap w) r
            - getSTI (heap w) r * ECAN.decayRate (ECAN.config e)))
  /\ (forall r, r ∈ atoms w -> getSTI (heap w) r <= 0 ->
        getSTI (heap (fst (ECAN.applySTIDecay (w, e)))) r = getSTI (heap w) r)
  /\ ECAN.currentSTIPool (snd (ECAN.applySTIDecay (w, e)))
     == ECAN.currentSTIPool e
        + decay_total (ECAN.config e) (heap w) (atoms w).
Proof.
  intros Hnd. unfold ECAN.applySTIDecay, getAllAtoms.
  destruct (decay_fold_spec (ECAN.config e) (atoms w) (heap w)
              (ECAN.currentSTIPool e) Hnd) as (_ & _ & Hin & Hpool).
  destruct (foldl _ _ _) as [h' pool']; cbn [fst snd] in *.
  cbn [heap with_heap ECAN.currentSTIPool ECAN.with_pool].
  split; [|split].
  - intros r Hr Hpos. rewrite (Hin r Hr). unfold decayed_sti.
    replace (Qltb 0 (getSTI (heap w) r)) with true
      by (symmetry; by apply Qltb_true).
    split; [reflexivity|]. intros Hrate.
    destruct (Math_max_cases
                (getSTI (heap w) r
                 - getSTI (heap w) r * ECAN.decayRate (ECAN.config e)) 0)
      as [[Hle ->]|[_ ->]]; [|reflexivity].
    assert (0 <= getSTI (heap w) r * (1 - ECAN.decayRate (ECAN.config e))).
    { apply Qmult_le_0_compat; lra. }
    lra.
  - intros r Hr Hneg. rewrite (Hin r Hr). unfold decayed_sti.
    replace (Qltb 0 (getSTI (heap w) r)) with false
      by (symmetry; by apply Qltb_false).
    reflexivity.
  - exact Hpool.
Qed.

Lemma applySTIDecay_exact_witness :
  NoDup (atoms (fst decay_example))
  /\ ECAN.currentSTIPool (snd (ECAN.applySTIDecay decay_example))
     == ECAN.currentSTIPool (snd decay_example)
        + decay_total (ECAN.config (snd decay_example))
            (heap (fst decay_example)) (atoms (fst decay_example)).
Proof.
  assert (Hnd : NoDup (atoms (fst decay_example))).
  { vm_compute. apply NoDup_singleton. }
  split; [exact Hnd|].
  exact (proj2 (proj2 (applySTIDecay_exact (fst decay_example)
                         (snd decay_example) Hnd))).
Defined.

(** ** Frame properties of the graph store *)

Lemma elem_of_Set_delete (x y : ref) (s : list ref) :
  y ∈ Set_delete x s <-> y ∈ s /\ y <> x.
Proof. unfold Set_delete. rewrite list_elem_of_filter. tauto. Qed.

Lemma elem_of_Set_add (x y : ref) (s : list ref) :
  y ∈ Set_add x s <-> y ∈ s \/ y = x.
Proof.
  unfold Set_add. destruct (decide (x ∈ s)) as [Hin|Hout].
  - split; [by left|]. intros [H| ->]; done.
  - rewrite elem_of_app, list_elem_of_singleton. tauto.
Qed.

Lemma Set_add_length (x : ref) (s : list ref) (n : nat) :
  (length s <= n)%nat -> (length (Set_add x s) <= S n)%nat.
Proof.
  intros H. unfold Set_add. destruct (decide (x ∈ s)); [lia|].
  rewrite length_app. simpl. lia.
Qed.

Lemma Set_delete_length (x : ref) (s : list ref) :
  (length (Set_delete x s) <= length s)%nat.
Proof. unfold Set_delete. apply length_filter. Qed.

Lemma NoDup_Set_delete (x : ref) (s : list ref) :
  NoDup s -> NoDup (Set_delete x s).
Proof. unfold Set_delete. apply NoDup_filter. Qed.

Lemma NoDup_Set_add (x : ref) (s : list ref) :
  NoDup s -> NoDup (Set_add x s).
Proof.
  intros H. unfold Set_add. destruct (decide (x ∈ s)); [done|].
  apply NoDup_app. split; [done|]. split.
  - intros y Hy Hx. apply list_elem_of_singleton in Hx. by subst.
  - apply NoDup_singleton.
Qed.

(** A method that leaves the attention value alone leaves every STI alone. *)
Lemma getSTI_heap_alter (f : Atom -> Atom) (r r' : ref) (h : list Atom) :
  (forall a, av (f a) = av a) ->
  getSTI (heap_alter f r h) r' = getSTI h r'.
Proof.
  intros Hf. unfold getSTI, heap_alter.
  destruct (decide (r = r')) as [->|Hne].
  - rewrite list_lookup_alter_eq. destruct (h !! r'); simpl; [|done].
    by rewrite Hf.
  - by rewrite list_lookup_alter_ne.
Qed.

(** A new object has STI 0, which is also what an unallocated reference
    reads as. *)
Lemma getSTI_alloc (h : list Atom) (a : Atom) (r : ref) :
  sti (av a) = 0 -> getSTI (h ++ [a]) r = getSTI h r.
Proof.
  intros Ha. unfold getSTI.
  destruct (decide (r < length h)%nat) as [Hlt|Hge].
  - by rewrite lookup_app_l.
  - rewrite (lookup_ge_None_2 h r) by lia.
    rewrite lookup_app_r by lia.
    destruct (r - length h)%nat; simpl; done.
Qed.

Lemma foldl_wire_incoming_frame (id : ref) (l : list ref) (w : World) :
  atoms (foldl (wire_incoming id) w l) = atoms w
  /\ attentionalFocus (foldl (wire_incoming id) w l) = attentionalFocus w
  /\ size (foldl (wire_incoming id) w l) = size w
  /\ typeIndex (foldl (wire_incoming id) w l) = typeIndex w
  /\ nameIndex (foldl (wire_incoming id) w l) = nameIndex w
  /\ length (heap (foldl (wire_incoming id) w l)) = length (heap w)
  /\ forall r, getSTI (heap (foldl (wire_incoming id) w l)) r
               = getSTI (heap w) r.
Proof.
  revert w. induction l as [|o l IH]; intros w; simpl; [done|].
  destruct (IH (wire_incoming id w o)) as (-> & -> & -> & -> & -> & -> & H).
  repeat split; try done.
  - simpl. unfold heap_alter. apply length_alter.
  - intros r. rewrite H. simpl. by apply getSTI_heap_alter.
Qed.

Lemma foldl_unwire_incoming_frame (id : ref) (l : list ref) (w : World) :
  atoms (foldl (unwire_incoming id) w l) = atoms w
  /\ attentionalFocus (foldl (unwire_incoming id) w l) = attentionalFocus w
  /\ size (foldl (unwire_incoming id) w l) = size w
  /\ length (heap (foldl (unwire_incoming id) w l)) = length (heap w)
  /\ forall r, getSTI (heap (foldl (unwire_incoming id) w l)) r
               = getSTI (heap w) r.
Proof.
  revert w. induction l as [|o l IH]; intros w; simpl; [done|].
  destruct (IH (unwire_incoming id w o)) as (-> & -> & -> & -> & H).
  repeat split; try done.
  - simpl. unfold heap_alter. apply length_alter.
  - intros r. rewrite H. simpl. by apply getSTI_heap_alter.
Qed.

Lemma foldl_drop_incoming_reference_frame (id : ref) (live l : list ref)
    (h : list Atom) :
  length (foldl (drop_incoming_reference id live) h l) = length h
  /\ forall r, getSTI (foldl (drop_incoming_reference id live) h l) r
               = getSTI h r.
Proof.
  revert h. induction l as [|i l IH]; intros h; simpl; [done|].
  destruct (IH (drop_incoming_reference id live h i)) as (-> & H).
  split.
  - unfold drop_incoming_reference.
    destruct (bool_decide (i ∈ live)); [|done].
    unfold heap_alter. apply length_alter.
  - intros r. rewrite H. unfold drop_incoming_reference.
    destruct (bool_decide (i ∈ live)); [|done].
    by apply getSTI_heap_alter.
Qed.

(** [removeAtom] never changes an STI, only shrinks the key set and the
    focus, and takes the removed id out of both. *)
Lemma removeAtom_frame (id : ref) (w : World) :
  (forall r, getSTI (heap (snd (removeAtom id w))) r = getSTI (heap w) r)
  /\ length (heap (snd (removeAtom id w))) = length (heap w)
  /\ ((fst (removeAtom id w) = false /\ snd (removeAtom id w) = w)
      \/ (fst (removeAtom id w) = true
          /\ atoms (snd (removeAtom id w)) = Set_delete id (atoms w)
          /\ attentionalFocus (snd (removeAtom id w))
             = Set_delete id (attentionalFocus w)
          /\ size (snd (removeAtom id w)) = (size w - 1)%Z)).
Proof.
  unfold removeAtom. destruct (getAtom id w) as [a|]; simpl; [|by auto].
  set (w1 := mkW _ _ _ _ _ _ _).
  destruct (foldl_unwire_incoming_frame id (outgoing a) w1)
    as (Hat & Hfo & Hsz & Hlen & Hsti).
  set (w2 := foldl (unwire_incoming id) w1 (outgoing a)) in *.
  destruct (incomingIndex w2 !! id) as [s|]; simpl.
  - destruct (foldl_drop_incoming_reference_frame id (atoms w2) s (heap w2))
      as (Hlen' & Hsti').
    split; [|split].
    + intros r. by rewrite Hsti', Hsti.
    + by rewrite Hlen', Hlen.
    + right. rewrite Hat, Hfo, Hsz. done.
  - split; [|split].
    + intros r. by rewrite Hsti.
    + by rewrite Hlen.
    + right. rewrite Hat, Hfo, Hsz. done.
Qed.

(** ** STI bounds *)

Section Bounds.
Import ECAN.
Variable c : Config.

Lemma sti_kept_refl (h : list Atom) : sti_kept c h h.
Proof. by intros r. Qed.

Lemma sti_kept_trans (h1 h2 h3 : list Atom) :
  sti_kept c h1 h2 -> sti_kept c h2 h3 -> sti_kept c h1 h3.
Proof. intros H12 H23 r Hr. by apply H23, H12. Qed.

Lemma sti_kept_same (h h' : list Atom) :
  (forall r, getSTI h' r = getSTI h r) -> sti_kept c h h'.
Proof. intros H r Hr. by rewrite H. Qed.

Lemma heap_setSTI_kept (h : list Atom) (r : ref) (v : Q) :
  (in_bounds c (getSTI h r) -> in_bounds c v) ->
  sti_kept c h (heap_setSTI r v h).
Proof.
  intros Hv r' Hr'. destruct (decide (r = r')) as [->|Hne].
  - destruct (decide (r' < length h)%nat) as [Hlt|Hge].
    + rewrite getSTI_heap_setSTI_eq by done. by apply Hv.
    + rewrite getSTI_unallocated by (rewrite heap_setSTI_length; lia).
      rewrite getSTI_unallocated in Hr' by lia. done.
  - by rewrite getSTI_heap_setSTI_ne.
Qed.

Hypothesis Hsane : sane_config c.

Lemma rent_fold_kept (l : list ref) (h : list Atom) (pool : Q) :
  sti_kept c h (fst (foldl (rent_step c) (h, pool) l)).
Proof.
  revert h pool. induction l as [|x l IH]; intros h pool; cbn [foldl].
  - apply sti_kept_refl.
  - unfold rent_step at 2.
    eapply sti_kept_trans; [|apply IH].
    apply heap_setSTI_kept. intros [Hlo Hhi]. destruct Hsane.
    destruct (Math_max_cases (getSTI h x - rentAmount c) (minSTI c))
      as [[_ ->]|[Hlt ->]]; split; lra.
Qed.

Lemma decay_fold_kept (l : list ref) (h : list Atom) (pool : Q) :
  sti_kept c h (fst (foldl (decay_step c) (h, pool) l)).
Proof.
  revert h pool. induction l as [|x l IH]; intros h pool; cbn [foldl].
  - apply sti_kept_refl.
  - unfold decay_step at 2.
    destruct (Qltb 0 (getSTI h x)) eqn:E; [|apply IH].
    apply Qltb_true in E.
    eapply sti_kept_trans; [|apply IH].
    apply heap_setSTI_kept. intros [Hlo Hhi]. destruct Hsane.
    assert (0 <= getSTI h x * decayRate c) by (apply Qmult_le_0_compat; lra).
    destruct (Math_max_cases (getSTI h x - getSTI h x * decayRate c) 0)
      as [[_ ->]|[Hlt ->]]; split; lra.
Qed.

Lemma spread_step_kept (amt : Q) (h : list Atom) (e : t) (tot : Q) (x : ref) :
  0 <= amt ->
  config e = c ->
  sti_kept c h (fst (fst (spread_step amt (h, e, tot) x)))
  /\ config (snd (fst (spread_step amt (h, e, tot) x))) = c
  /\ tot <= snd (spread_step amt (h, e, tot) x)
  /\ snd (spread_step amt (h, e, tot) x) <= tot + amt.
Proof.
  intros Hamt Hc. unfold spread_step, Math_random.
  destruct (Qltb (random e (drawn e)) (spreadProbability (config e)));
    cbn [fst snd config].
  - split; [|split; [done|split; lra]].
    apply heap_setSTI_kept. intros [Hlo' Hhi']. rewrite Hc.
    destruct Hsane.
    destruct (Math_min_cases (getSTI h x + amt) (maxSTI c))
      as [[Hle ->]|[Hlt ->]]; split; lra.
  - split; [apply sti_kept_refl|split; [done|split; lra]].
Qed.

Lemma spread_fold_kept (amt : Q) (l : list ref) :
  0 <= amt ->
  forall (h : list Atom) (e : t) (tot : Q),
  config e = c ->
  sti_kept c h (fst (fst (foldl (spread_step amt) (h, e, tot) l)))
  /\ config (snd (fst (foldl (spread_step amt) (h, e, tot) l))) = c
  /\ tot <= snd (foldl (spread_step amt) (h, e, tot) l)
  /\ snd (foldl (spread_step amt) (h, e, tot) l)
     <= tot + inject_Z (Z.of_nat (length l)) * amt.
Proof.
  intros Hamt. induction l as [|x l IH]; intros h e tot Hc; cbn [foldl].
  - cbn [fst snd length]. split; [apply sti_kept_refl|].
    split; [done|]. split; [lra|]. change (inject_Z (Z.of_nat 0)) with 0. lra.
  - assert (Hlen : inject_Z (Z.of_nat (length (x :: l)))
                   == inject_Z (Z.of_nat (length l)) + 1).
    { cbn [length]. rewrite Nat2Z.inj_succ, <- Z.add_1_r, inject_Z_plus.
      reflexivity. }
    destruct (spread_step_kept amt h e tot x Hamt Hc)
      as (Hk1 & Hc1 & Hlo1 & Hhi1).
    destruct (spread_step amt (h, e, tot) x) as [[h1 e1] t1];
      cbn [fst snd] in *.
    destruct (IH h1 e1 t1 Hc1) as (Hk & Hcfg & Hlo & Hhi).
    split; [by eapply sti_kept_trans|].
    split; [done|]. split; [lra|]. rewrite Hlen. lra.
Qed.

Lemma heap_setSTI_kept_from (h0 h : list Atom) (r : ref) (v : Q) :
  sti_kept c h0 h ->
  (in_bounds c (getSTI h0 r) -> in_bounds c v) ->
  sti_kept c h0 (heap_setSTI r v h).
Proof.
  intros Hk Hv r' Hr'. destruct (decide (r = r')) as [->|Hne].
  - destruct (decide (r' < length h)%nat) as [Hlt|Hge].
    + rewrite getSTI_heap_setSTI_eq by done. by apply Hv.
    + rewrite getSTI_unallocated by (rewrite heap_setSTI_length; lia).
      rewrite <- (getSTI_unallocated r' h) by lia. by apply Hk.
  - rewrite getSTI_heap_setSTI_ne by done. by apply Hk.
Qed.

Lemma share_times_count (S : Q) (n : nat) :
  inject_Z (Z.of_nat (Datatypes.S n))
  * (S / inject_Z (Z.of_nat (Datatypes.S n))) == S.
Proof.
  field. intros H.
  assert (Hpos : 0 < inject_Z (Z.of_nat (Datatypes.S n))).
  { change 0 with (inject_Z 0). rewrite <- Zlt_Qlt. lia. }
  lra.
Qed.

Lemma share_nonneg (S : Q) (n : nat) :
  0 <= S -> 0 <= S / inject_Z (Z.of_nat (Datatypes.S n)).
Proof.
  intros HS. unfold Qdiv. apply Qmult_le_0_compat; [done|].
  apply Qinv_le_0_compat. change 0 with (inject_Z 0).
  rewrite <- Zle_Qle. lia.
Qed.

(** [spreadFromAtom] changes nothing of the store but STIs, and keeps them
    within the bounds. *)
Lemma spreadFromAtom_kept (r : ref) (w : World) (e : t) :
  config e = c ->
  sti_kept c (heap w) (heap (fst (snd (spreadFromAtom r (w, e)))))
  /\ config (snd (snd (spreadFromAtom r (w, e)))) = c
  /\ atoms (fst (snd (spreadFromAtom r (w, e)))) = atoms w
  /\ attentionalFocus (fst (snd (spreadFromAtom r (w, e))))
     = attentionalFocus w.
Proof.
  intros Hc. unfold spreadFromAtom.
  destruct (Qltb (getSTI (heap w) r * diffusionRate (config e)) 1) eqn:E.
  { cbn [fst snd]. split; [apply sti_kept_refl|done]. }
  apply Qltb_false in E. rewrite Hc in E |- *.
  destruct (connectedAtoms r w) as [|x l] eqn:Econ.
  { cbn [fst snd]. split; [apply sti_kept_refl|done]. }
  set (S := getSTI (heap w) r * diffusionRate c) in *.
  set (amt := S / inject_Z (Z.of_nat (length (x :: l)))).
  assert (Hamt : 0 <= amt).
  { unfold amt. cbn [length]. apply share_nonneg. lra. }
  destruct (spread_fold_kept amt (x :: l) Hamt (heap w) e 0 Hc)
    as (Hk & Hcfg & Hlo & Hhi).
  destruct (foldl (spread_step amt) (heap w, e, 0) (x :: l))
    as [[h1 e1] tot]; cbn [fst snd] in *.
  cbn [heap atoms attentionalFocus with_heap].
  split; [|done].
  apply heap_setSTI_kept_from; [done|].
  intros [Hmin Hmax].
  assert (Htot : tot <= S).
  { unfold amt in Hhi. cbn [length] in Hhi.
    rewrite share_times_count in Hhi. lra. }
  destruct Hsane.
  assert (Hcur : 0 <= getSTI (heap w) r).
  { destruct (Qlt_le_dec (getSTI (heap w) r) 0) as [Hneg|Hpos]; [|done].
    assert (0 <= (- getSTI (heap w) r) * diffusionRate c)
      by (apply Qmult_le_0_compat; lra).
    unfold S in E. lra. }
  assert (0 <= getSTI (heap w) r * (1 - diffusionRate c))
    by (apply Qmult_le_0_compat; lra).
  unfold S in Htot. split; lra.
Qed.

End Bounds.

(** ** What the cycle phases leave alone *)

Section Frames.
Import ECAN.

Lemma store_same_refl (s : System) : store_same s s.
Proof. done. Qed.

Lemma store_same_trans (s1 s2 s3 : System) :
  store_same s1 s2 -> store_same s2 s3 -> store_same s1 s3.
Proof.
  intros (Ha & Hf & Hc) (Ha' & Hf' & Hc'). unfold store_same.
  rewrite Ha', Hf', Hc'. done.
Qed.

Lemma begin_cycle_frame (s : System) :
  fst (begin_cycle s) = fst s /\ config (snd (begin_cycle s)) = config (snd s).
Proof. destruct s as [w e]. done. Qed.

Lemma collectRent_frame (s : System) : store_same s (collectRent s).
Proof.
  destruct s as [w e]. unfold collectRent.
  destruct (foldl _ _ _) as [h pool]. done.
Qed.

Lemma applySTIDecay_frame (s : System) : store_same s (applySTIDecay s).
Proof.
  destruct s as [w e]. unfold applySTIDecay.
  destruct (foldl _ _ _) as [h pool]. done.
Qed.

Lemma spread_fold_config (amt : Q) (l : list ref) (h : list Atom) (e : t)
    (tot : Q) :
  config (snd (fst (foldl (spread_step amt) (h, e, tot) l))) = config e.
Proof.
  revert h e tot. induction l as [|x l IH]; intros h e tot; cbn [foldl]; [done|].
  destruct (spread_step amt (h, e, tot) x) as [[h1 e1] t1] eqn:E.
  rewrite IH. unfold spread_step, Math_random in E.
  destruct (Qltb _ _); by inversion E.
Qed.

Lemma spreadFromAtom_frame (r : ref) (s : System) :
  store_same s (snd (spreadFromAtom r s)).
Proof.
  destruct s as [w e]. unfold spreadFromAtom.
  destruct (Qltb _ 1); [done|].
  destruct (connectedAtoms r w) as [|x l]; [done|].
  pose proof (spread_fold_config
                (getSTI (heap w) r * diffusionRate (config e)
                 / inject_Z (Z.of_nat (length (x :: l))))
                (x :: l) (heap w) e 0) as Hcfg.
  destruct (foldl _ _ _) as [[h1 e1] tot]. done.
Qed.

Lemma spreadImportance_fold_frame (l : list ref) (acc : Q * System) :
  store_same (snd acc) (snd (foldl spreadImportance_step acc l)).
Proof.
  revert acc. induction l as [|x l IH]; intros acc; cbn [foldl]; [done|].
  eapply store_same_trans; [|apply IH].
  destruct acc as [tot s]. unfold spreadImportance_step.
  destruct (Qltb _ _); [|done].
  pose proof (spreadFromAtom_frame x s) as H.
  destruct (spreadFromAtom x s) as [d s']. done.
Qed.

Lemma spreadImportance_frame (s : System) : store_same s (spreadImportance s).
Proof.
  unfold spreadImportance.
  pose proof (spreadImportance_fold_frame (getAttentionalFocus (fst s)) (0, s))
    as H.
  destruct (foldl _ _ _) as [tot [w e]]. done.
Qed.

Lemma updateStatistics_frame (s : System) :
  fst (updateStatistics s) = fst s
  /\ config (snd (updateStatistics s)) = config (snd s).
Proof. destruct s as [w e]. done. Qed.

End Frames.

(** ** The focus update and the forgetting phase *)

Section Focus.
Import ECAN.

Lemma elem_of_insert_by_sti (h : list Atom) (x y : ref) (l : list ref) :
  y ∈ insert_by_sti h x l <-> y = x \/ y ∈ l.
Proof.
  induction l as [|z l IH]; simpl.
  - rewrite list_elem_of_singleton. split; [by left|].
    intros [H|H]; [done|]. by apply elem_of_nil in H.
  - destruct (Qle_bool (getSTI h z) (getSTI h x)).
    + by rewrite elem_of_cons.
    + rewrite !elem_of_cons, IH. tauto.
Qed.

Lemma elem_of_sort_by_sti_desc (h : list Atom) (y : ref) (l : list ref) :
  y ∈ sort_by_sti_desc h l <-> y ∈ l.
Proof.
  unfold sort_by_sti_desc. induction l as [|x l IH]; simpl; [done|].
  by rewrite elem_of_insert_by_sti, elem_of_cons, IH.
Qed.

Lemma elem_of_live_only (w : World) (s : list ref) (x : ref) :
  x ∈ live_only w s <-> x ∈ s /\ x ∈ atoms w.
Proof.
  unfold live_only, hasAtom.
  rewrite list_elem_of_In, filter_In, <- list_elem_of_In, bool_decide_eq_true.
  tauto.
Qed.

(** Clearing: [currentAF.forEach(atom => removeFromAttentionalFocus(atom.id))]. *)
Lemma clear_focus_spec (l : list ref) (w : World) :
  heap (foldl (fun w r => removeFromAttentionalFocus r w) w l) = heap w
  /\ atoms (foldl (fun w r => removeFromAttentionalFocus r w) w l) = atoms w
  /\ forall x,
       x ∈ attentionalFocus (foldl (fun w r => removeFromAttentionalFocus r w) w l)
       <-> x ∈ attentionalFocus w /\ x ∉ l.
Proof.
  revert w. induction l as [|r l IH]; intros w; cbn [foldl].
  - split; [done|]. split; [done|]. intros x. rewrite elem_of_nil. tauto.
  - destruct (IH (removeFromAttentionalFocus r w)) as (-> & -> & H).
    split; [done|]. split; [done|]. intros x. rewrite H.
    cbn [removeFromAttentionalFocus attentionalFocus with_focus].
    rewrite elem_of_Set_delete, not_elem_of_cons. tauto.
Qed.

(** Filling: [sortedAtoms.forEach(atom => addToAttentionalFocus(atom.id))]. *)
Lemma fill_focus_spec (l : list ref) (w : World) :
  heap (foldl (fun w r => snd (addToAttentionalFocus r w)) w l) = heap w
  /\ atoms (foldl (fun w r => snd (addToAttentionalFocus r w)) w l) = atoms w
  /\ (forall x,
        x ∈ attentionalFocus
              (foldl (fun w r => snd (addToAttentionalFocus r w)) w l) ->
        x ∈ attentionalFocus w \/ x ∈ l)
  /\ (length (attentionalFocus
                (foldl (fun w r => snd (addToAttentionalFocus r w)) w l))
      <= length (attentionalFocus w) + length l)%nat.
Proof.
  revert w. induction l as [|r l IH]; intros w; cbn [foldl].
  - split; [done|]. split; [done|]. split; [by left|]. simpl. lia.
  - destruct (IH (snd (addToAttentionalFocus r w))) as (-> & -> & Hin & Hlen).
    unfold addToAttentionalFocus in *.
    destruct (hasAtom r w); cbn [snd heap atoms attentionalFocus with_focus] in *.
    + split; [done|]. split; [done|]. split.
      * intros x Hx. destruct (Hin x Hx) as [H|H].
        -- apply elem_of_Set_add in H as [H| ->]; [by left|].
           right. apply list_elem_of_here.
        -- right. by apply list_elem_of_further.
      * pose proof (Set_add_length r (attentionalFocus w) _ (le_n _)).
        simpl. lia.
    + split; [done|]. split; [done|]. split.
      * intros x Hx. destruct (Hin x Hx) as [H|H]; [by left|].
        right. by apply list_elem_of_further.
      * simpl. lia.
Qed.

(** After the focus update the focus holds at most [maxAF] ids, all of them
    keys of the graph with [STI >= minSTI]; the phase writes nothing else. *)
Lemma updateAttentionalFocus_spec (w : World) (e : t) :
  (forall x, x ∈ attentionalFocus w -> x ∈ atoms w) ->
  heap (fst (updateAttentionalFocus (w, e))) = heap w
  /\ atoms (fst (updateAttentionalFocus (w, e))) = atoms w
  /\ snd (updateAttentionalFocus (w, e)) = e
  /\ (length (attentionalFocus (fst (updateAttentionalFocus (w, e))))
      <= maxAF (config e))%nat
  /\ forall x, x ∈ attentionalFocus (fst (updateAttentionalFocus (w, e))) ->
       x ∈ atoms w /\ minSTI (config e) <= getSTI (heap w) x.
Proof.
  intros Hlive. unfold updateAttentionalFocus. cbn [fst snd].
  destruct (clear_focus_spec (getAttentionalFocus w) w) as (Hh & Ha & Hf).
  set (w1 := foldl (fun w r => removeFromAttentionalFocus r w) w
                   (getAttentionalFocus w)) in *.
  assert (Hempty : attentionalFocus w1 = []).
  { destruct (attentionalFocus w1) as [|x f] eqn:E; [done|].
    assert (Hx : x ∈ x :: f) by apply list_elem_of_here.
    apply Hf in Hx as [Hx Hnot]. exfalso. apply Hnot.
    unfold getAttentionalFocus. apply elem_of_live_only. auto. }
  match goal with
  | |- context [foldl _ w1 ?l] =>
      destruct (fill_focus_spec l w1) as (Hh' & Ha' & Hin & Hlen);
      set (sorted := l) in *
  end.
  rewrite Hh', Ha', Hh, Ha. split; [done|]. split; [done|]. split; [done|].
  split.
  - rewrite Hempty in Hlen. simpl in Hlen.
    assert (length sorted <= maxAF (config e))%nat.
    { unfold sorted. rewrite length_take. lia. }
    lia.
  - intros x Hx. apply Hin in Hx. rewrite Hempty in Hx.
    destruct Hx as [Hx|Hx]; [by apply elem_of_nil in Hx|].
    unfold sorted in Hx. apply elem_of_take in Hx as (i & Hx & _).
    apply list_elem_of_lookup_2 in Hx.
    apply elem_of_sort_by_sti_desc in Hx.
    apply list_elem_of_In, filter_In in Hx as [Hx Hsti].
    apply list_elem_of_In in Hx. apply Qle_bool_iff in Hsti.
    unfold getAllAtoms in Hx. rewrite Ha in Hx. rewrite Hh in Hsti. done.
Qed.

Lemma removeAtom_focus_ok (c : Config) (id : ref) (w : World) :
  focus_ok c w -> focus_ok c (snd (removeAtom id w)).
Proof.
  intros [Hlen Hin].
  destruct (removeAtom_frame id w) as (Hsti & _ & [[_ ->]|(_ & Ha & Hf & _)]).
  { done. }
  split.
  - rewrite Hf. pose proof (Set_delete_length id (attentionalFocus w)). lia.
  - intros x Hx. rewrite Hf in Hx. apply elem_of_Set_delete in Hx as [Hx Hne].
    destruct (Hin x Hx) as [Hlive Hmin].
    rewrite Ha, Hsti, elem_of_Set_delete. done.
Qed.

Lemma forget_fold_focus_ok (c : Config) (l : list ref) (s : System) :
  focus_ok c (fst s) ->
  focus_ok c (fst (foldl forget_step s l))
  /\ config (snd (foldl forget_step s l)) = config (snd s).
Proof.
  revert s. induction l as [|r l IH]; intros s Hok; cbn [foldl]; [done|].
  assert (Hstep : focus_ok c (fst (forget_step s r))
                  /\ config (snd (forget_step s r)) = config (snd s)).
  { destruct s as [w e]. unfold forget_step, Math_random.
    destruct (Qltb _ _); cbn [fst snd config]; [|done].
    split; [|done]. by apply removeAtom_focus_ok. }
  destruct Hstep as [Hok' Hc'].
  destruct (IH _ Hok') as [Hfin Hc'']. split; [done|]. congruence.
Qed.

End Focus.

(** ** C2: the focus invariant after an ECAN cycle *)

(** C2.  After one ECAN cycle, started in a graph whose focus holds only
    live atoms, the focus holds at most [maxAF] ids, each of them is a live
    atom of the graph, and each has [STI >= minSTI]. *)
Theorem runCycle_focus_invariant (w : World) (e : ECAN.t) :
  focus_live w ->
  (length (attentionalFocus (fst (ECAN.runCycle (w, e))))
   <= ECAN.maxAF (ECAN.config e))%nat
  /\ forall x, x ∈ attentionalFocus (fst (ECAN.runCycle (w, e))) ->
       x ∈ atoms (fst (ECAN.runCycle (w, e)))
       /\ ECAN.minSTI (ECAN.config e)
          <= getSTI (heap (fst (ECAN.runCycle (w, e)))) x.
Proof.
  intros Hlive. unfold ECAN.runCycle.
  set (s0 := ECAN.begin_cycle (w, e)).
  destruct (begin_cycle_frame (w, e)) as [Hw0 Hc0]. fold s0 in Hw0, Hc0.
  set (s3 := ECAN.spreadImportance (ECAN.applySTIDecay (ECAN.collectRent s0))).
  assert (H03 : store_same s0 s3).
  { eapply store_same_trans; [apply collectRent_frame|].
    eapply store_same_trans; [apply applySTIDecay_frame|].
    apply spreadImportance_frame. }
  destruct H03 as (Ha3 & Hf3 & Hc3).
  destruct s3 as [w3 e3] eqn:E3. cbn [fst snd] in *.
  assert (Hlive3 : forall x, x ∈ attentionalFocus w3 -> x ∈ atoms w3).
  { intros x. rewrite Ha3, Hf3, Hw0. apply Hlive. }
  destruct (updateAttentionalFocus_spec w3 e3 Hlive3)
    as (Hh4 & Ha4 & He4 & Hlen4 & Hin4).
  destruct (ECAN.updateAttentionalFocus (w3, e3)) as [w4 e4] eqn:E4.
  cbn [fst snd] in *. subst e4.
  assert (Hok4 : focus_ok (ECAN.config e) w4).
  { split.
    - rewrite Hc3, Hc0 in Hlen4. exact Hlen4.
    - intros x Hx. destruct (Hin4 x Hx) as [H1 H2].
      rewrite Ha4, Hh4. rewrite Hc3, Hc0 in H2. done. }
  unfold ECAN.applyForgetting.
  match goal with
  | |- context [foldl ECAN.forget_step (w4, e3) ?l] =>
      destruct (forget_fold_focus_ok (ECAN.config e) l (w4, e3) Hok4)
        as [Hok5 _];
      destruct (foldl ECAN.forget_step (w4, e3) l) as [w5 e5]
  end.
  cbn [fst snd ECAN.updateStatistics] in *. exact Hok5.
Qed.

(** Scenario S2: after one cycle the focus holds the three atoms of
    highest STI (those stimulated by 50, 40 and 30), and no other. *)
Example scenario_S2_focus :
  attentionalFocus (fst (ECAN.runCycle scenario_S2)) = [4; 3; 2]%nat.
Proof. vm_compute. reflexivity. Qed.

Lemma runCycle_focus_invariant_witness :
  focus_live (fst scenario_S2)
  /\ ((length (attentionalFocus
                 (fst (ECAN.runCycle (fst scenario_S2, snd scenario_S2))))
       <= ECAN.maxAF (ECAN.config (snd scenario_S2)))%nat
      /\ forall x,
           x ∈ attentionalFocus
                 (fst (ECAN.runCycle (fst scenario_S2, snd scenario_S2))) ->
           x ∈ atoms (fst (ECAN.runCycle (fst scenario_S2, snd scenario_S2)))
           /\ ECAN.minSTI (ECAN.config (snd scenario_S2))
              <= getSTI (heap (fst (ECAN.runCycle
                                      (fst scenario_S2, snd scenario_S2)))) x).
Proof.
  assert (Hlive : focus_live (fst scenario_S2)).
  { intros x Hx. vm_compute in Hx. by apply elem_of_nil in Hx. }
  split; [exact Hlive|].
  apply (runCycle_focus_invariant (fst scenario_S2) (snd scenario_S2) Hlive).
Defined.

(** ** Frame properties of insertion *)

Lemma addAtom_frame (r : ref) (w : World) :
  (forall x, getSTI (heap (snd (addAtom r w))) x = getSTI (heap w) x)
  /\ length (heap (snd (addAtom r w))) = length (heap w)
  /\ attentionalFocus (snd (addAtom r w)) = attentionalFocus w
  /\ fst (addAtom r w) = r
  /\ ((snd (addAtom r w) = w)
      \/ ((r ∉ atoms w) /\ atoms (snd (addAtom r w)) = atoms w ++ [r]
          /\ size (snd (addAtom r w)) = (size w + 1)%Z)).
Proof.
  unfold addAtom. destruct (heap w !! r) as [a|] eqn:Ea; [|by (auto 10)].
  unfold hasAtom. destruct (bool_decide (r ∈ atoms w)) eqn:Eh; [by (auto 10)|].
  apply bool_decide_eq_false in Eh. cbn [fst snd].
  set (w1 := mkW _ _ _ _ _ _ _).
  destruct (foldl_wire_incoming_frame r (outgoing a) w1)
    as (-> & -> & -> & _ & _ & -> & Hsti).
  split; [done|]. split; [done|]. split; [done|]. split; [done|].
  right. done.
Qed.

Lemma overwrite_tv_frame (e : ref) (t : option TruthValue) (w : World) :
  (forall x, getSTI (heap (overwrite_tv e t w)) x = getSTI (heap w) x)
  /\ length (heap (overwrite_tv e t w)) = length (heap w)
  /\ atoms (overwrite_tv e t w) = atoms w
  /\ attentionalFocus (overwrite_tv e t w) = attentionalFocus w
  /\ size (overwrite_tv e t w) = size w
  /\ typeIndex (overwrite_tv e t w) = typeIndex w
  /\ nameIndex (overwrite_tv e t w) = nameIndex w.
Proof.
  unfold overwrite_tv. destruct t as [v|]; [|done]. simpl.
  split; [|split; [|done]].
  - intros x. by apply getSTI_heap_alter.
  - unfold heap_alter. apply length_alter.
Qed.

(** Adding a node or a link writes no STI (the new atom has STI 0, which is
    what its reference read as before), and the only key it can add is the
    reference of the new object. *)
Lemma alloc_addAtom_frame (a : Atom) (w : World) :
  sti (av a) = 0 ->
  (forall x, getSTI (heap (snd (addAtom (length (heap w))
                                   (with_heap (heap w ++ [a]) w)))) x
             = getSTI (heap w) x)
  /\ (length (heap w)
      <= length (heap (snd (addAtom (length (heap w))
                              (with_heap (heap w ++ [a]) w)))))%nat
  /\ attentionalFocus (snd (addAtom (length (heap w))
                              (with_heap (heap w ++ [a]) w)))
     = attentionalFocus w
  /\ forall x, x ∈ atoms (snd (addAtom (length (heap w))
                                 (with_heap (heap w ++ [a]) w))) ->
       x ∈ atoms w \/ x = length (heap w).
Proof.
  intros Ha.
  destruct (addAtom_frame (length (heap w)) (with_heap (heap w ++ [a]) w))
    as (Hsti & Hlen & Hf & _ & Hcases).
  split; [|split; [|split]].
  - intros x. rewrite Hsti. simpl. by apply getSTI_alloc.
  - rewrite Hlen. simpl. rewrite length_app. lia.
  - by rewrite Hf.
  - intros x Hx. destruct Hcases as [Heq|(_ & Hat & _)].
    + rewrite Heq in Hx. by left.
    + rewrite Hat in Hx. simpl in Hx.
      apply elem_of_app in Hx as [Hx|Hx]; [by left|].
      right. by apply list_elem_of_singleton in Hx.
Qed.

Lemma addLink_frame (ty : string) (out : list ref) (t : option TruthValue)
    (w : World) :
  (forall x, getSTI (heap (snd (addLink ty out t w))) x = getSTI (heap w) x)
  /\ (length (heap w) <= length (heap (snd (addLink ty out t w))))%nat
  /\ attentionalFocus (snd (addLink ty out t w)) = attentionalFocus w
  /\ forall x, x ∈ atoms (snd (addLink ty out t w)) ->
       x ∈ atoms w \/ x = length (heap w).
Proof.
  unfold addLink. destruct (getLinkByOutgoing ty out w) as [e|].
  - destruct (overwrite_tv_frame e t w) as (Hsti & Hlen & Hat & Hf & _).
    cbn [snd]. rewrite Hlen, Hat, Hf. split; [done|]. split; [lia|].
    split; [done|]. by left.
  - unfold alloc. by apply alloc_addAtom_frame.
Qed.

Lemma addNode_frame (ty : string) (nm : option string) (t : option TruthValue)
    (w : World) :
  (forall x, getSTI (heap (snd (addNode ty nm t w))) x = getSTI (heap w) x)
  /\ (length (heap w) <= length (heap (snd (addNode ty nm t w))))%nat
  /\ attentionalFocus (snd (addNode ty nm t w)) = attentionalFocus w
  /\ forall x, x ∈ atoms (snd (addNode ty nm t w)) ->
       x ∈ atoms w \/ x = length (heap w).
Proof.
  unfold addNode. destruct (getNodeByName ty nm w) as [e|].
  - destruct (overwrite_tv_frame e t w) as (Hsti & Hlen & Hat & Hf & _).
    cbn [snd]. rewrite Hlen, Hat, Hf. split; [done|]. split; [lia|].
    split; [done|]. by left.
  - unfold alloc. by apply alloc_addAtom_frame.
Qed.

(** ** C6: STI bounds across the ECAN operations *)

Section BoundsOfOperations.
Import ECAN.
Variable c : Config.
Hypothesis Hsane : sane_config c.

Lemma step_ok_refl (s : System) : step_ok c s s.
Proof.
  split; [apply sti_kept_refl|]. split; [done|]. split; [done|]. by left.
Qed.

Lemma step_ok_trans (s1 s2 s3 : System) :
  step_ok c s1 s2 -> step_ok c s2 s3 -> step_ok c s1 s3.
Proof.
  intros (Hk & Hc & Hl & Ha) (Hk' & Hc' & Hl' & Ha').
  split; [by eapply sti_kept_trans|]. split; [congruence|]. split; [lia|].
  intros x Hx. destruct (Ha' x Hx) as [H|H].
  - by apply Ha.
  - right. lia.
Qed.

(** A phase that only writes STIs. *)
Lemma step_ok_of_store_same (s s' : System) :
  store_same s s' ->
  sti_kept c (heap (fst s)) (heap (fst s')) ->
  length (heap (fst s')) = length (heap (fst s)) ->
  step_ok c s s'.
Proof.
  intros (Ha & _ & Hc) Hk Hl. split; [done|]. split; [done|].
  split; [lia|]. intros x Hx. left. by rewrite <- Ha.
Qed.

Lemma rent_fold_length (l : list ref) (h : list Atom) (pool : Q) :
  length (fst (foldl (rent_step c) (h, pool) l)) = length h.
Proof.
  revert h pool. induction l as [|x l IH]; intros h pool; cbn [foldl]; [done|].
  unfold rent_step at 2. rewrite IH. apply heap_setSTI_length.
Qed.

Lemma collectRent_ok (w : World) (e : t) :
  config e = c -> step_ok c (w, e) (collectRent (w, e)).
Proof.
  intros Hc. apply step_ok_of_store_same; [apply collectRent_frame| |].
  - unfold collectRent. rewrite Hc.
    pose proof (rent_fold_kept c Hsane (getAttentionalFocus w) (heap w)
                  (currentSTIPool e)) as H.
    destruct (foldl _ _ _) as [h pool]. exact H.
  - unfold collectRent. rewrite Hc.
    pose proof (rent_fold_length (getAttentionalFocus w) (heap w)
                  (currentSTIPool e)) as H.
    destruct (foldl _ _ _) as [h pool]. exact H.
Qed.

Lemma applySTIDecay_ok (w : World) (e : t) :
  config e = c -> step_ok c (w, e) (applySTIDecay (w, e)).
Proof.
  intros Hc. apply step_ok_of_store_same; [apply applySTIDecay_frame| |].
  - unfold applySTIDecay. rewrite Hc.
    pose proof (decay_fold_kept c Hsane (getAllAtoms w) (heap w)
                  (currentSTIPool e)) as H.
    destruct (foldl _ _ _) as [h pool]. exact H.
  - unfold applySTIDecay. rewrite Hc.
    assert (H : forall l h pool,
              length (fst (foldl (decay_step c) (h, pool) l)) = length h).
    { induction l as [|x l IH]; intros h pool; cbn [foldl]; [done|].
      destruct (decay_step_spec c h pool x) as (Hl & _).
      destruct (decay_step c (h, pool) x) as [h1 p1]. rewrite IH. exact Hl. }
    specialize (H (getAllAtoms w) (heap w) (currentSTIPool e)).
    destruct (foldl _ _ _) as [h pool]. exact H.
Qed.

Lemma spread_fold_length (amt : Q) (l : list ref) (h : list Atom) (e : t)
    (tot : Q) :
  length (fst (fst (foldl (spread_step amt) (h, e, tot) l))) = length h.
Proof.
  revert h e tot. induction l as [|x l IH]; intros h e tot; cbn [foldl]; [done|].
  destruct (spread_step amt (h, e, tot) x) as [[h1 e1] t1] eqn:E.
  rewrite IH. unfold spread_step, Math_random in E.
  destruct (Qltb _ _); inversion E; subst; [apply heap_setSTI_length|done].
Qed.

Lemma spreadFromAtom_length (r : ref) (w : World) (e : t) :
  length (heap (fst (snd (spreadFromAtom r (w, e))))) = length (heap w).
Proof.
  unfold spreadFromAtom. destruct (Qltb _ 1); [done|].
  destruct (connectedAtoms r w) as [|x l]; [done|].
  pose proof (spread_fold_length
                (getSTI (heap w) r * diffusionRate (config e)
                 / inject_Z (Z.of_nat (length (x :: l))))
                (x :: l) (heap w) e 0) as H.
  destruct (foldl _ _ _) as [[h1 e1] tot]. cbn [fst snd heap with_heap] in *.
  rewrite heap_setSTI_length. exact H.
Qed.

Lemma spreadFromAtom_ok (r : ref) (s : System) :
  config (snd s) = c -> step_ok c s (snd (spreadFromAtom r s)).
Proof.
  destruct s as [w e]. intros Hc.
  apply step_ok_of_store_same; [apply spreadFromAtom_frame| |].
  - by apply spreadFromAtom_kept.
  - apply spreadFromAtom_length.
Qed.

Lemma spreadImportance_fold_ok (l : list ref) (acc : Q * System) :
  config (snd (snd acc)) = c ->
  step_ok c (snd acc) (snd (foldl spreadImportance_step acc l)).
Proof.
  revert acc. induction l as [|x l IH]; intros acc Hc; cbn [foldl].
  { apply step_ok_refl. }
  assert (Hstep : step_ok c (snd acc) (snd (spreadImportance_step acc x))).
  { destruct acc as [tot s]. unfold spreadImportance_step.
    destruct (Qltb _ _); [|apply step_ok_refl].
    pose proof (spreadFromAtom_ok x s Hc) as H.
    destruct (spreadFromAtom x s) as [d s']. exact H. }
  eapply step_ok_trans; [exact Hstep|]. apply IH.
  destruct Hstep as (_ & Hc' & _). congruence.
Qed.

Lemma spreadImportance_ok (s : System) :
  config (snd s) = c -> step_ok c s (spreadImportance s).
Proof.
  intros Hc. unfold spreadImportance.
  pose proof (spreadImportance_fold_ok (getAttentionalFocus (fst s)) (0, s) Hc)
    as H.
  destruct (foldl _ _ _) as [tot [w e]]. exact H.
Qed.

Lemma updateAttentionalFocus_ok (w : World) (e : t) :
  step_ok c (w, e) (updateAttentionalFocus (w, e)).
Proof.
  unfold updateAttentionalFocus.
  destruct (clear_focus_spec (getAttentionalFocus w) w) as (Hh & Ha & _).
  set (w1 := foldl (fun w r => removeFromAttentionalFocus r w) w
                   (getAttentionalFocus w)) in *.
  match goal with
  | |- context [foldl _ w1 ?l] =>
      destruct (fill_focus_spec l w1) as (Hh' & Ha' & _)
  end.
  split; [|split; [done|split]]; cbn [fst snd].
  - rewrite Hh', Hh. apply sti_kept_refl.
  - rewrite Hh', Hh. done.
  - intros x Hx. left. by rewrite Ha', Ha in Hx.
Qed.

Lemma removeAtom_ok (id : ref) (w : World) (e e' : t) :
  config e' = config e -> step_ok c (w, e) (snd (removeAtom id w), e').
Proof.
  intros Hc.
  destruct (removeAtom_frame id w) as (Hsti & Hlen & Hcases).
  split; [by apply sti_kept_same|]. split; [done|]. cbn [fst snd].
  split; [lia|]. intros x Hx. left.
  destruct Hcases as [[_ Heq]|(_ & Ha & _)].
  - by rewrite Heq in Hx.
  - rewrite Ha in Hx. by apply elem_of_Set_delete in Hx as [Hx _].
Qed.

Lemma forget_fold_ok (l : list ref) (s : System) :
  step_ok c s (foldl forget_step s l).
Proof.
  revert s. induction l as [|r l IH]; intros s; cbn [foldl].
  { apply step_ok_refl. }
  eapply step_ok_trans; [|apply IH].
  destruct s as [w e]. unfold forget_step, Math_random.
  destruct (Qltb _ _).
  - by apply removeAtom_ok.
  - split; [apply sti_kept_refl|]. split; [done|]. split; [done|]. by left.
Qed.

Lemma applyForgetting_ok (s : System) : step_ok c s (applyForgetting s).
Proof. destruct s as [w e]. unfold applyForgetting. apply forget_fold_ok. Qed.

Lemma updateStatistics_ok (s : System) : step_ok c s (updateStatistics s).
Proof.
  destruct s as [w e]. split; [apply sti_kept_refl|]. split; [done|].
  split; [done|]. by left.
Qed.

Lemma begin_cycle_ok (s : System) : step_ok c s (begin_cycle s).
Proof.
  destruct s as [w e]. split; [apply sti_kept_refl|]. split; [done|].
  split; [done|]. by left.
Qed.

Lemma runCycle_ok (s : System) :
  config (snd s) = c -> step_ok c s (runCycle s).
Proof.
  intros Hc. unfold runCycle.
  pose proof (begin_cycle_ok s) as H0.
  assert (Hc0 : config (snd (begin_cycle s)) = c)
    by (destruct H0 as (_ & -> & _); done).
  destruct (begin_cycle s) as [w0 e0].
  pose proof (collectRent_ok w0 e0 Hc0) as H1.
  assert (Hc1 : config (snd (collectRent (w0, e0))) = c)
    by (destruct H1 as (_ & -> & _); done).
  destruct (collectRent (w0, e0)) as [w1 e1].
  pose proof (applySTIDecay_ok w1 e1 Hc1) as H2.
  assert (Hc2 : config (snd (applySTIDecay (w1, e1))) = c)
    by (destruct H2 as (_ & -> & _); done).
  pose proof (spreadImportance_ok _ Hc2) as H3.
  destruct (spreadImportance (applySTIDecay (w1, e1))) as [w3 e3].
  pose proof (updateAttentionalFocus_ok w3 e3) as H4.
  pose proof (applyForgetting_ok (updateAttentionalFocus (w3, e3))) as H5.
  pose proof (updateStatistics_ok
                (applyForgetting (updateAttentionalFocus (w3, e3)))) as H6.
  repeat (eapply step_ok_trans; [eassumption|]). apply step_ok_refl.
Qed.

Lemma stimulateAtom_ok (id : ref) (amount : option Q) (w : World) (e : t) :
  config e = c ->
  0 <= num_or amount (stimulusAmount c) ->
  step_ok c (w, e) (snd (stimulateAtom id amount (w, e))).
Proof.
  intros Hc Hamt. unfold stimulateAtom.
  destruct (getAtom id w); [|apply step_ok_refl]. cbn [fst snd].
  split; [|split; [done|split]]; cbn [fst snd heap atoms with_heap].
  - rewrite Hc. apply heap_setSTI_kept. intros [Hlo Hhi]. destruct Hsane.
    destruct (Math_min_cases
                (getSTI (heap w) id + num_or amount (stimulusAmount c))
                (maxSTI c)) as [[Hle ->]|[Hlt ->]]; split; lra.
  - rewrite heap_setSTI_length. done.
  - by left.
Qed.

Lemma performHebbianLearning_ok (a1 a2 : ref) (w : World) (e : t) :
  step_ok c (w, e) (snd (performHebbianLearning a1 a2 (w, e))).
Proof.
  unfold performHebbianLearning.
  destruct (getAtom a1 w); [|apply step_ok_refl].
  destruct (getAtom a2 w); [|apply step_ok_refl].
  set (found := match findHebbianLink a1 a2 w with
                | Some l => (l, w)
                | None => addLink HEBBIAN_LINK [a1; a2]
                            (Some (new_TruthValue 0.1 0.1)) w
                end).
  assert (Hlink : step_ok c (w, e) (snd found, e)).
  { unfold found. destruct (findHebbianLink a1 a2 w).
    - apply step_ok_refl.
    - destruct (addLink_frame HEBBIAN_LINK [a1; a2]
                  (Some (new_TruthValue 0.1 0.1)) w) as (Hsti & Hlen & _ & Hat).
      split; [by apply sti_kept_same|]. split; [done|].
      split; [done|]. cbn [fst snd]. intros x Hx.
      destruct (Hat x Hx) as [H| ->].
      + by left.
      + by right. }
  destruct found as [l w1]. unfold TruthValue_getStrength. cbn [snd] in *.
  exact Hlink.
Qed.

End BoundsOfOperations.

(** C6, counterexample.  Under the default configuration (bounds -1000 and
    1000), stimulating an atom of STI 0 by -2000 leaves it at -2000. *)
Lemma stimulate_below_minSTI :
  getSTI (heap (fst one_node)) 0 == 0
  /\ ECAN.minSTI (ECAN.config (snd one_node)) == -1000
  /\ getSTI (heap (fst (perform (StimulateAtom 0 (Some (-2000))) one_node))) 0
     == -2000
  /\ getSTI (heap (fst (perform (StimulateAtom 0 (Some (-2000))) one_node))) 0
     < ECAN.minSTI (ECAN.config (snd one_node)).
Proof.
  split; [|split; [|split]]; vm_compute; reflexivity.
Qed.

(** C6, as amended.  Under a configuration with
    [minSTI <= 0 <= maxSTI], [rentAmount >= 0], [decayRate >= 0],
    [0 <= diffusionRate <= 1] and [stimulusAmount >= 0], if every atom of
    the graph has its STI in [[minSTI, maxSTI]], then so has every atom of
    the graph after any of the six phases, after a whole cycle, after
    Hebbian learning, and after [stimulateAtom] with an amount that is not
    negative. *)
Theorem ecan_operations_keep_sti_bounds (op : ecan_operation) (w : World)
    (e : ECAN.t) :
  sane_config (ECAN.config e) ->
  nonnegative_stimulus (ECAN.config e) op ->
  sti_bounded (ECAN.config e) w ->
  sti_bounded (ECAN.config e) (fst (perform op (w, e))).
Proof.
  intros Hsane Hamt Hb.
  assert (Hok : step_ok (ECAN.config e) (w, e) (perform op (w, e))).
  { destruct op; cbn [perform].
    - by apply collectRent_ok.
    - by apply applySTIDecay_ok.
    - by apply spreadImportance_ok.
    - apply updateAttentionalFocus_ok.
    - apply applyForgetting_ok.
    - apply updateStatistics_ok.
    - by apply runCycle_ok.
    - by apply stimulateAtom_ok.
    - apply performHebbianLearning_ok. }
  destruct Hok as (Hk & _ & _ & Hat). cbn [fst snd] in *.
  intros r Hr. apply Hk. destruct (Hat r Hr) as [Hin|Hnew].
  - by apply Hb.
  - rewrite getSTI_unallocated by done. destruct Hsane. split; lra.
Qed.

Lemma default_config_sane : sane_config (ECAN.make_config ECAN.no_options).
Proof. split; vm_compute; intros H; discriminate H. Qed.

Lemma ecan_operations_keep_sti_bounds_witness :
  sane_config (ECAN.config (snd one_node))
  /\ nonnegative_stimulus (ECAN.config (snd one_node))
       (StimulateAtom 0 (Some 2000))
  /\ sti_bounded (ECAN.config (snd one_node)) (fst one_node)
  /\ sti_bounded (ECAN.config (snd one_node))
       (fst (perform (StimulateAtom 0 (Some 2000))
               (fst one_node, snd one_node))).
Proof.
  assert (Hsane : sane_config (ECAN.config (snd one_node)))
    by exact default_config_sane.
  assert (Hamt : nonnegative_stimulus (ECAN.config (snd one_node))
                   (StimulateAtom 0 (Some 2000))).
  { vm_compute. intros H. discriminate H. }
  assert (Hb : sti_bounded (ECAN.config (snd one_node)) (fst one_node)).
  { intros r Hr. vm_compute in Hr. apply list_elem_of_singleton in Hr.
    subst r. split; vm_compute; intros H; discriminate H. }
  split; [exact Hsane|]. split; [exact Hamt|]. split; [exact Hb|].
  exact (ecan_operations_keep_sti_bounds (StimulateAtom 0 (Some 2000))
           (fst one_node) (snd one_node) Hsane Hamt Hb).
Defined.

Example stimulate_clamps_at_maxSTI :
  getSTI (heap (fst (perform (StimulateAtom 0 (Some 2000)) one_node))) 0 == 1000.
Proof. vm_compute. reflexivity. Qed.

(** ** PLN: what an inference run does to the graph *)

Section Inference.
Import PLN.

(** The engine as it runs on the truth values of this repository. *)

Ltac crunch_rule :=
  repeat (first
    [ progress cbn [fst snd bind ret lift deref exn_bind]
    | match goal with
      | |- context [match heap ?w !! ?r with _ => _ end] =>
          destruct (heap w !! r)
      | |- context [match out2 ?a with _ => _ end] =>
          destruct (out2 a) as [[? ?]|]
      | |- context [if ?b then _ else _] => destruct b
      end ]);
  try done.

Lemma atomsAreEquivalent_pure (r1 r2 : ref) (w : World) :
  snd (atomsAreEquivalent r1 r2 w) = w.
Proof. unfold atomsAreEquivalent, bind, deref, ret. crunch_rule. Qed.

Lemma applyDeduction_inert (cand : Candidate) (w : World) :
  snd (applyDeduction TruthValue_getStrength cand w) = w
  /\ no_conclusion (fst (applyDeduction TruthValue_getStrength cand w)).
Proof.
  unfold applyDeduction, bind, deref.
  destruct (heap w !! premise1 cand) as [p1|]; [|done].
  destruct (heap w !! premise2 cand) as [p2|]; [|done].
  destruct (out2 p1) as [[A B1]|]; [|done].
  destruct (out2 p2) as [[B2 C]|]; [|done].
  pose proof (atomsAreEquivalent_pure B1 B2 w) as Hpure.
  destruct (atomsAreEquivalent B1 B2 w) as [[same|msg] w']; simpl in Hpure;
    subst w'; [|done].
  destruct same; done.
Qed.

Lemma applyInduction_inert (cand : Candidate) (w : World) :
  snd (applyInduction TruthValue_getStrength cand w) = w
  /\ no_conclusion (fst (applyInduction TruthValue_getStrength cand w)).
Proof.
  unfold applyInduction, bind, deref.
  destruct (heap w !! premise1 cand) as [p1|]; [|done].
  destruct (heap w !! premise2 cand) as [p2|]; [|done].
  destruct (out2 p1) as [[A1 B]|]; [|done].
  destruct (out2 p2) as [[A2 C]|]; [|done].
  pose proof (atomsAreEquivalent_pure A1 A2 w) as Hpure.
  destruct (atomsAreEquivalent A1 A2 w) as [[same|msg] w']; simpl in Hpure;
    subst w'; [|done].
  destruct same; done.
Qed.

Lemma applyAbduction_inert (cand : Candidate) (w : World) :
  snd (applyAbduction TruthValue_getStrength cand w) = w
  /\ no_conclusion (fst (applyAbduction TruthValue_getStrength cand w)).
Proof.
  unfold applyAbduction, bind, deref.
  destruct (heap w !! premise1 cand) as [p1|]; [|done].
  destruct (heap w !! premise2 cand) as [p2|]; [|done].
  destruct (out2 p1) as [[A B1]|]; [|done].
  destruct (out2 p2) as [[C B2]|]; [|done].
  pose proof (atomsAreEquivalent_pure B1 B2 w) as Hpure.
  destruct (atomsAreEquivalent B1 B2 w) as [[same|msg] w']; simpl in Hpure;
    subst w'; [|done].
  destruct same; done.
Qed.

Lemma evaluatesAsTrue_throws (c : Config) (ev atom : ref) (w : World) :
  snd (evaluatesAsTrue TruthValue_getStrength c ev atom w) = w
  /\ fst (evaluatesAsTrue TruthValue_getStrength c ev atom w) <> Ok true.
Proof.
  unfold evaluatesAsTrue, bind, deref.
  destruct (heap w !! ev) as [a|]; [|done].
  destruct (negb _); [done|].
  destruct (out2 a) as [[predicate argument]|]; [|done].
  pose proof (atomsAreEquivalent_pure argument atom w) as Hpure.
  destruct (atomsAreEquivalent argument atom w) as [[m|msg] w'];
    simpl in Hpure; subst w'; done.
Qed.

Lemma applyModusPonens_inert (c : Config) (cand : Candidate) (w : World) :
  snd (applyModusPonens TruthValue_getStrength c cand w) = w
  /\ no_conclusion (fst (applyModusPonens TruthValue_getStrength c cand w)).
Proof.
  unfold applyModusPonens, bind, deref.
  destruct (heap w !! premise1 cand) as [p1|]; [|done].
  destruct (out2 p1) as [[A1 B]|]; [|done].
  destruct (evaluatesAsTrue_throws c (premise2 cand) A1 w) as [Hpure Hne].
  destruct (evaluatesAsTrue TruthValue_getStrength c (premise2 cand) A1 w)
    as [[holds|msg] w'];
    simpl in Hpure, Hne; subst w'; [|done].
  destruct holds; done.
Qed.

Lemma applyRevision_inert (c : Config) (cand : Candidate) (w : World) :
  snd (applyRevision TruthValue_getStrength c cand w) = w
  /\ no_conclusion (fst (applyRevision TruthValue_getStrength c cand w)).
Proof.
  unfold applyRevision.
  destruct (truthValues cand) as [[|t1 [|t2 l]]|]; done.
Qed.

Lemma rules_inert (c : Config) : Forall inert (rules TruthValue_getStrength c).
Proof.
  unfold rules.
  apply Forall_cons_2; [intros cand w; apply applyDeduction_inert|].
  apply Forall_cons_2; [intros cand w; apply applyInduction_inert|].
  apply Forall_cons_2; [intros cand w; apply applyAbduction_inert|].
  apply Forall_cons_2; [intros cand w; apply applyRevision_inert|].
  apply Forall_cons_2; [intros cand w; apply applyModusPonens_inert|].
  apply Forall_nil_2.
Qed.

Lemma applyRule_loop_inert (c : Config) (rule : Rule) (cands : list Candidate)
    (acc : list Result) (w : World) :
  inert rule -> applyRule_loop TruthValue_getStrength c rule cands acc w = (acc, w).
Proof.
  intros Hin. induction cands as [|cand rest IH]; cbn [applyRule_loop]; [done|].
  destruct (Hin cand w) as [Hw Hno].
  destruct (apply rule cand w) as [[[r|]|msg] w']; simpl in Hw, Hno; subst w';
    done.
Qed.

Lemma applyRule_inert (c : Config) (rule : Rule) (w : World) :
  inert rule -> applyRule TruthValue_getStrength c rule w = ([], w).
Proof. intros Hin. unfold applyRule. by apply applyRule_loop_inert. Qed.

Lemma apply_all_rules_inert (c : Config) (rs : list Rule) (w : World) :
  Forall inert rs -> apply_all_rules TruthValue_getStrength c rs w = ([], w).
Proof.
  unfold apply_all_rules. generalize (@nil Result).
  induction rs as [|rule rs IH]; intros acc Hall; cbn [foldl]; [done|].
  apply Forall_cons in Hall as [Hrule Hall]. cbn [fst snd].
  rewrite (applyRule_inert c rule w Hrule), app_nil_r. by apply IH.
Qed.

Lemma performInference_inert (c : Config) (maxIterations : nat) (w : World) :
  performInference TruthValue_getStrength c maxIterations w
  = (mkReport [] (Nat.min 1 maxIterations) 0, w).
Proof.
  unfold performInference. destruct maxIterations as [|n]; [done|].
  cbn [inference_loop].
  rewrite (apply_all_rules_inert c (rules TruthValue_getStrength c) w).
  - done.
  - apply rules_inert.
Qed.

End Inference.

(** ** Structural de-duplication *)

Lemma find_ext_in {A} (f g : A -> bool) (l : list A) :
  (forall x, x ∈ l -> f x = g x) -> find f l = find g l.
Proof.
  induction l as [|y l IH]; intros H; simpl; [done|].
  rewrite <- (H y) by apply list_elem_of_here.
  destruct (f y); [done|]. apply IH. intros x Hx. apply H.
  by apply list_elem_of_further.
Qed.

Lemma find_none_elem {A} (f : A -> bool) (l : list A) (x : A) :
  find f l = None -> x ∈ l -> f x = false.
Proof. intros H Hx. apply (find_none f l H). by apply list_elem_of_In. Qed.

(** Looking for [r] in a set to which [r] has just been added, when no
    other member passes the test. *)
Lemma find_Set_add (f : ref -> bool) (r : ref) (s : list ref) :
  (forall x, x ∈ s -> x <> r -> f x = false) ->
  f r = true ->
  find f (Set_add r s) = Some r.
Proof.
  intros Hs Hr. unfold Set_add. destruct (decide (r ∈ s)) as [Hin|Hout].
  - induction s as [|y s IH]; [by apply elem_of_nil in Hin|].
    simpl. destruct (decide (y = r)) as [->|Hne].
    + by rewrite Hr.
    + rewrite (Hs y) by (done || apply list_elem_of_here).
      apply IH.
      * intros x Hx. apply Hs. by apply list_elem_of_further.
      * apply elem_of_cons in Hin as [Heq|Hin]; [by subst|done].
  - induction s as [|y s IH]; simpl.
    + by rewrite Hr.
    + apply not_elem_of_cons in Hout as [Hne Hout].
      rewrite (Hs y) by (done || apply list_elem_of_here).
      apply IH; [|done]. intros x Hx. apply Hs. by apply list_elem_of_further.
Qed.

Lemma getNodeByName_shape (ty : string) (n : string) (w : World) :
  getNodeByName ty (Some n) w
  = match nameIndex w !! n with
    | None => None
    | Some s => find (fun id => node_test ty (shape_of w id)) s
    end.
Proof.
  unfold getNodeByName. destruct (nameIndex w !! n) as [s|]; [|done].
  apply find_ext_in. intros x _. unfold shape_of, node_test.
  destruct (getAtom x w); done.
Qed.

Lemma getLinkByOutgoing_shape (ty : string) (out : list ref) (w : World) :
  getLinkByOutgoing ty out w
  = match typeIndex w !! ty with
    | None => None
    | Some s => find (fun id => link_test out (shape_of w id)) s
    end.
Proof.
  unfold getLinkByOutgoing. destruct (typeIndex w !! ty) as [s|]; [|done].
  apply find_ext_in. intros x _. unfold shape_of, link_test.
  destruct (getAtom x w); done.
Qed.

(** Overwriting a truth value changes no lookup. *)
Lemma shape_of_overwrite_tv (e : ref) (t : option TruthValue) (w : World)
    (x : ref) :
  shape_of (overwrite_tv e t w) x = shape_of w x.
Proof.
  unfold overwrite_tv. destruct t as [v|]; [|done].
  unfold shape_of, getAtom, hasAtom. simpl.
  destruct (bool_decide (x ∈ atoms w)); [|done].
  unfold heap_alter. destruct (decide (e = x)) as [->|Hne].
  - rewrite list_lookup_alter_eq. by destruct (heap w !! x).
  - by rewrite list_lookup_alter_ne.
Qed.

Lemma getNodeByName_overwrite_tv (ty : string) (nm : option string) (e : ref)
    (t : option TruthValue) (w : World) :
  getNodeByName ty nm (overwrite_tv e t w) = getNodeByName ty nm w.
Proof.
  destruct nm as [n|]; [|done]. rewrite !getNodeByName_shape.
  destruct (overwrite_tv_frame e t w) as (_ & _ & _ & _ & _ & _ & ->).
  destruct (nameIndex w !! n) as [s|]; [|done].
  apply find_ext_in. intros x _. by rewrite shape_of_overwrite_tv.
Qed.

Lemma getLinkByOutgoing_overwrite_tv (ty : string) (out : list ref) (e : ref)
    (t : option TruthValue) (w : World) :
  getLinkByOutgoing ty out (overwrite_tv e t w) = getLinkByOutgoing ty out w.
Proof.
  rewrite !getLinkByOutgoing_shape.
  destruct (overwrite_tv_frame e t w) as (_ & _ & _ & _ & _ & -> & _).
  destruct (typeIndex w !! ty) as [s|]; [|done].
  apply find_ext_in. intros x _. by rewrite shape_of_overwrite_tv.
Qed.

(** Wiring the incoming sets changes no shape. *)
Lemma foldl_wire_incoming_shape (id : ref) (l : list ref) (w : World) (x : ref) :
  shape <$> heap (foldl (wire_incoming id) w l) !! x = shape <$> heap w !! x.
Proof.
  revert w. induction l as [|o l IH]; intros w; simpl; [done|].
  rewrite IH. simpl. unfold heap_alter.
  destruct (decide (o = x)) as [->|Hne].
  - rewrite list_lookup_alter_eq. by destruct (heap w !! x).
  - by rewrite list_lookup_alter_ne.
Qed.

(** The state right after a new object [a] has been allocated and added. *)
Lemma alloc_addAtom_spec (a : Atom) (w : World) :
  allocated w ->
  let r := length (heap w) in
  let w1 := snd (addAtom r (with_heap (heap w ++ [a]) w)) in
  fst (addAtom r (with_heap (heap w ++ [a]) w)) = r
  /\ atoms w1 = atoms w ++ [r]
  /\ size w1 = (size w + 1)%Z
  /\ typeIndex w1 = index_add (atom_type a) r (typeIndex w)
  /\ nameIndex w1
     = (if isNode a && truthy_name (atom_name a)
        then index_add (default EmptyString (atom_name a)) r (nameIndex w)
        else nameIndex w)
  /\ shape_of w1 r = Some (shape a)
  /\ forall x, x <> r -> shape_of w1 x = shape_of w x.
Proof.
  intros Halloc r w1.
  assert (Hfresh : r ∉ atoms w).
  { intros Hin. apply Halloc in Hin. unfold r in Hin. lia. }
  assert (Hlook : (heap w ++ [a]) !! r = Some a).
  { unfold r. by rewrite list_lookup_middle. }
  unfold w1, addAtom. cbn [heap with_heap]. rewrite Hlook.
  unfold hasAtom. cbn [atoms with_heap].
  rewrite bool_decide_eq_false_2 by done. cbn [fst snd].
  set (w0 := mkW _ _ _ _ _ _ _).
  destruct (foldl_wire_incoming_frame r (outgoing a) w0)
    as (Hat & _ & Hsz & Hty & Hnm & _ & _).
  rewrite Hat, Hsz, Hty, Hnm. cbn [atoms size typeIndex nameIndex w0].
  split; [done|]. split; [done|]. split; [done|]. split; [done|].
  split; [done|]. split.
  - unfold shape_of, getAtom, hasAtom. rewrite Hat. cbn [atoms w0].
    rewrite bool_decide_eq_true_2
      by (apply elem_of_app; right; apply list_elem_of_here).
    rewrite foldl_wire_incoming_shape. cbn [heap w0]. by rewrite Hlook.
  - intros x Hx. unfold shape_of, getAtom, hasAtom. rewrite Hat.
    cbn [atoms w0].
    destruct (decide (x ∈ atoms w)) as [Hin|Hout].
    + rewrite !bool_decide_eq_true_2
        by (done || (apply elem_of_app; by left)).
      rewrite foldl_wire_incoming_shape. cbn [heap w0].
      rewrite lookup_app_l by (by apply Halloc). done.
    + rewrite !bool_decide_eq_false_2; [done|done|].
      rewrite elem_of_app, list_elem_of_singleton. tauto.
Qed.

Lemma index_add_lookup `{Countable K} (k : K) (r : ref) (m : gmap K (list ref)) :
  index_add k r m !! k = Some (Set_add r (default [] (m !! k))).
Proof. unfold index_add. apply lookup_insert_eq. Qed.

Lemma truthy_name_nonempty (n : string) :
  n <> EmptyString -> truthy_name (Some n) = true.
Proof. by destruct n. Qed.

(** Right after a node was created, the lookup finds it. *)
Lemma getNodeByName_after_create (ty n : string) (t : option TruthValue)
    (w : World) :
  allocated w -> n <> EmptyString ->
  getNodeByName ty (Some n) w = None ->
  getNodeByName ty (Some n)
    (snd (addAtom (length (heap w))
            (with_heap (heap w ++ [new_Atom ty (Some n) [] t]) w)))
  = Some (length (heap w)).
Proof.
  intros Halloc Hn Hnone.
  destruct (alloc_addAtom_spec (new_Atom ty (Some n) [] t) w Halloc)
    as (_ & _ & _ & _ & Hnm & Hr & Hother).
  change (isNode (new_Atom ty (Some n) [] t)
          && truthy_name (atom_name (new_Atom ty (Some n) [] t)))
    with (truthy_name (Some n)) in Hnm.
  change (default EmptyString (atom_name (new_Atom ty (Some n) [] t)))
    with n in Hnm.
  rewrite truthy_name_nonempty in Hnm by done.
  rewrite getNodeByName_shape in Hnone |- *. rewrite Hnm.
  rewrite index_add_lookup. apply find_Set_add.
  - intros x Hx Hne. rewrite Hother by done.
    destruct (nameIndex w !! n) as [s|]; [|by apply elem_of_nil in Hx].
    by eapply find_none_elem in Hnone.
  - rewrite Hr. cbn. by apply bool_decide_eq_true.
Qed.

(** Right after a link was created, the lookup finds it. *)
Lemma getLinkByOutgoing_after_create (ty : string) (out : list ref)
    (t : option TruthValue) (w : World) :
  allocated w -> out <> [] ->
  getLinkByOutgoing ty out w = None ->
  getLinkByOutgoing ty out
    (snd (addAtom (length (heap w))
            (with_heap (heap w ++ [new_Atom ty None out t]) w)))
  = Some (length (heap w)).
Proof.
  intros Halloc Hout Hnone.
  destruct (alloc_addAtom_spec (new_Atom ty None out t) w Halloc)
    as (_ & _ & _ & Hty & _ & Hr & Hother).
  rewrite getLinkByOutgoing_shape in Hnone |- *. rewrite Hty.
  cbn [new_Atom atom_type]. rewrite index_add_lookup. apply find_Set_add.
  - intros x Hx Hne. rewrite Hother by done.
    destruct (typeIndex w !! ty) as [s|]; [|by apply elem_of_nil in Hx].
    by eapply find_none_elem in Hnone.
  - rewrite Hr. cbn. unfold arraysEqual.
    rewrite bool_decide_eq_true_2 by done.
    destruct out; [done|]. done.
Qed.

Lemma addNode_existing ty nm t w e :
  getNodeByName ty nm w = Some e -> addNode ty nm t w = (e, overwrite_tv e t w).
Proof. unfold addNode. by intros ->. Qed.

Lemma addNode_fresh ty nm t w :
  getNodeByName ty nm w = None ->
  addNode ty nm t w
  = addAtom (length (heap w)) (with_heap (heap w ++ [new_Atom ty nm [] t]) w).
Proof. unfold addNode, alloc. by intros ->. Qed.

Lemma addLink_existing ty out t w e :
  getLinkByOutgoing ty out w = Some e ->
  addLink ty out t w = (e, overwrite_tv e t w).
Proof. unfold addLink. by intros ->. Qed.

Lemma addLink_fresh ty out t w :
  getLinkByOutgoing ty out w = None ->
  addLink ty out t w
  = addAtom (length (heap w)) (with_heap (heap w ++ [new_Atom ty None out t]) w).
Proof. unfold addLink, alloc. by intros ->. Qed.

(** C4, counterexample.  A node whose name is the empty string (or that has
    no name) is not entered in the name index, so the second [addNode]
    creates a second atom: another id, and size 2 instead of 1. *)
Lemma addNode_twice_unnamed :
  (fst (fst twice_empty_name) = 0%nat
   /\ fst (snd twice_empty_name) = 1%nat
   /\ size (snd (fst twice_empty_name)) = 1%Z
   /\ size (snd (snd twice_empty_name)) = 2%Z)
  /\ (fst (fst twice_no_name) = 0%nat
      /\ fst (snd twice_no_name) = 1%nat
      /\ size (snd (fst twice_no_name)) = 1%Z
      /\ size (snd (snd twice_no_name)) = 2%Z).
Proof. repeat split; vm_compute; reflexivity. Qed.

(** C4, as amended.  In a graph all of whose keys are allocated atoms:
    for every type and every non-empty name, [addNode] called twice in
    succession returns the same atom and the second call changes neither
    the size nor the key set; for every type and non-empty outgoing array,
    [addLink] called twice in succession returns the same atom, the second
    call does not change the size, and over both calls the size grows by
    one when no such link was there and by nothing when one was. *)
Theorem add_twice_returns_same_atom (w : World) (ty : string) :
  allocated w ->
  (forall (n : string) (t1 t2 : option TruthValue),
     n <> EmptyString ->
     fst (addNode ty (Some n) t2 (snd (addNode ty (Some n) t1 w)))
     = fst (addNode ty (Some n) t1 w)
     /\ size (snd (addNode ty (Some n) t2 (snd (addNode ty (Some n) t1 w))))
        = size (snd (addNode ty (Some n) t1 w))
     /\ atoms (snd (addNode ty (Some n) t2 (snd (addNode ty (Some n) t1 w))))
        = atoms (snd (addNode ty (Some n) t1 w)))
  /\ (forall (out : list ref) (t1 t2 : option TruthValue),
        out <> [] ->
        fst (addLink ty out t2 (snd (addLink ty out t1 w)))
        = fst (addLink ty out t1 w)
        /\ size (snd (addLink ty out t2 (snd (addLink ty out t1 w))))
           = size (snd (addLink ty out t1 w))
        /\ size (snd (addLink ty out t2 (snd (addLink ty out t1 w))))
           = match getLinkByOutgoing ty out w with
             | None => (size w + 1)%Z
             | Some _ => size w
             end).
Proof.
  intros Halloc. split.
  - intros n t1 t2 Hn.
    destruct (getNodeByName ty (Some n) w) as [e|] eqn:E.
    + rewrite (addNode_existing ty (Some n) t1 w e E). cbn [fst snd].
      rewrite (addNode_existing ty (Some n) t2 (overwrite_tv e t1 w) e)
        by (by rewrite getNodeByName_overwrite_tv).
      cbn [fst snd].
      destruct (overwrite_tv_frame e t2 (overwrite_tv e t1 w))
        as (_ & _ & -> & _ & -> & _). done.
    + rewrite (addNode_fresh ty (Some n) t1 w E).
      pose proof (getNodeByName_after_create ty n t1 w Halloc Hn E) as Hfound.
      destruct (alloc_addAtom_spec (new_Atom ty (Some n) [] t1) w Halloc)
        as (Hfst & _).
      rewrite (addNode_existing ty (Some n) t2 _ _ Hfound), Hfst.
      cbn [fst snd].
      match goal with
      | |- context [overwrite_tv ?e ?t ?w'] =>
          destruct (overwrite_tv_frame e t w') as (_ & _ & -> & _ & -> & _)
      end. done.
  - intros out t1 t2 Hout.
    destruct (getLinkByOutgoing ty out w) as [e|] eqn:E.
    + rewrite (addLink_existing ty out t1 w e E). cbn [fst snd].
      rewrite (addLink_existing ty out t2 (overwrite_tv e t1 w) e)
        by (by rewrite getLinkByOutgoing_overwrite_tv).
      cbn [fst snd].
      destruct (overwrite_tv_frame e t2 (overwrite_tv e t1 w))
        as (_ & _ & _ & _ & -> & _).
      destruct (overwrite_tv_frame e t1 w) as (_ & _ & _ & _ & -> & _). done.
    + rewrite (addLink_fresh ty out t1 w E).
      pose proof (getLinkByOutgoing_after_create ty out t1 w Halloc Hout E)
        as Hfound.
      destruct (alloc_addAtom_spec (new_Atom ty None out t1) w Halloc)
        as (Hfst & _ & Hsz & _).
      rewrite (addLink_existing ty out t2 _ _ Hfound), Hfst.
      cbn [fst snd].
      match goal with
      | |- context [overwrite_tv ?e ?t ?w'] =>
          destruct (overwrite_tv_frame e t w') as (_ & _ & _ & _ & -> & _)
      end. done.
Qed.

Lemma add_twice_returns_same_atom_witness :
  allocated two_nodes
  /\ (fst (addLink LIST_LINK [0; 1]%nat None
             (snd (addLink LIST_LINK [0; 1]%nat None two_nodes)))
      = fst (addLink LIST_LINK [0; 1]%nat None two_nodes)
      /\ size (snd (addLink LIST_LINK [0; 1]%nat None
                      (snd (addLink LIST_LINK [0; 1]%nat None two_nodes))))
         = size (snd (addLink LIST_LINK [0; 1]%nat None two_nodes))
      /\ size (snd (addLink LIST_LINK [0; 1]%nat None
                      (snd (addLink LIST_LINK [0; 1]%nat None two_nodes))))
         = match getLinkByOutgoing LIST_LINK [0; 1]%nat two_nodes with
           | None => (size two_nodes + 1)%Z
           | Some _ => size two_nodes
           end).
Proof.
  assert (Halloc : allocated two_nodes).
  { intros r Hr. vm_compute in Hr.
    apply elem_of_cons in Hr as [->|Hr]; [vm_compute; lia|].
    apply list_elem_of_singleton in Hr as ->. vm_compute. lia. }
  split; [exact Halloc|].
  apply (proj2 (add_twice_returns_same_atom two_nodes LIST_LINK Halloc)).
  discriminate.
Defined.

(** Scenario S3: [addLink(ListLink, [A, B])] twice returns atom 2
    both times and takes the size from 2 to 3. *)
Example scenario_S3 :
  fst (addLink LIST_LINK [0; 1]%nat None two_nodes) = 2%nat
  /\ fst (addLink LIST_LINK [0; 1]%nat None
            (snd (addLink LIST_LINK [0; 1]%nat None two_nodes))) = 2%nat
  /\ size two_nodes = 2%Z
  /\ size (snd (addLink LIST_LINK [0; 1]%nat None
                  (snd (addLink LIST_LINK [0; 1]%nat None two_nodes)))) = 3%Z.
Proof. repeat split; vm_compute; reflexivity. Qed.

(** ** C1, C3, C7: the inference engine on the graph *)

(** C1.  On scenario S1 the deduction rule finds the candidate (A->B, B->C),
    its middle terms agree, and then [calculateDeductionTV] calls
    [tv1.getStrength()], which [TruthValue] does not have: the TypeError is
    caught by [applyRule], the iteration ends with no result, the graph is
    what it was, and no [ImplicationLink(A,C)] exists. *)
Theorem deduction_chain_S1_yields_nothing :
  PLN.findRuleCandidates (PLN.deduction_rule TruthValue_getStrength) scenario_S1
  = [PLN.mkCandidate 3 4 None]
  /\ fst (PLN.atomsAreEquivalent 1 1 scenario_S1) = Ok true
  /\ fst (PLN.applyDeduction TruthValue_getStrength
            (PLN.mkCandidate 3 4 None) scenario_S1)
     = Throw "TypeError: tv.getStrength is not a function"
  /\ PLN.performInference TruthValue_getStrength default_pln 1 scenario_S1
     = (PLN.mkReport [] 1 0, scenario_S1)
  /\ getLinkByOutgoing IMPLICATION_LINK [0; 2]%nat
       (snd (PLN.performInference TruthValue_getStrength default_pln 1
               scenario_S1))
     = None.
Proof.
  split; [vm_compute; reflexivity|].
  split; [vm_compute; reflexivity|].
  split; [vm_compute; reflexivity|].
  split; [apply performInference_inert|].
  rewrite performInference_inert. vm_compute. reflexivity.
Qed.


(** X4.  An inference run of any length, on any graph and under any
    configuration, records no inference and returns the graph as it was; it
    stops after its first iteration. *)
Theorem inference_run_is_inert (c : PLN.Config) (maxIterations : nat)
    (w : World) :
  PLN.performInference TruthValue_getStrength c maxIterations w
  = (PLN.mkReport [] (Nat.min 1 maxIterations) 0, w).
Proof. apply performInference_inert. Qed.

(** C7.  Both implications match both premise patterns of the deduction
    rule, yet the only candidate is (atom 3, atom 4), that is
    (B->C, A->B); the pair (A->B, B->C), the one deduction applies to, is
    not enumerated. *)
Theorem candidates_skip_the_reversed_pair :
  getAllAtoms scenario_S1_reversed = [0; 1; 2; 3; 4]%nat
  /\ PLN.matchesPattern scenario_S1_reversed 3 PLN.implication_pattern = true
  /\ PLN.matchesPattern scenario_S1_reversed 4 PLN.implication_pattern = true
  /\ PLN.findRuleCandidates (PLN.deduction_rule TruthValue_getStrength)
       scenario_S1_reversed
     = [PLN.mkCandidate 3 4 None]
  /\ fst (PLN.applyDeduction TruthValue_getStrength
            (PLN.mkCandidate 3 4 None) scenario_S1_reversed)
     = Ok None.
Proof. repeat split; vm_compute; reflexivity. Qed.

(** *** The engine over a class that has the accessor

    For comparison only: what the same engine computes when the call
    [tv.getStrength()] reaches an accessor of [strength].  Nothing below is
    a behaviour of the repository's code. *)

Remark calculateDeductionTV_with_accessor (tv1 tv2 : TruthValue) :
  PLN.calculateDeductionTV strength_accessor tv1 tv2
  = Ok (new_TruthValue
          (strength tv1 * strength tv2)
          (Math_min (confidence tv1 * confidence tv2
                     * (1 - strength tv1 + strength tv1 * strength tv2)) 1)).
Proof. reflexivity. Qed.

Remark deduction_chain_S1_with_accessor :
  match PLN.applyDeduction strength_accessor (PLN.mkCandidate 3 4 None)
          scenario_S1 with
  | (Ok (Some r), w') =>
      PLN.conclusion r = Some 5%nat
      /\ getLinkByOutgoing IMPLICATION_LINK [0; 2]%nat w' = Some 5%nat
      /\ match PLN.truthValue r with
         | Some t => strength t == 0.63 /\ confidence t == 0.3504
         | None => False
         end
  | _ => False
  end.
Proof. vm_compute. repeat split; reflexivity. Qed.

(** With the accessor, [applyDeduction] calls [addLink] before [applyRule]
    consults [isValidInference]: the candidate is rejected, and the link is
    in the graph all the same. *)
Remark rejected_conclusion_is_added_with_accessor :
  fst (PLN.applyRule strength_accessor default_pln
         (PLN.deduction_rule strength_accessor) scenario_low_confidence) = []
  /\ size scenario_low_confidence = 5%Z
  /\ size (snd (PLN.applyRule strength_accessor default_pln
                  (PLN.deduction_rule strength_accessor)
                  scenario_low_confidence)) = 6%Z
  /\ getLinkByOutgoing IMPLICATION_LINK [0; 2]%nat
       (snd (PLN.applyRule strength_accessor default_pln
               (PLN.deduction_rule strength_accessor)
               scenario_low_confidence)) = Some 5%nat.
Proof. repeat split; vm_compute; reflexivity. Qed.

(** ** C5: removal and the outgoing arrays *)

(** C5.  Removing A succeeds and leaves the link in the graph with A still
    in its outgoing array, although A is no longer an atom of the graph. *)
Theorem removeAtom_leaves_dangling_outgoing :
  fst (removeAtom 0 scenario_S4) = true
  /\ getAllAtoms (snd (removeAtom 0 scenario_S4)) = [1; 2]%nat
  /\ hasAtom 0 (snd (removeAtom 0 scenario_S4)) = false
  /\ hasAtom 2 (snd (removeAtom 0 scenario_S4)) = true
  /\ outgoing <$> getAtom 2 (snd (removeAtom 0 scenario_S4))
     = Some [0; 1]%nat.
Proof. repeat split; vm_compute; reflexivity. Qed.

(** Scenario S4 as the specification words it: the link is in the
    incoming set of A, and removing the link takes it out. *)
Example scenario_S4_incoming :
  incoming <$> heap scenario_S4 !! 0%nat = Some [2%nat]
  /\ incoming <$> heap (snd (removeAtom 2 scenario_S4)) !! 0%nat = Some [].
Proof. split; vm_compute; reflexivity. Qed.

(** ** C8: stimulateAtom at the boundaries *)

(** C8.  On an atom of STI 0 under the default configuration,
    [stimulateAtom(id, 0)] returns [true] and leaves the STI at 10:
    [amount || this.config.stimulusAmount] reads the amount 0 as absent. *)
Theorem stimulate_by_zero_adds_the_default :
  getSTI (heap (fst one_node)) 0 == 0
  /\ fst (ECAN.stimulateAtom 0 (Some 0) one_node) = true
  /\ getSTI (heap (fst (snd (ECAN.stimulateAtom 0 (Some 0) one_node)))) 0
     == 10.
Proof. repeat split; vm_compute; reflexivity. Qed.

(** X2.  The second half of C8 holds as stated: when the STI plus the
    amount added exceeds [maxSTI], the STI becomes exactly [maxSTI], and the
    call returns [true]. *)
Lemma stimulateAtom_clamps_at_maxSTI (w : World) (e : ECAN.t) (id : ref)
    (amount : option Q) :
  hasAtom id w = true ->
  (id < length (heap w))%nat ->
  ECAN.maxSTI (ECAN.config e)
  < getSTI (heap w) id + num_or amount (ECAN.stimulusAmount (ECAN.config e)) ->
  fst (ECAN.stimulateAtom id amount (w, e)) = true
  /\ getSTI (heap (fst (snd (ECAN.stimulateAtom id amount (w, e))))) id
     = ECAN.maxSTI (ECAN.config e).
Proof.
  intros Hhas Hlt Hbig. unfold ECAN.stimulateAtom, getAtom. rewrite Hhas.
  destruct (lookup_lt_is_Some_2 (heap w) id Hlt) as [a Ha]. rewrite Ha.
  cbn [fst snd heap with_heap]. split; [done|].
  rewrite getSTI_heap_setSTI_eq by done.
  destruct (Math_min_cases
              (getSTI (heap w) id
               + num_or amount (ECAN.stimulusAmount (ECAN.config e)))
              (ECAN.maxSTI (ECAN.config e))) as [[Hle _]|[_ ->]]; [lra|done].
Qed.

(** ** C10: the fixed deadline of the job-execution path *)

Section Deadline.
Import CogServer.

Lemma race_late (body : Settlement) :
  settles_late body -> race body = (SAFE_TIMEOUT, Throw "Job timed out").
Proof.
  destruct body as [d v|d m|]; simpl; intros H; try done.
  - destruct (N.ltb_spec d SAFE_TIMEOUT); [lia|done].
  - destruct (N.ltb_spec d SAFE_TIMEOUT); [lia|done].
Qed.

Lemma elem_of_insert_by_priority (j k : Job) (l : list Job) :
  k ∈ insert_by_priority j l <-> k = j \/ k ∈ l.
Proof.
  induction l as [|x l IH]; simpl.
  - rewrite list_elem_of_singleton. split; [by left|].
    intros [H|H]; [done|]. by apply elem_of_nil in H.
  - destruct (Qle_bool _ _).
    + by rewrite elem_of_cons.
    + rewrite !elem_of_cons, IH. tauto.
Qed.

Lemma elem_of_sort_queue (k : Job) (l : list Job) :
  k ∈ sort_queue l <-> k ∈ l.
Proof.
  unfold sort_queue. induction l as [|x l IH]; simpl; [done|].
  by rewrite elem_of_insert_by_priority, elem_of_cons, IH.
Qed.

Lemma running_delete_gone (id : nat) (l : list Job) (k : Job) :
  k ∈ running_delete id l -> job_id k <> id.
Proof.
  unfold running_delete. rewrite list_elem_of_In, filter_In.
  intros [_ H]. apply negb_true_iff, Nat.eqb_neq in H. done.
Qed.

(** C10, counterexample.  With one retry left, the attempt is rejected at
    30000 ms with the timed-out error, but the job is not failed: it is
    back in the queue with status [queued]. *)
Lemma timed_out_job_is_requeued :
  match executeJob 0 Pending (patient_job 1) one_plugin with
  | (time, job, server) =>
      time = 30000%N
      /\ status job = queued
      /\ error job = Some "Job timed out"%string
      /\ retryCount job = 1%nat
      /\ jobQueue server = [job]
      /\ completedJobs server = []
      /\ totalJobsFailed (stats server) = 0%nat
  end.
Proof. vm_compute. repeat split; reflexivity. Qed.

(** C10, as amended.  For every job of a registered plugin, whatever its
    configured timeout, a plugin body that does not settle within 30000 ms
    has its attempt rejected 30000 ms after the start with the error
    "Job timed out"; the job then leaves the running set and is failed with
    that error when no retry is left, and is re-queued with that error and
    one more retry counted otherwise.  When the configured timeout is
    30000 ms or more, [checkTimeouts] does not select the running job at
    any time up to that deadline: the configured timeout plays no part. *)
Theorem executeJob_fixed_deadline (now : N) (body : Settlement) (job : Job)
    (s : t) :
  is_Some (plugins s !! pluginId job) ->
  settles_late body ->
  match executeJob now body job s with
  | (time, job', s') =>
      time = (now + 30000)%N
      /\ error job' = Some "Job timed out"%string
      /\ options job' = options job
      /\ (forall k, k ∈ runningJobs s' -> job_id k <> job_id job)
      /\ ((retryCount job < maxRetries (options job))%nat ->
          status job' = queued
          /\ retryCount job' = S (retryCount job)
          /\ job' ∈ jobQueue s')
      /\ ((maxRetries (options job) <= retryCount job)%nat ->
          status job' = failed
          /\ completedAt job' = Some (now + 30000)%N
          /\ job' ∈ completedJobs s')
      /\ ((30000 <= timeout (options job))%N ->
          forall t', (t' <= now + 30000)%N ->
            timed_out t'
              (mkJob (job_id job) (pluginId job) (options job) running
                     (Some now) (completedAt job) (retryCount job)
                     (result job) (error job)) = false)
  end.
Proof.
  intros [p Hp] Hlate. unfold executeJob. rewrite Hp, (race_late body Hlate).
  cbn [retryCount options].
  assert (Hcheck : (30000 <= timeout (options job))%N ->
            forall t', (t' <= now + 30000)%N ->
              timed_out t'
                (mkJob (job_id job) (pluginId job) (options job) running
                       (Some now) (completedAt job) (retryCount job)
                       (result job) (error job)) = false).
  { intros Hto t' Ht'. unfold timed_out. cbn [options startedAt default].
    unfold id. apply Z.ltb_ge. lia. }
  destruct (Nat.ltb_spec (retryCount job) (maxRetries (options job)))
    as [Hretry|Hlast].
  - cbn [retryJob fst snd error options status retryCount jobQueue runningJobs].
    split; [done|]. split; [done|]. split; [done|]. split.
    { intros k Hk. by apply running_delete_gone in Hk. }
    split.
    { intros _. split; [done|]. split; [done|].
      apply elem_of_sort_queue, elem_of_app. right. apply list_elem_of_here. }
    split; [intros; lia|]. exact Hcheck.
  - cbn [failJob fst snd error options status completedAt completedJobs
         runningJobs].
    split; [done|]. split; [done|]. split; [done|]. split.
    { intros k Hk. by apply running_delete_gone in Hk. }
    split; [intros; lia|]. split.
    { intros _. split; [done|]. split; [done|].
      apply elem_of_app. right. apply list_elem_of_here. }
    exact Hcheck.
Qed.

End Deadline.

Lemma executeJob_fixed_deadline_witness :
  is_Some (CogServer.plugins one_plugin
             !! CogServer.pluginId (patient_job 0))
  /\ settles_late CogServer.Pending
  /\ CogServer.timeout (CogServer.options (patient_job 0)) = 60000%N
  /\ CogServer.status
       (snd (fst (CogServer.executeJob 0 CogServer.Pending
                    (patient_job 0) one_plugin)))
     = CogServer.failed
  /\ fst (fst (CogServer.executeJob 0 CogServer.Pending
                 (patient_job 0) one_plugin))
     = 30000%N.
Proof.
  assert (H1 : is_Some (CogServer.plugins one_plugin
                          !! CogServer.pluginId (patient_job 0))).
  { vm_compute. eexists. reflexivity. }
  assert (H2 : settles_late CogServer.Pending) by exact I.
  split; [exact H1|]. split; [exact H2|]. split; [reflexivity|].
  pose proof (executeJob_fixed_deadline 0 CogServer.Pending
                (patient_job 0) one_plugin H1 H2) as H.
  destruct (CogServer.executeJob 0 CogServer.Pending
              (patient_job 0) one_plugin)
    as [[time job'] s'].
  destruct H as (Ht & _ & _ & _ & _ & Hfail & _).
  split; [|exact Ht].
  exact (proj1 (Hfail (le_n 0))).
Defined.

(** ** The graphs the operations can build

    The hypotheses used above ([NoDup] keys, [allocated], [focus_live]) hold
    of the empty graph and are kept by every operation of the store and of
    the engines, hence hold of every graph a client can build. *)

Lemma new_AtomSpace_well_formed : well_formed new_AtomSpace.
Proof.
  split.
  - apply NoDup_nil_2.
  - intros r Hr. by apply elem_of_nil in Hr.
  - intros r Hr. by apply elem_of_nil in Hr.
Qed.

Lemma overwrite_tv_well_formed (e : ref) (t : option TruthValue) (w : World) :
  well_formed w -> well_formed (overwrite_tv e t w).
Proof.
  intros [Hk Ha Hf].
  destruct (overwrite_tv_frame e t w) as (_ & Hlen & Hat & Hfo & _).
  split.
  - by rewrite Hat.
  - intros r. rewrite Hat, Hlen. apply Ha.
  - intros r. rewrite Hat, Hfo. apply Hf.
Qed.

Lemma alloc_addAtom_well_formed (a : Atom) (w : World) :
  well_formed w ->
  well_formed (snd (addAtom (length (heap w)) (with_heap (heap w ++ [a]) w))).
Proof.
  intros [Hk Ha Hf].
  destruct (alloc_addAtom_spec a w Ha) as (_ & Hat & _).
  destruct (addAtom_frame (length (heap w)) (with_heap (heap w ++ [a]) w))
    as (_ & Hlen & Hfo & _).
  cbn [heap with_heap attentionalFocus] in Hlen, Hfo.
  rewrite length_app in Hlen. cbn [length] in Hlen.
  split.
  - rewrite Hat. apply NoDup_app. split; [done|]. split.
    + intros x Hx Hx'. apply list_elem_of_singleton in Hx' as ->.
      apply Ha in Hx. lia.
    + apply NoDup_singleton.
  - intros r. rewrite Hat, Hlen, elem_of_app, list_elem_of_singleton.
    intros [Hr| ->]; [apply Ha in Hr|]; lia.
  - intros r. rewrite Hat, Hfo, elem_of_app. intros Hr. left. by apply Hf.
Qed.

Lemma addNode_well_formed ty nm t (w : World) :
  well_formed w -> well_formed (snd (addNode ty nm t w)).
Proof.
  intros Hwf. destruct (getNodeByName ty nm w) as [e|] eqn:E.
  - rewrite (addNode_existing ty nm t w e E). by apply overwrite_tv_well_formed.
  - rewrite (addNode_fresh ty nm t w E). by apply alloc_addAtom_well_formed.
Qed.

Lemma addLink_well_formed ty out t (w : World) :
  well_formed w -> well_formed (snd (addLink ty out t w)).
Proof.
  intros Hwf. destruct (getLinkByOutgoing ty out w) as [e|] eqn:E.
  - rewrite (addLink_existing ty out t w e E). by apply overwrite_tv_well_formed.
  - rewrite (addLink_fresh ty out t w E). by apply alloc_addAtom_well_formed.
Qed.

Lemma removeAtom_well_formed (id : ref) (w : World) :
  well_formed w -> well_formed (snd (removeAtom id w)).
Proof.
  intros [Hk Ha Hf].
  destruct (removeAtom_frame id w) as (_ & Hlen & [[_ ->]|(_ & Hat & Hfo & _)]).
  { done. }
  split.
  - rewrite Hat. by apply NoDup_Set_delete.
  - intros r. rewrite Hat, Hlen, elem_of_Set_delete. intros [Hr _]. by apply Ha.
  - intros r. rewrite Hat, Hfo, !elem_of_Set_delete. intros [Hr Hne].
    split; [by apply Hf|done].
Qed.

Lemma addToAttentionalFocus_well_formed (id : ref) (w : World) :
  well_formed w -> well_formed (snd (addToAttentionalFocus id w)).
Proof.
  intros [Hk Ha Hf]. unfold addToAttentionalFocus, hasAtom.
  destruct (bool_decide (id ∈ atoms w)) eqn:E; [|done].
  apply bool_decide_eq_true in E. split; cbn; try done.
  intros r Hr. apply elem_of_Set_add in Hr as [Hr| ->]; [by apply Hf|done].
Qed.

Lemma removeFromAttentionalFocus_well_formed (id : ref) (w : World) :
  well_formed w -> well_formed (removeFromAttentionalFocus id w).
Proof.
  intros [Hk Ha Hf]. split; cbn; try done.
  intros r Hr. apply elem_of_Set_delete in Hr as [Hr _]. by apply Hf.
Qed.

(** A change of STIs alone, or of the focus within the keys. *)
Lemma well_formed_of_same_keys (w w' : World) :
  well_formed w ->
  atoms w' = atoms w ->
  length (heap w') = length (heap w) ->
  focus_live w' ->
  well_formed w'.
Proof.
  intros [Hk Ha Hf] Hat Hlen Hfo. split; [by rewrite Hat| |done].
  intros r. rewrite Hat, Hlen. apply Ha.
Qed.

Lemma forget_fold_well_formed (l : list ref) (s : ECAN.System) :
  well_formed (fst s) -> well_formed (fst (foldl ECAN.forget_step s l)).
Proof.
  revert s. induction l as [|r l IH]; intros s Hwf; cbn [foldl]; [done|].
  apply IH. destruct s as [w e]. unfold ECAN.forget_step, ECAN.Math_random.
  destruct (Qltb _ _); [|done]. by apply removeAtom_well_formed.
Qed.

Lemma collectRent_well_formed (s : ECAN.System) :
  well_formed (fst s) -> well_formed (fst (ECAN.collectRent s)).
Proof.
  destruct s as [w e]. intros Hwf.
  destruct (collectRent_frame (w, e)) as (Hat & Hfo & _).
  apply (well_formed_of_same_keys w); try done.
  - unfold ECAN.collectRent.
    pose proof (rent_fold_length (ECAN.config e) (getAttentionalFocus w)
                  (heap w) (ECAN.currentSTIPool e)) as H.
    destruct (foldl _ _ _) as [h pool]. exact H.
  - intros r. rewrite Hfo, Hat. apply (wf_focus w Hwf).
Qed.

Lemma applySTIDecay_well_formed (s : ECAN.System) :
  well_formed (fst s) -> well_formed (fst (ECAN.applySTIDecay s)).
Proof.
  destruct s as [w e]. intros Hwf. unfold ECAN.applySTIDecay, getAllAtoms.
  destruct (decay_fold_spec (ECAN.config e) (atoms w) (heap w)
              (ECAN.currentSTIPool e) (wf_keys w Hwf)) as (Hlen & _).
  destruct (foldl _ _ _) as [h pool]. cbn [fst snd] in *.
  apply (well_formed_of_same_keys w); try done.
  intros r. apply (wf_focus w Hwf).
Qed.

Lemma spreadImportance_well_formed (s : ECAN.System) :
  well_formed (fst s) -> well_formed (fst (ECAN.spreadImportance s)).
Proof.
  intros Hwf. unfold ECAN.spreadImportance.
  assert (H : forall l acc, well_formed (fst (snd acc)) ->
            well_formed (fst (snd (foldl ECAN.spreadImportance_step acc l)))).
  { induction l as [|x l IH]; intros acc Hacc; cbn [foldl]; [done|].
    apply IH. destruct acc as [tot [w e]]. unfold ECAN.spreadImportance_step.
    cbn [fst snd] in *. destruct (Qltb _ _); [|done].
    pose proof (spreadFromAtom_frame x (w, e)) as (Hat & Hfo & _).
    pose proof (spreadFromAtom_length x w e) as Hlen.
    destruct (ECAN.spreadFromAtom x (w, e)) as [d [w' e']].
    cbn [fst snd] in *. apply (well_formed_of_same_keys w); try done.
    intros r. rewrite Hfo, Hat. apply (wf_focus w Hacc). }
  specialize (H (getAttentionalFocus (fst s)) (0, s) Hwf).
  destruct (foldl _ _ _) as [tot [w e]]. exact H.
Qed.

Lemma updateAttentionalFocus_well_formed (s : ECAN.System) :
  well_formed (fst s) -> well_formed (fst (ECAN.updateAttentionalFocus s)).
Proof.
  destruct s as [w e]. intros Hwf.
  destruct (updateAttentionalFocus_spec w e (wf_focus w Hwf))
    as (Hh & Hat & _ & _ & Hin).
  apply (well_formed_of_same_keys w); try done.
  - by rewrite Hh.
  - intros r Hr. rewrite Hat. by apply Hin.
Qed.

Lemma applyForgetting_well_formed (s : ECAN.System) :
  well_formed (fst s) -> well_formed (fst (ECAN.applyForgetting s)).
Proof.
  destruct s as [w e]. intros Hwf. unfold ECAN.applyForgetting.
  by apply forget_fold_well_formed.
Qed.

Lemma runCycle_well_formed (s : ECAN.System) :
  well_formed (fst s) -> well_formed (fst (ECAN.runCycle s)).
Proof.
  intros Hwf. unfold ECAN.runCycle.
  destruct (updateStatistics_frame
              (ECAN.applyForgetting
                 (ECAN.updateAttentionalFocus
                    (ECAN.spreadImportance
                       (ECAN.applySTIDecay
                          (ECAN.collectRent (ECAN.begin_cycle s)))))))
    as [-> _].
  apply applyForgetting_well_formed, updateAttentionalFocus_well_formed,
    spreadImportance_well_formed, applySTIDecay_well_formed,
    collectRent_well_formed.
  destruct (begin_cycle_frame s) as [-> _]. exact Hwf.
Qed.

Lemma perform_well_formed (op : ecan_operation) (w : World) (e : ECAN.t) :
  well_formed w -> well_formed (fst (perform op (w, e))).
Proof.
  intros Hwf. destruct op; cbn [perform].
  - by apply collectRent_well_formed.
  - by apply applySTIDecay_well_formed.
  - by apply spreadImportance_well_formed.
  - by apply updateAttentionalFocus_well_formed.
  - by apply applyForgetting_well_formed.
  - done.
  - by apply runCycle_well_formed.
  - unfold ECAN.stimulateAtom. destruct (getAtom atomId w); [|done].
    cbn [fst snd]. apply (well_formed_of_same_keys w); try done.
    + cbn. apply heap_setSTI_length.
    + intros r. apply (wf_focus w Hwf).
  - unfold ECAN.performHebbianLearning.
    destruct (getAtom atom1Id w); [|done].
    destruct (getAtom atom2Id w); [|done].
    destruct (ECAN.findHebbianLink atom1Id atom2Id w); [done|].
    pose proof (addLink_well_formed HEBBIAN_LINK [atom1Id; atom2Id]
                  (Some (new_TruthValue 0.1 0.1)) w Hwf) as H.
    destruct (addLink _ _ _ w) as [l w1]. exact H.
Qed.

(** X1.  Every graph reachable from the empty one by the operations of the
    store, of ECAN and of PLN is well formed: distinct keys, every key an
    allocated atom, and a focus that holds only keys. *)
Theorem reachable_well_formed (w : World) : reachable w -> well_formed w.
Proof.
  induction 1.
  - apply new_AtomSpace_well_formed.
  - by apply addNode_well_formed.
  - by apply addLink_well_formed.
  - by apply removeAtom_well_formed.
  - by apply addToAttentionalFocus_well_formed.
  - by apply removeFromAttentionalFocus_well_formed.
  - by apply perform_well_formed.
  - by rewrite performInference_inert.
Qed.

(** ** The order of the premises in a candidate *)

(** Every candidate takes its first premise from an earlier position of
    [getAllAtoms()] than its second. *)
Lemma candidate_pairs_in_order (w : World) (p1 p2 : PLN.Pattern)
    (l : list ref) (cand : PLN.Candidate) :
  cand ∈ PLN.candidate_pairs w p1 p2 l ->
  exists i j, (i < j)%nat
    /\ l !! i = Some (PLN.premise1 cand)
    /\ l !! j = Some (PLN.premise2 cand).
Proof.
  induction l as [|atom1 rest IH]; cbn [PLN.candidate_pairs].
  { intros H. by apply elem_of_nil in H. }
  rewrite elem_of_app. intros [H|H].
  - apply list_elem_of_fmap in H as (atom2 & -> & H).
    apply list_elem_of_In, filter_In in H as [H _].
    apply list_elem_of_In, list_elem_of_lookup in H as [k Hk].
    exists 0%nat, (S k). cbn. split; [lia|done].
  - destruct (IH H) as (i & j & Hij & Hi & Hj).
    exists (S i), (S j). cbn. split; [lia|done].
Qed.

(** X3.  When the keys of the graph are distinct, a pair of atoms and the
    same pair reversed are never both candidates of a rule. *)
Theorem candidates_never_hold_both_orders (rule : PLN.Rule) (w : World)
    (cand : PLN.Candidate) (tvs : option (list TruthValue)) :
  NoDup (atoms w) ->
  cand ∈ PLN.findRuleCandidates rule w ->
  PLN.mkCandidate (PLN.premise2 cand) (PLN.premise1 cand) tvs
  ∉ PLN.findRuleCandidates rule w.
Proof.
  intros Hnd Hin Hrev. unfold PLN.findRuleCandidates, getAllAtoms in *.
  destruct (PLN.pattern rule) as [[p1 p2]|]; [|by apply elem_of_nil in Hin].
  apply candidate_pairs_in_order in Hin as (i & j & Hij & Hi & Hj).
  apply candidate_pairs_in_order in Hrev as (i' & j' & Hij' & Hi' & Hj').
  cbn [PLN.premise1 PLN.premise2] in *.
  pose proof (NoDup_lookup _ _ _ _ Hnd Hi Hj').
  pose proof (NoDup_lookup _ _ _ _ Hnd Hj Hi').
  lia.
Qed.

Lemma candidates_never_hold_both_orders_witness :
  NoDup (atoms scenario_S1)
  /\ PLN.mkCandidate 3 4 None
     ∈ PLN.findRuleCandidates (PLN.deduction_rule TruthValue_getStrength)
         scenario_S1
  /\ PLN.mkCandidate
       (PLN.premise2 (PLN.mkCandidate 3 4 None))
       (PLN.premise1 (PLN.mkCandidate 3 4 None)) None
     ∉ PLN.findRuleCandidates (PLN.deduction_rule TruthValue_getStrength)
         scenario_S1.
Proof.
  assert (Hnd : NoDup (atoms scenario_S1)).
  { vm_compute. repeat (apply NoDup_cons_2; [by (vm_compute; intros H; repeat
      (apply elem_of_cons in H as [H|H]; [discriminate H|]);
      apply elem_of_nil in H)|]). apply NoDup_nil_2. }
  assert (Hin : PLN.mkCandidate 3 4 None
                ∈ PLN.findRuleCandidates
                    (PLN.deduction_rule TruthValue_getStrength) scenario_S1).
  { vm_compute. apply list_elem_of_here. }
  split; [exact Hnd|]. split; [exact Hin|].
  exact (candidates_never_hold_both_orders
           (PLN.deduction_rule TruthValue_getStrength) scenario_S1
           (PLN.mkCandidate 3 4 None) None Hnd Hin).
Defined.

Lemma reachable_well_formed_witness :
  reachable scenario_S4 /\ well_formed scenario_S4.
Proof.
  assert (H : reachable scenario_S4).
  { unfold scenario_S4, two_nodes. repeat constructor. }
  split; [exact H|]. exact (reachable_well_formed scenario_S4 H).
Defined.

Lemma stimulateAtom_clamps_at_maxSTI_witness :
  hasAtom 0 (fst one_node) = true
  /\ (0 < length (heap (fst one_node)))%nat
  /\ ECAN.maxSTI (ECAN.config (snd one_node))
     < getSTI (heap (fst one_node)) 0
       + num_or (Some 2000) (ECAN.stimulusAmount (ECAN.config (snd one_node)))
  /\ fst (ECAN.stimulateAtom 0 (Some 2000) (fst one_node, snd one_node)) = true
  /\ getSTI (heap (fst (snd (ECAN.stimulateAtom 0 (Some 2000)
                               (fst one_node, snd one_node))))) 0
     = ECAN.maxSTI (ECAN.config (snd one_node)).
Proof.
  assert (H1 : hasAtom 0 (fst one_node) = true) by (vm_compute; reflexivity).
  assert (H2 : (0 < length (heap (fst one_node)))%nat) by (vm_compute; lia).
  assert (H3 : ECAN.maxSTI (ECAN.config (snd one_node))
               < getSTI (heap (fst one_node)) 0
                 + num_or (Some 2000)
                     (ECAN.stimulusAmount (ECAN.config (snd one_node))))
    by (vm_compute; reflexivity).
  split; [exact H1|]. split; [exact H2|]. split; [exact H3|].
  exact (stimulateAtom_clamps_at_maxSTI (fst one_node) (snd one_node) 0
           (Some 2000) H1 H2 H3).
Defined.

(** ** Lists as insertion-ordered sets *)

Lemma Set_delete_filter (f : ref -> bool) (x : ref) (l : list ref) :
  Set_delete x (List.filter f l) = List.filter f (Set_delete x l).
Proof.
  unfold Set_delete. induction l as [|y l IH]; [done|].
  cbn [List.filter]. rewrite (filter_cons (fun y => y <> x) y l).
  destruct (f y) eqn:E.
  - rewrite filter_cons. destruct (decide (y <> x)).
    + cbn [List.filter]. rewrite E. by f_equal.
    + done.
  - destruct (decide (y <> x)); [|done].
    cbn [List.filter]. by rewrite E.
Qed.

Lemma Set_delete_notin (x : ref) (s : list ref) :
  x ∉ s -> Set_delete x s = s.
Proof.
  intros H. unfold Set_delete. induction s as [|y s IH]; [done|].
  rewrite filter_cons. apply not_elem_of_cons in H as [Hne Hs].
  destruct (decide (y <> x)) as [_|n]; [|destruct n; congruence].
  f_equal. by apply IH.
Qed.

Lemma Set_add_notin (x : ref) (s : list ref) :
  x ∉ s -> Set_add x s = s ++ [x].
Proof. intros H. unfold Set_add. by destruct (decide (x ∈ s)). Qed.

Lemma Set_add_in (x : ref) (s : list ref) :
  x ∈ s -> Set_add x s = s.
Proof. intros H. unfold Set_add. by destruct (decide (x ∈ s)). Qed.

Lemma elem_of_List_filter (f : ref -> bool) (l : list ref) (x : ref) :
  x ∈ List.filter f l <-> x ∈ l /\ f x = true.
Proof. by rewrite list_elem_of_In, filter_In, <- list_elem_of_In. Qed.

Lemma List_filter_snoc (f : ref -> bool) (l : list ref) (r : ref) :
  r ∉ l ->
  List.filter f (l ++ [r])
  = if f r then Set_add r (List.filter f l) else List.filter f l.
Proof.
  intros Hr. rewrite List.filter_app. cbn [List.filter].
  destruct (f r).
  - rewrite Set_add_notin; [done|].
    rewrite elem_of_List_filter. tauto.
  - by rewrite app_nil_r.
Qed.

Lemma List_filter_ext_elem (f g : ref -> bool) (l : list ref) :
  (forall x, x ∈ l -> f x = g x) -> List.filter f l = List.filter g l.
Proof.
  intros H. apply filter_ext_in. intros x Hx. apply H.
  by apply list_elem_of_In.
Qed.

(** ** The indexes *)

Lemma index_add_default `{Countable K} (k k' : K) (r : ref)
    (m : gmap K (list ref)) :
  default [] (index_add k r m !! k')
  = if decide (k' = k) then Set_add r (default [] (m !! k))
    else default [] (m !! k').
Proof.
  unfold index_add. destruct (decide (k' = k)) as [->|Hne].
  - by rewrite lookup_insert_eq.
  - by rewrite lookup_insert_ne.
Qed.

Lemma index_remove_prune_default `{Countable K} (k k' : K) (r : ref)
    (m : gmap K (list ref)) :
  default [] (index_remove_prune k r m !! k')
  = if decide (k' = k) then Set_delete r (default [] (m !! k))
    else default [] (m !! k').
Proof.
  unfold index_remove_prune. destruct (m !! k) as [s|] eqn:E.
  - destruct (Set_delete r s) as [|y s'] eqn:D.
    + destruct (decide (k' = k)) as [->|Hne].
      * by rewrite lookup_delete_eq.
      * by rewrite lookup_delete_ne.
    + destruct (decide (k' = k)) as [->|Hne].
      * by rewrite lookup_insert_eq.
      * by rewrite lookup_insert_ne.
  - destruct (decide (k' = k)) as [->|Hne]; [by rewrite E|done].
Qed.

Lemma index_remove_default `{Countable K} (k k' : K) (r : ref)
    (m : gmap K (list ref)) :
  default [] (index_remove k r m !! k')
  = if decide (k' = k) then Set_delete r (default [] (m !! k))
    else default [] (m !! k').
Proof.
  unfold index_remove. destruct (m !! k) as [s|] eqn:E.
  - destruct (decide (k' = k)) as [->|Hne].
    + by rewrite lookup_insert_eq.
    + by rewrite lookup_insert_ne.
  - destruct (decide (k' = k)) as [->|Hne]; [by rewrite E|done].
Qed.

(** ** The heap under methods that keep the static part *)

Lemma fmap_heap_alter {B} (g : Atom -> B) (f : Atom -> Atom) (r : ref)
    (h : list Atom) :
  (forall a, g (f a) = g a) -> g <$> heap_alter f r h = g <$> h.
Proof.
  intros Hg. unfold heap_alter. revert r.
  induction h as [|a h IH]; intros [|r]; cbn; try done.
  - by rewrite Hg.
  - by rewrite IH.
Qed.

Lemma static_of_but_sti (h h' : list Atom) :
  but_sti <$> h' = but_sti <$> h -> static <$> h' = static <$> h.
Proof.
  intros H.
  assert (E : forall l : list Atom,
             static <$> l
             = (fun x : string * option string * list ref * TruthValue
                          * (Q * bool) * list ref =>
                  (fst (fst (fst (fst (fst x)))), snd (fst (fst (fst (fst x)))),
                   snd (fst (fst (fst x))))) <$> (but_sti <$> l)).
  { intros l. rewrite <- list_fmap_compose. by apply list_fmap_ext. }
  by rewrite (E h'), (E h), H.
Qed.

Lemma lookup_static (h h' : list Atom) (r : ref) :
  static <$> h' = static <$> h -> static <$> h' !! r = static <$> h !! r.
Proof. intros H. by rewrite <- !list_lookup_fmap, H. Qed.

Lemma tests_of_static (h h' : list Atom) :
  static <$> h' = static <$> h ->
  (forall ty r, has_type h' ty r = has_type h ty r)
  /\ (forall n r, is_node_named h' n r = is_node_named h n r)
  /\ (forall o r, points_to h' o r = points_to h o r).
Proof.
  intros H.
  assert (L := fun r => lookup_static h h' r H).
  repeat split; intros k r; specialize (L r);
    unfold has_type, is_node_named, points_to, isNode;
    destruct (h' !! r) as [a'|], (h !! r) as [a|]; try done;
    cbn in L; unfold static in L; injection L as E1 E2 E3;
    rewrite ?E1, ?E2, ?E3; done.
Qed.

Lemma tests_of_alloc (h : list Atom) (a : Atom) (r : ref) :
  (r < length h)%nat ->
  (forall ty, has_type (h ++ [a]) ty r = has_type h ty r)
  /\ (forall n, is_node_named (h ++ [a]) n r = is_node_named h n r)
  /\ (forall o, points_to (h ++ [a]) o r = points_to h o r).
Proof.
  intros Hr. unfold has_type, is_node_named, points_to.
  by rewrite lookup_app_l.
Qed.

(** ** [addAtom] and [removeAtom] on the indexes *)

Lemma Set_add_idem (x : ref) (s : list ref) :
  Set_add x (Set_add x s) = Set_add x s.
Proof. apply Set_add_in. apply elem_of_Set_add. by right. Qed.

Lemma foldl_wire_incoming_index (id : ref) (l : list ref) (w : World) (o : ref) :
  default [] (incomingIndex (foldl (wire_incoming id) w l) !! o)
  = if decide (o ∈ l) then Set_add id (default [] (incomingIndex w !! o))
    else default [] (incomingIndex w !! o).
Proof.
  revert w. induction l as [|x l IH]; intros w; cbn [foldl].
  - by rewrite decide_False by apply not_elem_of_nil.
  - rewrite IH.
    change (incomingIndex (wire_incoming id w x))
      with (index_add x id (incomingIndex w)).
    rewrite index_add_default.
    destruct (decide (o = x)) as [->|Hne].
    + rewrite (decide_True (P := x ∈ x :: l)) by apply list_elem_of_here.
      destruct (decide (x ∈ l)); [by rewrite Set_add_idem|done].
    + destruct (decide (o ∈ l)) as [Hin|Hout].
      * by rewrite decide_True by (by apply list_elem_of_further).
      * rewrite decide_False; [done|].
        intros Hin. apply elem_of_cons in Hin as [?|?]; done.
Qed.

Lemma foldl_wire_incoming_static (id : ref) (l : list ref) (w : World) :
  static <$> heap (foldl (wire_incoming id) w l) = static <$> heap w.
Proof.
  revert w. induction l as [|x l IH]; intros w; cbn [foldl]; [done|].
  rewrite IH. unfold wire_incoming. cbn [heap].
  by apply fmap_heap_alter.
Qed.

Lemma foldl_unwire_incoming_index (id : ref) (l : list ref) (w : World) (o : ref) :
  default [] (incomingIndex (foldl (unwire_incoming id) w l) !! o)
  = if decide (o ∈ l) then Set_delete id (default [] (incomingIndex w !! o))
    else default [] (incomingIndex w !! o).
Proof.
  revert w. induction l as [|x l IH]; intros w; cbn [foldl].
  - by rewrite decide_False by apply not_elem_of_nil.
  - rewrite IH.
    change (incomingIndex (unwire_incoming id w x))
      with (index_remove x id (incomingIndex w)).
    rewrite index_remove_default.
    destruct (decide (o = x)) as [->|Hne].
    + rewrite (decide_True (P := x ∈ x :: l)) by apply list_elem_of_here.
      destruct (decide (x ∈ l)); [|done].
      apply Set_delete_notin. rewrite elem_of_Set_delete. tauto.
    + destruct (decide (o ∈ l)) as [Hin|Hout].
      * by rewrite decide_True by (by apply list_elem_of_further).
      * rewrite decide_False; [done|].
        intros Hin. apply elem_of_cons in Hin as [?|?]; done.
Qed.

Lemma foldl_unwire_incoming_rest (id : ref) (l : list ref) (w : World) :
  static <$> heap (foldl (unwire_incoming id) w l) = static <$> heap w
  /\ typeIndex (foldl (unwire_incoming id) w l) = typeIndex w
  /\ nameIndex (foldl (unwire_incoming id) w l) = nameIndex w.
Proof.
  revert w. induction l as [|x l IH]; intros w; cbn [foldl]; [done|].
  destruct (IH (unwire_incoming id w x)) as (-> & -> & ->).
  unfold unwire_incoming. cbn [heap typeIndex nameIndex].
  split; [|done]. by apply fmap_heap_alter.
Qed.

Lemma foldl_drop_incoming_reference_static (id : ref) (live l : list ref)
    (h : list Atom) :
  static <$> foldl (drop_incoming_reference id live) h l = static <$> h.
Proof.
  revert h. induction l as [|x l IH]; intros h; cbn [foldl]; [done|].
  rewrite IH. unfold drop_incoming_reference.
  destruct (bool_decide (x ∈ live)); [|done].
  by apply fmap_heap_alter.
Qed.

(** What [removeAtom] does to the indexes when the atom is there. *)
Lemma removeAtom_spec (id : ref) (w : World) (a : Atom) :
  getAtom id w = Some a ->
  fst (removeAtom id w) = true
  /\ atoms (snd (removeAtom id w)) = Set_delete id (atoms w)
  /\ size (snd (removeAtom id w)) = (size w - 1)%Z
  /\ typeIndex (snd (removeAtom id w))
     = index_remove_prune (atom_type a) id (typeIndex w)
  /\ nameIndex (snd (removeAtom id w))
     = (if truthy_name (atom_name a)
        then index_remove_prune (default EmptyString (atom_name a)) id
               (nameIndex w)
        else nameIndex w)
  /\ (forall o, o <> id ->
        default [] (incomingIndex (snd (removeAtom id w)) !! o)
        = if decide (o ∈ outgoing a)
          then Set_delete id (default [] (incomingIndex w !! o))
          else default [] (incomingIndex w !! o))
  /\ static <$> heap (snd (removeAtom id w)) = static <$> heap w.
Proof.
  intros Hget. unfold removeAtom. rewrite Hget. cbn [fst snd].
  set (w1 := mkW (heap w) (atoms w)
               (index_remove_prune (atom_type a) id (typeIndex w))
               (if truthy_name (atom_name a)
                then index_remove_prune (default EmptyString (atom_name a)) id
                       (nameIndex w)
                else nameIndex w)
               (incomingIndex w) (Set_delete id (attentionalFocus w)) (size w)).
  set (w2 := foldl (unwire_incoming id) w1 (outgoing a)).
  destruct (foldl_unwire_incoming_frame id (outgoing a) w1)
    as (Hat & _ & Hsz & _ & _).
  destruct (foldl_unwire_incoming_rest id (outgoing a) w1)
    as (Hst & Hty & Hnm).
  fold w2 in Hat, Hsz, Hst, Hty, Hnm.
  assert (Hinc : forall o,
            default [] (incomingIndex w2 !! o)
            = if decide (o ∈ outgoing a)
              then Set_delete id (default [] (incomingIndex w !! o))
              else default [] (incomingIndex w !! o)).
  { intros o. unfold w2. by rewrite foldl_unwire_incoming_index. }
  split; [done|].
  destruct (incomingIndex w2 !! id) as [s|] eqn:E; cbn [atoms size typeIndex
    nameIndex incomingIndex heap].
  - rewrite Hat, Hsz, Hty, Hnm. cbn [atoms size typeIndex nameIndex w1].
    repeat (split; [done|]). split.
    + intros o Ho. rewrite lookup_delete_ne by done. apply Hinc.
    + by rewrite foldl_drop_incoming_reference_static, Hst.
  - rewrite Hat, Hsz, Hty, Hnm. cbn [atoms size typeIndex nameIndex w1].
    repeat (split; [done|]). by rewrite Hst.
Qed.

(** What [addAtom] does to the incoming index and to the heap when the atom
    is new. *)
Lemma alloc_addAtom_incoming (a : Atom) (w : World) :
  allocated w ->
  let w1 := snd (addAtom (length (heap w)) (with_heap (heap w ++ [a]) w)) in
  (forall o,
     default [] (incomingIndex w1 !! o)
     = if decide (o ∈ outgoing a)
       then Set_add (length (heap w)) (default [] (incomingIndex w !! o))
       else default [] (incomingIndex w !! o))
  /\ static <$> heap w1 = static <$> (heap w ++ [a]).
Proof.
  intros Halloc w1.
  assert (Hfresh : length (heap w) ∉ atoms w).
  { intros Hin. apply Halloc in Hin. lia. }
  assert (Hlook : (heap w ++ [a]) !! length (heap w) = Some a).
  { by rewrite list_lookup_middle. }
  unfold w1, addAtom. cbn [heap with_heap]. rewrite Hlook.
  unfold hasAtom. cbn [atoms with_heap].
  rewrite bool_decide_eq_false_2 by done. cbn [fst snd].
  split.
  - intros o. by rewrite foldl_wire_incoming_index.
  - by rewrite foldl_wire_incoming_static.
Qed.

(** ** The invariant under each operation of the store *)

Lemma new_AtomSpace_consistent : consistent new_AtomSpace.
Proof.
  split; [apply new_AtomSpace_well_formed| |].
  - split; cbn; try done. intros n. by destruct (decide _).
  - intros r1 r2 a1 a2 H. by apply elem_of_nil in H.
Qed.

Lemma length_of_static (h h' : list Atom) :
  static <$> h' = static <$> h -> length h' = length h.
Proof. intros H. by rewrite <- (length_fmap static h'), H, length_fmap. Qed.

(** An operation that leaves keys, indexes and static parts alone. *)
Lemma consistent_static (w w' : World) :
  consistent w ->
  atoms w' = atoms w ->
  typeIndex w' = typeIndex w ->
  nameIndex w' = nameIndex w ->
  incomingIndex w' = incomingIndex w ->
  size w' = size w ->
  static <$> heap w' = static <$> heap w ->
  focus_live w' ->
  consistent w'.
Proof.
  intros [Hwf [Hsz Hty Hnm Hin] Hdd] Eat Ety Enm Ein Esz Est Hfo.
  destruct (tests_of_static _ _ Est) as (T1 & T2 & T3).
  assert (Hlen := length_of_static _ _ Est).
  split.
  - by apply (well_formed_of_same_keys w).
  - split.
    + by rewrite Esz, Eat.
    + intros ty. rewrite Ety, Eat, Hty. by apply List_filter_ext_elem.
    + intros n. rewrite Enm, Eat, Hnm. destruct (decide _); [done|].
      by apply List_filter_ext_elem.
    + intros o. rewrite Ein, Eat, Hlen. intros Ho. rewrite (Hin o Ho).
      by apply List_filter_ext_elem.
  - intros r1 r2 a1 a2. rewrite Eat. intros H1 H2 L1 L2.
    assert (S1 := lookup_static _ _ r1 Est).
    assert (S2 := lookup_static _ _ r2 Est).
    rewrite L1 in S1. rewrite L2 in S2.
    destruct (heap w !! r1) as [b1|] eqn:B1; [|done].
    destruct (heap w !! r2) as [b2|] eqn:B2; [|done].
    cbn in S1, S2. unfold static in S1, S2.
    injection S1 as E1 E2 E3. injection S2 as E4 E5 E6.
    intros Ht Ho Hc.
    apply (Hdd r1 r2 b1 b2); try done; try congruence.
Qed.

Lemma consistent_same_graph (w w' : World) :
  consistent w -> same_graph w w' -> focus_live w' -> consistent w'.
Proof.
  intros Hc [Eat Ety Enm Ein Esz Eh] Hfo.
  apply (consistent_static w); try done. by apply static_of_but_sti.
Qed.

Lemma overwrite_tv_incoming (e : ref) (t : option TruthValue) (w : World) :
  incomingIndex (overwrite_tv e t w) = incomingIndex w
  /\ static <$> heap (overwrite_tv e t w) = static <$> heap w.
Proof.
  unfold overwrite_tv. destruct t as [v|]; [|done]. cbn. split; [done|].
  by apply fmap_heap_alter.
Qed.

Lemma overwrite_tv_consistent (e : ref) (t : option TruthValue) (w : World) :
  consistent w -> consistent (overwrite_tv e t w).
Proof.
  intros Hc.
  destruct (overwrite_tv_frame e t w) as (_ & _ & Hat & Hfo & Hsz & Hty & Hnm).
  destruct (overwrite_tv_incoming e t w) as (Hin & Hst).
  apply (consistent_static w); try done.
  intros x. rewrite Hfo, Hat. apply Hc.
Qed.

(** The lookups behind the de-duplication, read through the indexes. *)
Lemma getAtom_of_key (w : World) (r : ref) (a : Atom) :
  r ∈ atoms w -> heap w !! r = Some a -> getAtom r w = Some a.
Proof.
  intros Hr Ha. unfold getAtom, hasAtom. by rewrite bool_decide_eq_true_2.
Qed.

Lemma getNodeByName_None_spec (ty n : string) (w : World) :
  indexed w -> n <> EmptyString ->
  getNodeByName ty (Some n) w = None ->
  forall r a, r ∈ atoms w -> heap w !! r = Some a ->
    isNode a = true -> atom_name a = Some n -> atom_type a <> ty.
Proof.
  intros Hix Hn Hnone r a Hr Ha Hnode Hname Hty.
  assert (Hin : r ∈ default [] (nameIndex w !! n)).
  { rewrite (ix_name w Hix). rewrite decide_False by done.
    apply elem_of_List_filter. split; [done|].
    unfold is_node_named. rewrite Ha, Hnode.
    by rewrite bool_decide_eq_true_2. }
  unfold getNodeByName in Hnone.
  destruct (nameIndex w !! n) as [s|]; [|by apply elem_of_nil in Hin].
  cbn in Hin. apply (find_none_elem _ _ r) in Hnone; [|done].
  cbn beta in Hnone. rewrite (getAtom_of_key w r a Hr Ha) in Hnone.
  by apply bool_decide_eq_false in Hnone.
Qed.

Lemma getLinkByOutgoing_None_spec (ty : string) (out : list ref) (w : World) :
  indexed w ->
  getLinkByOutgoing ty out w = None ->
  forall r a, r ∈ atoms w -> heap w !! r = Some a ->
    atom_type a = ty -> outgoing a = out -> out = [].
Proof.
  intros Hix Hnone r a Hr Ha Hty Hout.
  assert (Hin : r ∈ default [] (typeIndex w !! ty)).
  { rewrite (ix_type w Hix). apply elem_of_List_filter. split; [done|].
    unfold has_type. rewrite Ha. by rewrite bool_decide_eq_true_2. }
  unfold getLinkByOutgoing in Hnone.
  destruct (typeIndex w !! ty) as [s|]; [|by apply elem_of_nil in Hin].
  cbn in Hin. apply (find_none_elem _ _ r) in Hnone; [|done].
  cbn beta in Hnone. rewrite (getAtom_of_key w r a Hr Ha) in Hnone.
  unfold arraysEqual in Hnone. rewrite bool_decide_eq_true_2 in Hnone by done.
  rewrite andb_true_r in Hnone. unfold isLink in Hnone.
  apply Nat.ltb_ge in Hnone. rewrite Hout in Hnone.
  destruct out; [done|cbn in Hnone; lia].
Qed.

Lemma alloc_addAtom_consistent (a : Atom) (w : World) :
  consistent w -> unlike w a ->
  consistent (snd (addAtom (length (heap w)) (with_heap (heap w ++ [a]) w))).
Proof.
  intros [Hwf [Hsz Hty Hnm Hin] Hdd] Hnew.
  assert (Halloc := wf_allocated w Hwf).
  destruct (alloc_addAtom_spec a w Halloc) as (_ & Eat & Esz & Ety & Enm & _).
  destruct (alloc_addAtom_incoming a w Halloc) as (Ein & Est).
  cbn zeta in Eat, Esz, Ety, Enm, Ein, Est.
  set (r := length (heap w)) in *.
  set (w1 := snd (addAtom r (with_heap (heap w ++ [a]) w))) in *.
  assert (Hfresh : r ∉ atoms w).
  { intros Hr. apply Halloc in Hr. unfold r in Hr. lia. }
  destruct (tests_of_static _ _ Est) as (T1 & T2 & T3).
  assert (Hlook : (heap w ++ [a]) !! r = Some a).
  { unfold r. by rewrite list_lookup_middle. }
  assert (Hold : forall x, x ∈ atoms w ->
            (forall ty, has_type (heap w1) ty x = has_type (heap w) ty x)
            /\ (forall n, is_node_named (heap w1) n x
                          = is_node_named (heap w) n x)
            /\ (forall o, points_to (heap w1) o x = points_to (heap w) o x)).
  { intros x Hx. apply Halloc in Hx.
    destruct (tests_of_alloc (heap w) a x Hx) as (A1 & A2 & A3).
    repeat split; intros k; by rewrite ?T1, ?T2, ?T3, ?A1, ?A2, ?A3. }
  assert (Hlen : length (heap w1) = S r).
  { rewrite (length_of_static _ _ Est), length_app. cbn. unfold r. lia. }
  split.
  - by apply alloc_addAtom_well_formed.
  - split.
    + rewrite Esz, Eat, length_app, Hsz. cbn. lia.
    + intros ty. rewrite Ety, Eat, index_add_default, List_filter_snoc by done.
      rewrite (List_filter_ext_elem (has_type (heap w1) ty) (has_type (heap w) ty))
        by (intros x Hx; apply (Hold x Hx)).
      rewrite T1. unfold has_type at 1. rewrite Hlook.
      destruct (decide (ty = atom_type a)) as [->|Hne].
      * rewrite bool_decide_eq_true_2 by done. by rewrite Hty.
      * rewrite bool_decide_eq_false_2 by congruence. apply Hty.
    + intros n. rewrite Enm, Eat, List_filter_snoc by done.
      rewrite (List_filter_ext_elem (is_node_named (heap w1) n)
                 (is_node_named (heap w) n))
        by (intros x Hx; apply (Hold x Hx)).
      rewrite T2. unfold is_node_named at 1. rewrite Hlook.
      destruct (isNode a) eqn:Enode; cbn [andb].
      * destruct (atom_name a) as [m|] eqn:Ename; cbn [truthy_name default].
        -- destruct m as [|c m'] eqn:Em; cbn [truthy_name].
           ++ rewrite Hnm. destruct (decide (n = EmptyString)) as [->|Hne];
                [done|].
              rewrite bool_decide_eq_false_2; [done|]. congruence.
           ++ rewrite index_add_default. unfold id.
              destruct (decide (n = String c m')) as [->|Hne].
              ** rewrite decide_False by done.
                 rewrite bool_decide_eq_true_2 by done.
                 rewrite Hnm. by rewrite decide_False.
              ** rewrite bool_decide_eq_false_2 by congruence. apply Hnm.
        -- rewrite bool_decide_eq_false_2 by done. apply Hnm.
      * apply Hnm.
    + intros o Ho. rewrite Ein, Eat, List_filter_snoc by done.
      rewrite (List_filter_ext_elem (points_to (heap w1) o)
                 (points_to (heap w) o))
        by (intros x Hx; apply (Hold x Hx)).
      rewrite T3. unfold points_to at 1. rewrite Hlook.
      assert (Ho' : o ∈ atoms w \/ (length (heap w) <= o)%nat).
      { rewrite Eat, Hlen, elem_of_app, list_elem_of_singleton in Ho.
        destruct Ho as [[Ho|Ho]|Ho]; [by left| |]; right; unfold r in Ho; lia. }
      rewrite (Hin o Ho').
      destruct (decide (o ∈ outgoing a)).
      * by rewrite bool_decide_eq_true_2.
      * by rewrite bool_decide_eq_false_2.
  - intros r1 r2 a1 a2. rewrite Eat, !elem_of_app, !list_elem_of_singleton.
    intros H1 H2 L1 L2.
    assert (Sx : forall x b, heap w1 !! x = Some b ->
              (x ∈ atoms w -> exists b', heap w !! x = Some b'
                                /\ static b' = static b)
              /\ (x = r -> static b = static a)).
    { intros x b Lx. assert (Sx := lookup_static _ _ x Est).
      rewrite Lx in Sx. split.
      - intros Hx. apply Halloc in Hx. rewrite lookup_app_l in Sx by done.
        destruct (heap w !! x) as [b'|]; [|done]. exists b'. split; [done|].
        cbn in Sx. congruence.
      - intros ->. rewrite Hlook in Sx. cbn in Sx. congruence. }
    destruct (Sx r1 a1 L1) as (O1 & N1). destruct (Sx r2 a2 L2) as (O2 & N2).
    unfold static in *.
    intros Ht Ho Hc.
    destruct H1 as [H1|H1], H2 as [H2|H2].
    + destruct (O1 H1) as (b1 & B1 & S1). destruct (O2 H2) as (b2 & B2 & S2).
      injection S1 as E1 E2 E3. injection S2 as E4 E5 E6.
      destruct Hc as [Hc|[Hc1 Hc2]];
        apply (Hdd r1 r2 b1 b2);
        first [done | congruence | (left; congruence)
              | (right; split; congruence)].
    + destruct (O1 H1) as (b1 & B1 & S1). specialize (N2 H2).
      injection S1 as E1 E2 E3. injection N2 as E4 E5 E6.
      exfalso.
      destruct Hc as [Hc|[Hc1 Hc2]];
        apply (Hnew r1 b1 H1 B1);
        first [done | congruence | (left; congruence)
              | (right; split; congruence)].
    + destruct (O2 H2) as (b2 & B2 & S2). specialize (N1 H1).
      injection S2 as E1 E2 E3. injection N1 as E4 E5 E6.
      exfalso.
      destruct Hc as [Hc|[Hc1 Hc2]];
        apply (Hnew r2 b2 H2 B2);
        first [done | congruence | (left; congruence)
              | (right; split; congruence)].
    + congruence.
Qed.

Lemma addNode_consistent ty nm t (w : World) :
  consistent w -> consistent (snd (addNode ty nm t w)).
Proof.
  intros Hc. destruct (getNodeByName ty nm w) as [e|] eqn:E.
  - rewrite (addNode_existing ty nm t w e E). by apply overwrite_tv_consistent.
  - rewrite (addNode_fresh ty nm t w E). apply alloc_addAtom_consistent; [done|].
    intros r a' Hr Ha Hty Hout [Hnil|[Hname Htruthy]]; [done|].
    cbn in Hty, Hout, Hname, Htruthy.
    destruct nm as [n|]; [|done].
    assert (Hn : n <> EmptyString) by (by intros ->).
    apply (getNodeByName_None_spec ty n w (cs_indexed w Hc) Hn E r a'); try done.
    unfold isNode. by rewrite Hout.
Qed.

Lemma addLink_consistent ty out t (w : World) :
  consistent w -> consistent (snd (addLink ty out t w)).
Proof.
  intros Hc. destruct (getLinkByOutgoing ty out w) as [e|] eqn:E.
  - rewrite (addLink_existing ty out t w e E). by apply overwrite_tv_consistent.
  - rewrite (addLink_fresh ty out t w E). apply alloc_addAtom_consistent; [done|].
    intros r a' Hr Ha Hty Hout [Hnil|[Hname Htruthy]]; [|done].
    cbn in Hty, Hout, Hnil. apply Hnil.
    by apply (getLinkByOutgoing_None_spec ty out w (cs_indexed w Hc) E r a').
Qed.

Lemma removeAtom_consistent (id : ref) (w : World) :
  consistent w -> consistent (snd (removeAtom id w)).
Proof.
  intros Hc. destruct (getAtom id w) as [a|] eqn:Hget.
  2:{ unfold removeAtom. by rewrite Hget. }
  destruct Hc as [Hwf [Hsz Hty Hnm Hin] Hdd].
  destruct (removeAtom_spec id w a Hget)
    as (_ & Eat & Esz & Ety & Enm & Ein & Est).
  set (w' := snd (removeAtom id w)) in *.
  destruct (tests_of_static _ _ Est) as (T1 & T2 & T3).
  assert (Hlen := length_of_static _ _ Est).
  assert (Hid : id ∈ atoms w /\ heap w !! id = Some a).
  { unfold getAtom, hasAtom in Hget.
    destruct (bool_decide (id ∈ atoms w)) eqn:B; [|done].
    by apply bool_decide_eq_true in B. }
  destruct Hid as [Hid Ha].
  assert (Hk := wf_keys w Hwf).
  split.
  - by apply removeAtom_well_formed.
  - split.
    + rewrite Esz, Eat, Hsz. unfold Set_delete.
      assert (L : (length (filter (fun y => y <> id) (atoms w))
                   = length (atoms w) - 1)%nat).
      { clear -Hid Hk. induction (atoms w) as [|y l IH]; [by apply elem_of_nil in Hid|].
        apply NoDup_cons in Hk as [Hy Hk]. rewrite filter_cons.
        destruct (decide (y <> id)) as [Hne|Heq].
        - apply elem_of_cons in Hid as [->|Hid]; [done|].
          cbn [length]. rewrite IH by done.
          destruct l; [by apply elem_of_nil in Hid|cbn; lia].
        - assert (y = id) as -> by (destruct (decide (y = id)); tauto).
          fold (Set_delete id l). rewrite Set_delete_notin by done.
          cbn. lia. }
      rewrite L. assert (0 < length (atoms w))%nat; [|lia].
      destruct (atoms w); [by apply elem_of_nil in Hid|cbn; lia].
    + intros ty. rewrite Ety, Eat, index_remove_prune_default.
      rewrite <- Set_delete_filter.
      rewrite (List_filter_ext_elem (has_type (heap w') ty) (has_type (heap w) ty))
        by (intros; apply T1).
      destruct (decide (ty = atom_type a)) as [->|Hne]; [by rewrite Hty|].
      rewrite Hty. symmetry. apply Set_delete_notin.
      rewrite elem_of_List_filter. unfold has_type. rewrite Ha.
      intros [_ B]. apply bool_decide_eq_true in B. congruence.
    + intros n. rewrite Enm, Eat.
      rewrite <- Set_delete_filter.
      rewrite (List_filter_ext_elem (is_node_named (heap w') n)
                 (is_node_named (heap w) n)) by (intros; apply T2).
      assert (Hno : n <> default EmptyString (atom_name a)
                    \/ truthy_name (atom_name a) = false ->
                    default [] (nameIndex w !! n)
                    = if decide (n = EmptyString) then []
                      else Set_delete id
                             (List.filter (is_node_named (heap w) n) (atoms w))).
      { intros Hcase. rewrite Hnm. destruct (decide _); [done|].
        symmetry. apply Set_delete_notin.
        rewrite elem_of_List_filter. unfold is_node_named. rewrite Ha.
        intros [_ B]. apply andb_true_iff in B as [_ B].
        apply bool_decide_eq_true in B. rewrite B in Hcase. cbn in Hcase.
        destruct Hcase as [?|Hcase]; [done|].
        destruct n; [done|discriminate]. }
      destruct (truthy_name (atom_name a)) eqn:Etr.
      * rewrite index_remove_prune_default.
        destruct (decide (n = default EmptyString (atom_name a))) as [->|Hne].
        -- rewrite Hnm. by destruct (decide _).
        -- apply Hno. by left.
      * apply Hno. by right.
    + intros o Ho. rewrite Eat, Hlen in Ho.
      assert (Hne : o <> id).
      { intros ->. destruct Ho as [Ho|Ho].
        - apply elem_of_Set_delete in Ho. tauto.
        - apply (wf_allocated w Hwf) in Hid. lia. }
      assert (Ho' : o ∈ atoms w \/ (length (heap w) <= o)%nat).
      { destruct Ho as [Ho|Ho]; [left|by right].
        apply elem_of_Set_delete in Ho. tauto. }
      rewrite (Ein o Hne), Eat, (Hin o Ho'), <- Set_delete_filter.
      rewrite (List_filter_ext_elem (points_to (heap w') o) (points_to (heap w) o))
        by (intros; apply T3).
      destruct (decide (o ∈ outgoing a)); [done|].
      symmetry. apply Set_delete_notin.
      rewrite elem_of_List_filter. unfold points_to. rewrite Ha.
      intros [_ B]. by apply bool_decide_eq_true in B.
  - intros r1 r2 a1 a2. rewrite Eat, !elem_of_Set_delete.
    intros [H1 _] [H2 _] L1 L2.
    assert (S1 := lookup_static _ _ r1 Est).
    assert (S2 := lookup_static _ _ r2 Est).
    rewrite L1 in S1. rewrite L2 in S2.
    destruct (heap w !! r1) as [b1|] eqn:B1; [|done].
    destruct (heap w !! r2) as [b2|] eqn:B2; [|done].
    cbn in S1, S2. unfold static in S1, S2.
    injection S1 as E1 E2 E3. injection S2 as E4 E5 E6.
    intros Ht Ho Hc.
    destruct Hc as [Hc|[Hc1 Hc2]];
      apply (Hdd r1 r2 b1 b2);
      first [done | congruence | (left; congruence)
            | (right; split; congruence)].
Qed.

Lemma addToAttentionalFocus_consistent (id : ref) (w : World) :
  consistent w -> consistent (snd (addToAttentionalFocus id w)).
Proof.
  intros Hc. apply (consistent_static w); try done;
    try (unfold addToAttentionalFocus; by destruct (hasAtom id w)).
  apply (wf_focus _ (addToAttentionalFocus_well_formed id w (cs_wf w Hc))).
Qed.

Lemma removeFromAttentionalFocus_consistent (id : ref) (w : World) :
  consistent w -> consistent (removeFromAttentionalFocus id w).
Proof.
  intros Hc. apply (consistent_static w); try done.
  apply (wf_focus _ (removeFromAttentionalFocus_well_formed id w (cs_wf w Hc))).
Qed.

(** ** The invariant under the operations of ECAN *)

Section EngineStore.
Import ECAN.

Lemma same_graph_refl (w : World) : same_graph w w.
Proof. by split. Qed.

Lemma same_graph_trans (w1 w2 w3 : World) :
  same_graph w1 w2 -> same_graph w2 w3 -> same_graph w1 w3.
Proof. intros [] []. split; congruence. Qed.

Lemma but_sti_heap_setSTI (r : ref) (v : Q) (h : list Atom) :
  but_sti <$> heap_setSTI r v h = but_sti <$> h.
Proof. unfold heap_setSTI. by apply fmap_heap_alter. Qed.

Lemma same_graph_with_heap (h : list Atom) (w : World) :
  but_sti <$> h = but_sti <$> heap w -> same_graph w (with_heap h w).
Proof. intros H. by split. Qed.

Lemma rent_fold_but_sti (c : Config) (l : list ref) (h : list Atom) (pool : Q) :
  but_sti <$> fst (foldl (rent_step c) (h, pool) l) = but_sti <$> h.
Proof.
  revert h pool. induction l as [|x l IH]; intros h pool; cbn [foldl]; [done|].
  unfold rent_step at 2. rewrite IH. apply but_sti_heap_setSTI.
Qed.

Lemma decay_fold_but_sti (c : Config) (l : list ref) (h : list Atom) (pool : Q) :
  but_sti <$> fst (foldl (decay_step c) (h, pool) l) = but_sti <$> h.
Proof.
  revert h pool. induction l as [|x l IH]; intros h pool; cbn [foldl]; [done|].
  destruct (decay_step c (h, pool) x) as [h1 p1] eqn:E. rewrite IH.
  unfold decay_step in E. destruct (Qltb _ _); inversion E; subst; [|done].
  apply but_sti_heap_setSTI.
Qed.

Lemma spread_fold_but_sti (amt : Q) (l : list ref) (h : list Atom) (e : t)
    (tot : Q) :
  but_sti <$> fst (fst (foldl (spread_step amt) (h, e, tot) l)) = but_sti <$> h.
Proof.
  revert h e tot. induction l as [|x l IH]; intros h e tot; cbn [foldl]; [done|].
  destruct (spread_step amt (h, e, tot) x) as [[h1 e1] t1] eqn:E.
  rewrite IH. unfold spread_step, Math_random in E.
  destruct (Qltb _ _); inversion E; subst; [apply but_sti_heap_setSTI|done].
Qed.

Lemma collectRent_same_graph (s : System) :
  same_graph (fst s) (fst (collectRent s)).
Proof.
  destruct s as [w e]. unfold collectRent.
  pose proof (rent_fold_but_sti (config e) (getAttentionalFocus w) (heap w)
                (currentSTIPool e)) as H.
  destruct (foldl _ _ _) as [h pool]. by apply same_graph_with_heap.
Qed.

Lemma applySTIDecay_same_graph (s : System) :
  same_graph (fst s) (fst (applySTIDecay s)).
Proof.
  destruct s as [w e]. unfold applySTIDecay.
  pose proof (decay_fold_but_sti (config e) (getAllAtoms w) (heap w)
                (currentSTIPool e)) as H.
  destruct (foldl _ _ _) as [h pool]. by apply same_graph_with_heap.
Qed.

Lemma spreadFromAtom_same_graph (r : ref) (s : System) :
  same_graph (fst s) (fst (snd (spreadFromAtom r s))).
Proof.
  destruct s as [w e]. unfold spreadFromAtom.
  destruct (Qltb _ 1); [apply same_graph_refl|].
  destruct (connectedAtoms r w) as [|x l]; [apply same_graph_refl|].
  pose proof (spread_fold_but_sti
                (getSTI (heap w) r * diffusionRate (config e)
                 / inject_Z (Z.of_nat (length (x :: l))))
                (x :: l) (heap w) e 0) as H.
  destruct (foldl _ _ _) as [[h1 e1] tot]. cbn [fst snd] in *.
  apply same_graph_with_heap. by rewrite but_sti_heap_setSTI.
Qed.

Lemma spreadImportance_fold_same_graph (l : list ref) (acc : Q * System) :
  same_graph (fst (snd acc)) (fst (snd (foldl spreadImportance_step acc l))).
Proof.
  revert acc. induction l as [|x l IH]; intros acc; cbn [foldl].
  { apply same_graph_refl. }
  eapply same_graph_trans; [|apply IH].
  destruct acc as [tot s]. unfold spreadImportance_step.
  destruct (Qltb _ _); [|apply same_graph_refl].
  pose proof (spreadFromAtom_same_graph x s) as H.
  destruct (spreadFromAtom x s) as [d s']. exact H.
Qed.

Lemma spreadImportance_same_graph (s : System) :
  same_graph (fst s) (fst (spreadImportance s)).
Proof.
  unfold spreadImportance.
  pose proof (spreadImportance_fold_same_graph (getAttentionalFocus (fst s))
                (0, s)) as H.
  destruct (foldl _ _ _) as [tot [w e]]. exact H.
Qed.

Lemma clear_focus_with_focus (l : list ref) (w : World) :
  exists f, foldl (fun w r => removeFromAttentionalFocus r w) w l
            = with_focus f w.
Proof.
  revert w. induction l as [|x l IH]; intros w; cbn [foldl].
  - exists (attentionalFocus w). by destruct w.
  - destruct (IH (removeFromAttentionalFocus x w)) as [f ->]. by exists f.
Qed.

Lemma fill_focus_with_focus (l : list ref) (w : World) :
  exists f, foldl (fun w r => snd (addToAttentionalFocus r w)) w l
            = with_focus f w.
Proof.
  revert w. induction l as [|x l IH]; intros w; cbn [foldl].
  - exists (attentionalFocus w). by destruct w.
  - destruct (IH (snd (addToAttentionalFocus x w))) as [f ->].
    unfold addToAttentionalFocus. destruct (hasAtom x w); by exists f.
Qed.

Lemma updateAttentionalFocus_same_graph (s : System) :
  same_graph (fst s) (fst (updateAttentionalFocus s)).
Proof.
  destruct s as [w e]. unfold updateAttentionalFocus. cbn [fst].
  destruct (clear_focus_with_focus (getAttentionalFocus w) w) as [f1 ->].
  match goal with
  | |- context [foldl _ ?w1 ?l] =>
      destruct (fill_focus_with_focus l w1) as [f2 ->]
  end.
  by split.
Qed.

Lemma stimulateAtom_same_graph (id : ref) (amount : option Q) (s : System) :
  same_graph (fst s) (fst (snd (stimulateAtom id amount s))).
Proof.
  destruct s as [w e]. unfold stimulateAtom.
  destruct (getAtom id w); [|apply same_graph_refl]. cbn [fst snd].
  apply same_graph_with_heap. apply but_sti_heap_setSTI.
Qed.

Lemma forget_fold_consistent (l : list ref) (s : System) :
  consistent (fst s) -> consistent (fst (foldl forget_step s l)).
Proof.
  revert s. induction l as [|x l IH]; intros [w e] Hc; cbn [foldl]; [done|].
  apply IH. unfold forget_step, Math_random.
  destruct (Qltb _ _); [|done]. by apply removeAtom_consistent.
Qed.

Lemma runCycle_consistent (s : System) :
  consistent (fst s) -> consistent (fst (runCycle s)).
Proof.
  intros Hc. unfold runCycle.
  set (s1 := collectRent (begin_cycle s)).
  set (s2 := applySTIDecay s1). set (s3 := spreadImportance s2).
  set (s4 := updateAttentionalFocus s3).
  assert (H1 : consistent (fst s1)).
  { apply (consistent_same_graph (fst (begin_cycle s))).
    - by destruct s.
    - apply collectRent_same_graph.
    - apply (wf_focus _ (collectRent_well_formed (begin_cycle s)
                           ltac:(destruct s; apply Hc))). }
  assert (H2 : consistent (fst s2)).
  { apply (consistent_same_graph (fst s1)); [done|apply applySTIDecay_same_graph|].
    apply (wf_focus _ (applySTIDecay_well_formed s1 (cs_wf _ H1))). }
  assert (H3 : consistent (fst s3)).
  { apply (consistent_same_graph (fst s2)); [done|apply spreadImportance_same_graph|].
    apply (wf_focus _ (spreadImportance_well_formed s2 (cs_wf _ H2))). }
  assert (H4 : consistent (fst s4)).
  { apply (consistent_same_graph (fst s3));
      [done|apply updateAttentionalFocus_same_graph|].
    apply (wf_focus _ (updateAttentionalFocus_well_formed s3 (cs_wf _ H3))). }
  assert (H5 : consistent (fst (applyForgetting s4))).
  { unfold applyForgetting. destruct s4 as [w4 e4] eqn:E4.
    by apply forget_fold_consistent. }
  destruct (applyForgetting s4) as [w5 e5]. exact H5.
Qed.

Lemma perform_consistent (op : ecan_operation) (w : World) (e : t) :
  consistent w -> consistent (fst (perform op (w, e))).
Proof.
  intros Hc.
  assert (Hsame : forall w', same_graph w w' -> well_formed w' -> consistent w').
  { intros w' Hs Hwf. apply (consistent_same_graph w); [done|done|apply Hwf]. }
  pose proof (perform_well_formed op w e (cs_wf w Hc)) as Hwf.
  destruct op; cbn [perform] in *.
  - apply Hsame; [apply (collectRent_same_graph (w, e))|done].
  - apply Hsame; [apply (applySTIDecay_same_graph (w, e))|done].
  - apply Hsame; [apply (spreadImportance_same_graph (w, e))|done].
  - apply Hsame; [apply (updateAttentionalFocus_same_graph (w, e))|done].
  - unfold applyForgetting. by apply forget_fold_consistent.
  - done.
  - by apply (runCycle_consistent (w, e)).
  - apply Hsame; [apply (stimulateAtom_same_graph atomId amount (w, e))|done].
  - unfold performHebbianLearning.
    destruct (getAtom atom1Id w), (getAtom atom2Id w); try done.
    destruct (findHebbianLink atom1Id atom2Id w) as [l|].
    + done.
    + pose proof (addLink_consistent HEBBIAN_LINK [atom1Id; atom2Id]
                    (Some (new_TruthValue 0.1 0.1)) w Hc) as H.
      destruct (addLink _ _ _ w) as [l w1]. exact H.
Qed.

End EngineStore.

Lemma reachable_consistent (w : World) : reachable w -> consistent w.
Proof.
  induction 1.
  - apply new_AtomSpace_consistent.
  - by apply addNode_consistent.
  - by apply addLink_consistent.
  - by apply removeAtom_consistent.
  - by apply addToAttentionalFocus_consistent.
  - by apply removeFromAttentionalFocus_consistent.
  - by apply perform_consistent.
  - by rewrite performInference_inert.
Qed.

(** ** What the invariant says of the accessors *)

Lemma live_only_of_keys (w : World) (s : list ref) :
  (forall x, x ∈ s -> x ∈ atoms w) -> live_only w s = s.
Proof.
  intros H. unfold live_only. induction s as [|x s IH]; [done|].
  cbn [List.filter]. unfold hasAtom at 1.
  rewrite bool_decide_eq_true_2 by (apply H; apply list_elem_of_here).
  f_equal. apply IH. intros y Hy. apply H. by apply list_elem_of_further.
Qed.

Lemma live_only_List_filter (w : World) (f : ref -> bool) :
  live_only w (List.filter f (atoms w)) = List.filter f (atoms w).
Proof.
  apply live_only_of_keys. intros x Hx. by apply elem_of_List_filter in Hx as [].
Qed.

Lemma getAtom_Some (w : World) (r : ref) (a : Atom) :
  getAtom r w = Some a <-> r ∈ atoms w /\ heap w !! r = Some a.
Proof.
  unfold getAtom, hasAtom. destruct (bool_decide (r ∈ atoms w)) eqn:B.
  - apply bool_decide_eq_true in B. tauto.
  - apply bool_decide_eq_false in B. split; [done|tauto].
Qed.

(** X5.  [getSize()] is the number of atoms in the store. *)
Theorem getSize_counts_the_atoms (w : World) :
  reachable w -> getSize w = Z.of_nat (length (getAllAtoms w)).
Proof. intros H. apply (ix_size w (cs_indexed w (reachable_consistent w H))). Qed.

Lemma getAtomsByType_filter (w : World) (ty : string) :
  indexed w ->
  getAtomsByType ty w = List.filter (has_type (heap w) ty) (atoms w).
Proof.
  intros Hix. unfold getAtomsByType. rewrite (ix_type w Hix).
  apply live_only_List_filter.
Qed.

Lemma elem_of_getAtomsByType (w : World) (ty : string) (r : ref) :
  indexed w ->
  r ∈ getAtomsByType ty w
  <-> exists a, getAtom r w = Some a /\ atom_type a = ty.
Proof.
  intros Hix. rewrite (getAtomsByType_filter w ty Hix), elem_of_List_filter.
  unfold has_type. split.
  - intros [Hr Ht]. destruct (heap w !! r) as [a|] eqn:Ha; [|done].
    exists a. split; [by apply getAtom_Some|].
    by apply bool_decide_eq_true in Ht.
  - intros (a & Ha & Ht). apply getAtom_Some in Ha as [Hr Ha].
    split; [done|]. rewrite Ha. by apply bool_decide_eq_true_2.
Qed.

(** X6.  The type index is exact: [getAtomsByType(ty)] lists the atoms of
    the store whose type is [ty], and for a non-empty [ty] it is the list
    that the scan [query({type: ty})] returns. *)
Theorem getAtomsByType_is_exact (w : World) (ty : string) :
  reachable w ->
  (forall r, r ∈ getAtomsByType ty w
             <-> exists a, getAtom r w = Some a /\ atom_type a = ty)
  /\ (ty <> EmptyString ->
      getAtomsByType ty w
      = AtomSpace.query (AtomSpace.mkPattern (Some ty) None None) w).
Proof.
  intros H. pose proof (cs_indexed w (reachable_consistent w H)) as Hix.
  split; [intros r; by apply elem_of_getAtomsByType|].
  intros Hty. rewrite (getAtomsByType_filter w ty Hix). unfold AtomSpace.query.
  apply List_filter_ext_elem. intros x _. unfold has_type.
  destruct (heap w !! x) as [a|]; [|done].
  unfold AtomSpace.matchesPattern. cbn.
  destruct ty as [|c ty']; [done|]. cbn.
  destruct (decide (atom_type a = String c ty')) as [->|Hne].
  - by rewrite !bool_decide_eq_true_2.
  - rewrite !bool_decide_eq_false_2; [done|congruence|done].
Qed.

(** X7.  In a graph built by [addNode], [addLink], [removeAtom], the
    operations on the focus, ECAN and PLN, without a direct call of
    [addAtom], the incoming index is exact: for an atom of the store,
    [getIncoming(id)] lists, in insertion order, the atoms of the store
    whose outgoing array holds it. *)
Theorem getIncoming_is_exact (w : World) (id : ref) :
  reachable w ->
  hasAtom id w = true ->
  getIncoming id w = List.filter (points_to (heap w) id) (getAllAtoms w)
  /\ forall r, r ∈ getIncoming id w
               <-> exists a, getAtom r w = Some a /\ id ∈ outgoing a.
Proof.
  intros H Hid. pose proof (cs_indexed w (reachable_consistent w H)) as Hix.
  apply bool_decide_eq_true in Hid.
  assert (E : getIncoming id w = List.filter (points_to (heap w) id) (atoms w)).
  { unfold getIncoming. rewrite (ix_incoming w Hix) by (by left).
    apply live_only_List_filter. }
  split; [exact E|].
  intros r. rewrite E, elem_of_List_filter. unfold points_to. split.
  - intros [Hr Ht]. destruct (heap w !! r) as [a|] eqn:Ha; [|done].
    exists a. split; [by apply getAtom_Some|].
    by apply bool_decide_eq_true in Ht.
  - intros (a & Ha & Ht). apply getAtom_Some in Ha as [Hr Ha].
    split; [done|]. rewrite Ha. by apply bool_decide_eq_true_2.
Qed.

(** X8.  In a graph built by [addNode], [addLink], [removeAtom], the
    operations on the focus, ECAN and PLN, without a direct call of
    [addAtom], no two atoms of the store are structurally equal: two links
    with the same type and the same outgoing atoms are one atom, and so are
    two nodes with the same type and the same non-empty name. *)
Theorem no_two_atoms_are_alike (w : World) (r1 r2 : ref) (a1 a2 : Atom) :
  reachable w ->
  getAtom r1 w = Some a1 -> getAtom r2 w = Some a2 ->
  atom_type a1 = atom_type a2 ->
  outgoing a1 = outgoing a2 ->
  outgoing a1 <> []
  \/ (atom_name a1 = atom_name a2 /\ truthy_name (atom_name a1) = true) ->
  r1 = r2.
Proof.
  intros H G1 G2. apply getAtom_Some in G1 as [K1 L1].
  apply getAtom_Some in G2 as [K2 L2].
  by apply (cs_dedup w (reachable_consistent w H) r1 r2 a1 a2).
Qed.

Lemma getNodeByName_Some_spec (ty n : string) (r : ref) (w : World) :
  indexed w -> n <> EmptyString ->
  getNodeByName ty (Some n) w = Some r ->
  exists a, getAtom r w = Some a /\ isNode a = true
            /\ atom_type a = ty /\ atom_name a = Some n.
Proof.
  intros Hix Hn Hfind. unfold getNodeByName in Hfind.
  pose proof (ix_name w Hix n) as Hs. rewrite decide_False in Hs by done.
  destruct (nameIndex w !! n) as [s|]; [|done]. cbn in Hs.
  apply find_some in Hfind as [Hin Htest].
  apply list_elem_of_In in Hin. rewrite Hs in Hin.
  apply elem_of_List_filter in Hin as [Hr Hnamed].
  unfold is_node_named in Hnamed.
  destruct (heap w !! r) as [a|] eqn:Ha; [|done].
  rewrite (getAtom_of_key w r a Hr Ha) in Htest.
  apply andb_true_iff in Hnamed as [Hnode Hname].
  exists a. split; [by apply getAtom_of_key|]. split; [done|].
  split; [by apply bool_decide_eq_true in Htest|].
  by apply bool_decide_eq_true in Hname.
Qed.

Lemma getLinkByOutgoing_Some_spec (ty : string) (out : list ref) (r : ref)
    (w : World) :
  indexed w ->
  getLinkByOutgoing ty out w = Some r ->
  exists a, getAtom r w = Some a /\ atom_type a = ty /\ outgoing a = out.
Proof.
  intros Hix Hfind. unfold getLinkByOutgoing in Hfind.
  pose proof (ix_type w Hix ty) as Hs.
  destruct (typeIndex w !! ty) as [s|]; [|done]. cbn in Hs.
  apply find_some in Hfind as [Hin Htest].
  apply list_elem_of_In in Hin. rewrite Hs in Hin.
  apply elem_of_List_filter in Hin as [Hr Htyped].
  unfold has_type in Htyped.
  destruct (heap w !! r) as [a|] eqn:Ha; [|done].
  rewrite (getAtom_of_key w r a Hr Ha) in Htest.
  apply andb_true_iff in Htest as [_ Hout].
  exists a. split; [by apply getAtom_of_key|].
  split; [by apply bool_decide_eq_true in Htyped|].
  by apply bool_decide_eq_true in Hout.
Qed.

(** X9.  In a graph built by [addNode], [addLink], [removeAtom], the
    operations on the focus, ECAN and PLN, without a direct call of
    [addAtom], the structural lookups are exact: [getNodeByName(ty, n)]
    returns the node of type [ty] named [n] when the store has one and
    [null] otherwise, and [getLinkByOutgoing(ty, out)] does the same for
    the link of type [ty] over [out]. *)
Theorem structural_lookups_are_exact (w : World) (ty : string) :
  reachable w ->
  (forall n r, n <> EmptyString ->
     getNodeByName ty (Some n) w = Some r
     <-> exists a, getAtom r w = Some a /\ isNode a = true
                   /\ atom_type a = ty /\ atom_name a = Some n)
  /\ (forall out r, out <> [] ->
        getLinkByOutgoing ty out w = Some r
        <-> exists a, getAtom r w = Some a
                      /\ atom_type a = ty /\ outgoing a = out).
Proof.
  intros H. pose proof (reachable_consistent w H) as Hc.
  pose proof (cs_indexed w Hc) as Hix.
  split.
  - intros n r Hn. split; [by apply getNodeByName_Some_spec|].
    intros (a & Ha & Hnode & Hty & Hname).
    destruct (getNodeByName ty (Some n) w) as [r'|] eqn:E.
    + destruct (getNodeByName_Some_spec ty n r' w Hix Hn E)
        as (a' & Ha' & Hnode' & Hty' & Hname').
      f_equal. apply getAtom_Some in Ha as [K L].
      apply getAtom_Some in Ha' as [K' L'].
      apply (cs_dedup w Hc r' r a' a); try done; try congruence.
      * unfold isNode in Hnode, Hnode'. apply Nat.eqb_eq in Hnode, Hnode'.
        destruct (outgoing a), (outgoing a'); done.
      * right. split; [congruence|]. rewrite Hname'.
        by apply truthy_name_nonempty.
    + exfalso. apply getAtom_Some in Ha as [K L].
      by apply (getNodeByName_None_spec ty n w Hix Hn E r a).
  - intros out r Hout. split; [by apply getLinkByOutgoing_Some_spec|].
    intros (a & Ha & Hty & Houtg).
    destruct (getLinkByOutgoing ty out w) as [r'|] eqn:E.
    + destruct (getLinkByOutgoing_Some_spec ty out r' w Hix E)
        as (a' & Ha' & Hty' & Hout').
      f_equal. apply getAtom_Some in Ha as [K L].
      apply getAtom_Some in Ha' as [K' L'].
      apply (cs_dedup w Hc r' r a' a); try done; try congruence.
      left. congruence.
    + exfalso. apply getAtom_Some in Ha as [K L]. apply Hout.
      by apply (getLinkByOutgoing_None_spec ty out w Hix E r a).
Qed.

(** X10.  [removeAtom(id)] returns whether the atom was in the store;
    afterwards the atom is in neither the store nor the focus, every other
    atom is where it was, and the size has gone down by one exactly when
    the atom was there. *)
Theorem removeAtom_removes_one_atom (w : World) (id : ref) :
  reachable w ->
  fst (removeAtom id w) = hasAtom id w
  /\ getAllAtoms (snd (removeAtom id w)) = Set_delete id (getAllAtoms w)
  /\ attentionalFocus (snd (removeAtom id w))
     = Set_delete id (attentionalFocus w)
  /\ hasAtom id (snd (removeAtom id w)) = false
  /\ (forall x, x <> id -> hasAtom x (snd (removeAtom id w)) = hasAtom x w)
  /\ getSize (snd (removeAtom id w))
     = (getSize w - if hasAtom id w then 1 else 0)%Z
  /\ fst (removeAtom id (snd (removeAtom id w))) = false.
Proof.
  intros H. pose proof (reachable_consistent w H) as [Hwf _ _].
  assert (Hat : atoms (snd (removeAtom id w)) = Set_delete id (atoms w)
                /\ attentionalFocus (snd (removeAtom id w))
                   = Set_delete id (attentionalFocus w)
                /\ fst (removeAtom id w) = hasAtom id w
                /\ size (snd (removeAtom id w))
                   = (size w - if hasAtom id w then 1 else 0)%Z).
  { destruct (removeAtom_frame id w)
      as (_ & _ & [[Hf Hw]|(Ht & Hat & Hfo & Hsz)]).
    - assert (Hno : id ∉ atoms w).
      { intros Hin. unfold removeAtom in Hf.
        destruct (heap w !! id) as [a|] eqn:Ha.
        - by rewrite (getAtom_of_key w id a Hin Ha) in Hf.
        - apply (wf_allocated w Hwf) in Hin. apply lookup_lt_is_Some_2 in Hin.
          rewrite Ha in Hin. by destruct Hin. }
      rewrite Hw, Hf. unfold hasAtom. rewrite bool_decide_eq_false_2 by done.
      rewrite !Set_delete_notin; [split; [done|split; [done|split; [done|lia]]]| |done].
      intros Hin. by apply (wf_focus w Hwf) in Hin.
    - rewrite Ht, Hat, Hfo, Hsz.
      assert (Hin : hasAtom id w = true).
      { unfold removeAtom in Ht. unfold getAtom in Ht.
        destruct (hasAtom id w); [done|]. by cbn in Ht. }
      by rewrite Hin. }
  destruct Hat as (Hat & Hfo & Hret & Hsz).
  assert (Hgone : hasAtom id (snd (removeAtom id w)) = false).
  { unfold hasAtom. rewrite Hat. apply bool_decide_eq_false_2.
    rewrite elem_of_Set_delete. tauto. }
  unfold getAllAtoms, getSize.
  split; [done|]. split; [done|]. split; [done|]. split; [done|]. split.
  - intros x Hx. unfold hasAtom. rewrite Hat. apply bool_decide_ext.
    rewrite elem_of_Set_delete. tauto.
  - split; [done|]. unfold removeAtom at 1, getAtom. by rewrite Hgone.
Qed.

Section Forgetting.
Import ECAN.

Lemma runCycle_before_forgetting (s : System) :
  runCycle s = updateStatistics (applyForgetting (before_forgetting s)).
Proof. reflexivity. Qed.

Lemma before_forgetting_same_graph (s : System) :
  same_graph (fst s) (fst (before_forgetting s)).
Proof.
  unfold before_forgetting.
  eapply same_graph_trans; [|apply updateAttentionalFocus_same_graph].
  eapply same_graph_trans; [|apply spreadImportance_same_graph].
  eapply same_graph_trans; [|apply applySTIDecay_same_graph].
  eapply same_graph_trans; [|apply collectRent_same_graph].
  destruct s. apply same_graph_refl.
Qed.

Lemma before_forgetting_ok (c : Config) (s : System) :
  sane_config c -> config (snd s) = c -> step_ok c s (before_forgetting s).
Proof.
  intros Hsane Hc. unfold before_forgetting.
  pose proof (begin_cycle_ok c s) as H0.
  set (s0 := begin_cycle s) in *.
  assert (C0 : config (snd s0) = c) by (destruct H0 as (_ & -> & _); done).
  pose proof (collectRent_ok c Hsane (fst s0) (snd s0) C0) as H1.
  rewrite <- surjective_pairing in H1.
  set (s1 := collectRent s0) in *.
  assert (C1 : config (snd s1) = c) by (destruct H1 as (_ & -> & _); done).
  pose proof (applySTIDecay_ok c Hsane (fst s1) (snd s1) C1) as H2.
  rewrite <- surjective_pairing in H2.
  set (s2 := applySTIDecay s1) in *.
  assert (C2 : config (snd s2) = c) by (destruct H2 as (_ & -> & _); done).
  pose proof (spreadImportance_ok c Hsane s2 C2) as H3.
  set (s3 := spreadImportance s2) in *.
  pose proof (updateAttentionalFocus_ok c (fst s3) (snd s3)) as H4.
  rewrite <- surjective_pairing in H4.
  eauto using step_ok_trans.
Qed.

Lemma forgettable_in_bounds (c : Config) (h : list Atom) (r : ref) :
  minSTI c <= 0 -> in_bounds c (getSTI h r) -> forgettable c h r = false.
Proof.
  intros Hmin [Hlo _]. unfold forgettable, getSTI in *.
  destruct (h !! r) as [a|]; [|done].
  destruct (Qltb 0 (lti (av a)) || vlti (av a)); [done|].
  apply Qltb_false. lra.
Qed.

Lemma List_filter_none (f : ref -> bool) (l : list ref) :
  (forall x, x ∈ l -> f x = false) -> List.filter f l = [].
Proof.
  intros H. induction l as [|x l IH]; [done|]. cbn [List.filter].
  rewrite (H x) by apply list_elem_of_here.
  apply IH. intros y Hy. apply H. by apply list_elem_of_further.
Qed.

Lemma applyForgetting_within_bounds (w : World) (e : t) :
  minSTI (config e) <= 0 -> sti_bounded (config e) w ->
  applyForgetting (w, e) = (w, e).
Proof.
  intros Hmin Hb. unfold applyForgetting.
  rewrite List_filter_none; [done|].
  intros x Hx. apply forgettable_in_bounds; [done|]. by apply Hb.
Qed.

Lemma forget_fold_keeps (l : list ref) (s : System) (r : ref) :
  r ∈ atoms (fst s) -> r ∉ l -> r ∈ atoms (fst (foldl forget_step s l)).
Proof.
  revert s. induction l as [|x l IH]; intros [w e] Hr Hl; cbn [foldl]; [done|].
  apply not_elem_of_cons in Hl as [Hne Hl]. apply IH; [|done].
  unfold forget_step, Math_random. destruct (Qltb _ _); [|done]. cbn [fst].
  destruct (removeAtom_frame x w) as (_ & _ & [[_ ->]|(_ & -> & _)]); [done|].
  apply elem_of_Set_delete. done.
Qed.

End Forgetting.

(** X11.  Under a configuration with [minSTI <= 0 <= maxSTI],
    [rentAmount >= 0], [decayRate >= 0], [0 <= diffusionRate <= 1] and
    [stimulusAmount >= 0], and with STIs within the bounds, the forgetting
    phase removes nothing: its threshold [2 * minSTI] lies below [minSTI].
    A whole cycle therefore keeps every atom of the store. *)
Theorem cycle_forgets_nothing_within_bounds (w : World) (e : ECAN.t) :
  sane_config (ECAN.config e) ->
  sti_bounded (ECAN.config e) w ->
  ECAN.applyForgetting (w, e) = (w, e)
  /\ getAllAtoms (fst (ECAN.runCycle (w, e))) = getAllAtoms w
  /\ getSize (fst (ECAN.runCycle (w, e))) = getSize w.
Proof.
  intros Hsane Hb. split.
  { apply applyForgetting_within_bounds; [apply Hsane|done]. }
  rewrite runCycle_before_forgetting.
  pose proof (before_forgetting_same_graph (w, e)) as Hsg.
  pose proof (before_forgetting_ok (ECAN.config e) (w, e) Hsane eq_refl)
    as (Hkept & Hcfg & _).
  destruct (before_forgetting (w, e)) as [w4 e4]. cbn [fst snd] in *.
  rewrite applyForgetting_within_bounds.
  - unfold ECAN.updateStatistics, getAllAtoms, getSize. cbn [fst].
    split; [apply (sg_atoms _ _ Hsg)|apply (sg_size _ _ Hsg)].
  - rewrite Hcfg. apply Hsane.
  - rewrite Hcfg. intros r Hr. apply Hkept. apply Hb.
    by rewrite (sg_atoms _ _ Hsg) in Hr.
Qed.

(** X12.  An atom with [LTI > 0] or with VLTI set is never forgotten: it
    is still in the store after the forgetting phase and after a whole
    cycle, whatever its STI and whatever [Math.random()] returns. *)
Theorem cycle_keeps_protected_atoms (w : World) (e : ECAN.t) (r : ref)
    (a : Atom) :
  getAtom r w = Some a ->
  0 < lti (av a) \/ vlti (av a) = true ->
  hasAtom r (fst (ECAN.applyForgetting (w, e))) = true
  /\ hasAtom r (fst (ECAN.runCycle (w, e))) = true.
Proof.
  intros Hget Hprot.
  assert (Keep : forall w' e' a', r ∈ atoms w' -> heap w' !! r = Some a' ->
            lti (av a') = lti (av a) -> vlti (av a') = vlti (av a) ->
            hasAtom r (fst (ECAN.applyForgetting (w', e'))) = true).
  { intros w' e' a' Hr Ha Hl Hv. apply bool_decide_eq_true_2.
    unfold ECAN.applyForgetting. apply forget_fold_keeps; [done|].
    rewrite elem_of_List_filter. intros [_ Hf].
    unfold ECAN.forgettable in Hf. rewrite Ha, Hl, Hv in Hf.
    destruct Hprot as [Hp|Hp].
    - apply Qltb_true in Hp. by rewrite Hp in Hf.
    - rewrite Hp, orb_true_r in Hf. done. }
  apply getAtom_Some in Hget as [Hr Ha]. split.
  - by apply (Keep w e a).
  - rewrite runCycle_before_forgetting.
    pose proof (before_forgetting_same_graph (w, e)) as Hsg.
    destruct (before_forgetting (w, e)) as [w4 e4]. cbn [fst snd] in *.
    pose proof (f_equal (fun l => l !! r) (sg_heap _ _ Hsg)) as Hl.
    cbn beta in Hl. rewrite !list_lookup_fmap, Ha in Hl.
    destruct (heap w4 !! r) as [a4|] eqn:Ha4; [|done].
    cbn in Hl. unfold but_sti in Hl. injection Hl as _ _ _ _ Hlti Hvlti _.
    unfold ECAN.updateStatistics.
    pose proof (Keep w4 e4 a4) as K.
    destruct (ECAN.applyForgetting (w4, e4)) as [w5 e5]. cbn [fst] in *.
    apply K; try done. by rewrite (sg_atoms _ _ Hsg).
Qed.

Section Sorting.
Import ECAN.

Lemma insert_by_sti_perm (h : list Atom) (x : ref) (l : list ref) :
  insert_by_sti h x l ≡ₚ x :: l.
Proof.
  induction l as [|y l IH]; cbn [insert_by_sti]; [done|].
  destruct (Qle_bool _ _); [done|]. rewrite IH. apply Permutation_swap.
Qed.

Lemma sort_by_sti_desc_perm (h : list Atom) (l : list ref) :
  sort_by_sti_desc h l ≡ₚ l.
Proof.
  unfold sort_by_sti_desc. induction l as [|x l IH]; cbn [foldr]; [done|].
  by rewrite insert_by_sti_perm, IH.
Qed.

Lemma insert_by_sti_descending (h : list Atom) (x : ref) (l : list ref) :
  descending h l -> descending h (insert_by_sti h x l).
Proof.
  induction l as [|y l IH]; cbn [insert_by_sti descending].
  { intros _. split; [|done]. intros z Hz. by apply elem_of_nil in Hz. }
  intros [Hy Hl]. destruct (Qle_bool (getSTI h y) (getSTI h x)) eqn:E.
  - apply Qle_bool_iff in E. cbn [descending]. split; [|done].
    intros z Hz. apply elem_of_cons in Hz as [->|Hz]; [done|].
    specialize (Hy z Hz). lra.
  - apply Qle_bool_false in E. cbn [descending]. split; [|by apply IH].
    intros z Hz. apply elem_of_insert_by_sti in Hz as [->|Hz]; [lra|].
    by apply Hy.
Qed.

Lemma sort_by_sti_desc_descending (h : list Atom) (l : list ref) :
  descending h (sort_by_sti_desc h l).
Proof.
  unfold sort_by_sti_desc. induction l as [|x l IH]; cbn [foldr]; [done|].
  by apply insert_by_sti_descending.
Qed.

Lemma elem_of_take_in (n : nat) (l : list ref) (x : ref) :
  x ∈ take n l -> x ∈ l.
Proof.
  intros H. apply elem_of_take in H as (i & H & _).
  by apply list_elem_of_lookup_2 in H.
Qed.

Lemma descending_take (h : list Atom) (n : nat) (l : list ref) :
  descending h l -> descending h (take n l).
Proof.
  revert n. induction l as [|x l IH]; intros [|n]; cbn; try done.
  intros [Hx Hl]. split; [|by apply IH].
  intros y Hy. apply Hx. by apply elem_of_take_in in Hy.
Qed.

Lemma descending_take_drop (h : list Atom) (n : nat) (l : list ref) (x y : ref) :
  descending h l -> x ∈ take n l -> y ∈ drop n l ->
  getSTI h y <= getSTI h x.
Proof.
  revert n. induction l as [|z l IH]; intros [|n] Hd Hx Hy; cbn in *;
    try by apply elem_of_nil in Hx.
  destruct Hd as [Hz Hl]. apply elem_of_cons in Hx as [->|Hx].
  - apply Hz. clear -Hy. revert n Hy. induction l as [|u l IH]; intros [|n] Hy;
      cbn in *; try done.
    apply list_elem_of_further. by apply (IH n).
  - by apply (IH n).
Qed.

Lemma NoDup_List_filter (f : ref -> bool) (l : list ref) :
  NoDup l -> NoDup (List.filter f l).
Proof.
  induction 1 as [|x l Hx Hl IH]; cbn [List.filter]; [apply NoDup_nil_2|].
  destruct (f x); [|done]. apply NoDup_cons_2; [|done].
  rewrite elem_of_List_filter. tauto.
Qed.

Lemma fill_focus_exact (l : list ref) (w : World) :
  NoDup (attentionalFocus w ++ l) ->
  (forall x, x ∈ l -> x ∈ atoms w) ->
  attentionalFocus (foldl (fun w r => snd (addToAttentionalFocus r w)) w l)
  = attentionalFocus w ++ l.
Proof.
  revert w. induction l as [|x l IH]; intros w Hnd Hl; cbn [foldl].
  { by rewrite app_nil_r. }
  assert (Hx : x ∈ atoms w) by (apply Hl, list_elem_of_here).
  assert (E : snd (addToAttentionalFocus x w)
              = with_focus (attentionalFocus w ++ [x]) w).
  { unfold addToAttentionalFocus, hasAtom.
    rewrite bool_decide_eq_true_2 by done. cbn [snd].
    rewrite Set_add_notin; [done|].
    apply NoDup_app in Hnd as (_ & Hd & _). intros Hin.
    apply (Hd x Hin), list_elem_of_here. }
  rewrite E, IH.
  - cbn [attentionalFocus with_focus]. by rewrite <- app_assoc.
  - cbn [attentionalFocus with_focus]. by rewrite <- app_assoc.
  - intros y Hy. cbn [atoms with_focus]. apply Hl. by apply list_elem_of_further.
Qed.

(** The focus that [updateAttentionalFocus] leaves. *)
Lemma updateAttentionalFocus_focus (w : World) (e : t) :
  NoDup (atoms w) -> focus_live w ->
  attentionalFocus (fst (updateAttentionalFocus (w, e)))
  = take (maxAF (config e))
         (sort_by_sti_desc (heap w) (eligible (config e) w)).
Proof.
  intros Hnd Hlive. unfold updateAttentionalFocus. cbn [fst].
  destruct (clear_focus_spec (getAttentionalFocus w) w) as (Hh & Ha & Hf).
  set (w1 := foldl (fun w r => removeFromAttentionalFocus r w) w
                   (getAttentionalFocus w)) in *.
  assert (Hempty : attentionalFocus w1 = []).
  { destruct (attentionalFocus w1) as [|x f] eqn:E; [done|].
    exfalso. destruct (proj1 (Hf x)) as [Hx Hnx]; [apply list_elem_of_here|].
    apply Hnx. unfold getAttentionalFocus.
    by rewrite live_only_of_keys. }
  rewrite Hh. unfold getAllAtoms. rewrite Ha.
  rewrite fill_focus_exact; rewrite ?Hempty; cbn [app].
  - done.
  - eapply sublist_NoDup; [|apply sublist_take].
    rewrite sort_by_sti_desc_perm. by apply NoDup_List_filter.
  - intros x Hx. rewrite Ha.
    apply elem_of_take_in in Hx.
    rewrite sort_by_sti_desc_perm in Hx.
    by apply elem_of_List_filter in Hx as [].
Qed.

End Sorting.

Lemma top_of_sorted (h : list Atom) (n : nat) (l : list ref) :
  descending h (take n (ECAN.sort_by_sti_desc h l))
  /\ length (take n (ECAN.sort_by_sti_desc h l)) = Nat.min n (length l)
  /\ (forall x, x ∈ take n (ECAN.sort_by_sti_desc h l) -> x ∈ l)
  /\ forall x y, x ∈ take n (ECAN.sort_by_sti_desc h l) -> y ∈ l ->
       y ∉ take n (ECAN.sort_by_sti_desc h l) -> getSTI h y <= getSTI h x.
Proof.
  split; [apply descending_take, sort_by_sti_desc_descending|].
  split; [by rewrite length_take, (Permutation_length (sort_by_sti_desc_perm h l))|].
  split.
  - intros x Hx. apply elem_of_take_in in Hx.
    by rewrite sort_by_sti_desc_perm in Hx.
  - intros x y Hx Hy Hny.
    apply (descending_take_drop h n (ECAN.sort_by_sti_desc h l));
      [apply sort_by_sti_desc_descending|done|].
    rewrite <- (sort_by_sti_desc_perm h l) in Hy.
    rewrite <- (take_drop n (ECAN.sort_by_sti_desc h l)) in Hy.
    apply elem_of_app in Hy as [Hy|Hy]; done.
Qed.

(** X13.  [updateAttentionalFocus] leaves in the focus the [maxAF] atoms
    of highest STI among those with [STI >= minSTI] (all of them when they
    are fewer), in descending order of STI. *)
Theorem focus_holds_the_highest (w : World) (e : ECAN.t) :
  NoDup (atoms w) -> focus_live w ->
  descending (heap w)
    (attentionalFocus (fst (ECAN.updateAttentionalFocus (w, e))))
  /\ length (attentionalFocus (fst (ECAN.updateAttentionalFocus (w, e))))
     = Nat.min (ECAN.maxAF (ECAN.config e))
               (length (eligible (ECAN.config e) w))
  /\ forall x y,
       x ∈ attentionalFocus (fst (ECAN.updateAttentionalFocus (w, e))) ->
       y ∈ getAllAtoms w ->
       y ∉ attentionalFocus (fst (ECAN.updateAttentionalFocus (w, e))) ->
       ECAN.minSTI (ECAN.config e) <= getSTI (heap w) y ->
       getSTI (heap w) y <= getSTI (heap w) x.
Proof.
  intros Hnd Hlive.
  rewrite (updateAttentionalFocus_focus w e Hnd Hlive).
  destruct (top_of_sorted (heap w) (ECAN.maxAF (ECAN.config e))
              (eligible (ECAN.config e) w)) as (H1 & H2 & _ & H4).
  split; [done|]. split; [done|].
  intros x y Hx Hy Hny Hmin. apply H4; try done.
  apply elem_of_List_filter. split; [done|]. by apply Qle_bool_iff.
Qed.

(** X14.  [getHighestSTIAtoms(count)] returns [count] atoms of the store
    (all of them when they are fewer) in descending order of STI, and no
    atom it leaves out has a higher STI than one it returns. *)
Theorem getHighestSTIAtoms_are_the_highest (w : World) (count : nat) :
  descending (heap w) (ECAN.getHighestSTIAtoms count w)
  /\ length (ECAN.getHighestSTIAtoms count w)
     = Nat.min count (length (getAllAtoms w))
  /\ (forall x, x ∈ ECAN.getHighestSTIAtoms count w -> x ∈ getAllAtoms w)
  /\ forall x y,
       x ∈ ECAN.getHighestSTIAtoms count w -> y ∈ getAllAtoms w ->
       y ∉ ECAN.getHighestSTIAtoms count w ->
       getSTI (heap w) y <= getSTI (heap w) x.
Proof.
  unfold ECAN.getHighestSTIAtoms.
  destruct (top_of_sorted (heap w) count (getAllAtoms w)) as (H1 & H2 & H3 & H4).
  split; [exact H1|]. split; [exact H2|]. split; [exact H3|exact H4].
Qed.

(** ** Hebbian learning *)

Section Hebbian.
Import ECAN.

Lemma find_is_Some {A} (f : A -> bool) (l : list A) (x : A) :
  x ∈ l -> f x = true -> is_Some (find f l).
Proof.
  intros Hx Hf. destruct (find f l) as [y|] eqn:E; [by exists y|].
  by rewrite (find_none_elem f l x E Hx) in Hf.
Qed.

Lemma foldl_wire_incoming_tv (id : ref) (l : list ref) (w : World) :
  tv <$> heap (foldl (wire_incoming id) w l) = tv <$> heap w.
Proof.
  revert w. induction l as [|x l IH]; intros w; cbn [foldl]; [done|].
  rewrite IH. unfold wire_incoming. cbn [heap]. by apply fmap_heap_alter.
Qed.

(** A link of the store between [a1] and [a2] is found. *)
Lemma findHebbianLink_finds (a1 a2 l : ref) (a : Atom) (w : World) :
  indexed w ->
  getAtom l w = Some a -> atom_type a = HEBBIAN_LINK ->
  outgoing a = [a1; a2] ->
  is_Some (findHebbianLink a1 a2 w).
Proof.
  intros Hix Hl Hty Hout. unfold findHebbianLink.
  apply (find_is_Some _ _ l).
  - apply elem_of_getAtomsByType; [done|]. by exists a.
  - apply getAtom_Some in Hl as [_ Hl]. rewrite Hl, Hout. cbn.
    rewrite (bool_decide_eq_true_2 (Some a1 = Some a1)) by done.
    by rewrite (bool_decide_eq_true_2 (Some a2 = Some a2)).
Qed.

Lemma addLink_keeps (ty : string) (out : list ref) (t : option TruthValue)
    (w : World) (r : ref) :
  well_formed w -> r ∈ atoms w -> r ∈ atoms (snd (addLink ty out t w)).
Proof.
  intros Hwf Hr. destruct (getLinkByOutgoing ty out w) as [e|] eqn:E.
  - rewrite (addLink_existing ty out t w e E). cbn [snd].
    destruct (overwrite_tv_frame e t w) as (_ & _ & Hat & _). by rewrite Hat.
  - rewrite (addLink_fresh ty out t w E).
    destruct (alloc_addAtom_spec (new_Atom ty None out t) w (wf_allocated w Hwf))
      as (_ & Hat & _).
    cbn zeta in Hat. rewrite Hat. apply elem_of_app. by left.
Qed.

(** The link that [addLink] returns is in the store, with the type and
    the outgoing atoms asked for. *)
Lemma addLink_returns (ty : string) (out : list ref) (t : option TruthValue)
    (w : World) :
  consistent w -> out <> [] ->
  exists a, getAtom (fst (addLink ty out t w)) (snd (addLink ty out t w)) = Some a
            /\ atom_type a = ty /\ outgoing a = out.
Proof.
  intros Hc Hout.
  assert (Hc' := addLink_consistent ty out t w Hc).
  apply (getLinkByOutgoing_Some_spec ty out _ _ (cs_indexed _ Hc')).
  destruct (getLinkByOutgoing ty out w) as [e|] eqn:E.
  - rewrite (addLink_existing ty out t w e E). cbn [fst snd].
    by rewrite getLinkByOutgoing_overwrite_tv.
  - rewrite (addLink_fresh ty out t w E).
    destruct (alloc_addAtom_spec (new_Atom ty None out t) w
                (wf_allocated w (cs_wf w Hc))) as (-> & _).
    by apply getLinkByOutgoing_after_create; [apply Hc| |].
Qed.

Lemma getAtom_of_consistent (w : World) (r : ref) :
  well_formed w -> r ∈ atoms w -> is_Some (getAtom r w).
Proof.
  intros Hwf Hr. unfold getAtom, hasAtom. rewrite bool_decide_eq_true_2 by done.
  apply lookup_lt_is_Some_2. by apply (wf_allocated w Hwf).
Qed.

End Hebbian.

(** X15.  [performHebbianLearning(a1, a2)] never returns [true].  When
    one of the atoms is not in the store it returns [false] and changes
    nothing.  Otherwise it throws the TypeError of the missing
    [TruthValue.getStrength], after it has made sure that a HebbianLink
    between the two atoms exists; the engine is left as it was, and a
    second call changes nothing more. *)
Theorem performHebbianLearning_never_succeeds (w : World) (e : ECAN.t)
    (a1 a2 : ref) :
  reachable w ->
  (hasAtom a1 w && hasAtom a2 w = false ->
   ECAN.performHebbianLearning a1 a2 (w, e) = (Ok false, (w, e)))
  /\ (hasAtom a1 w && hasAtom a2 w = true ->
      fst (ECAN.performHebbianLearning a1 a2 (w, e))
      = Throw "TypeError: tv.getStrength is not a function"
      /\ snd (snd (ECAN.performHebbianLearning a1 a2 (w, e))) = e
      /\ is_Some (ECAN.findHebbianLink a1 a2
                    (fst (snd (ECAN.performHebbianLearning a1 a2 (w, e)))))
      /\ (getSize (fst (snd (ECAN.performHebbianLearning a1 a2 (w, e))))
          <= getSize w + 1)%Z
      /\ ECAN.performHebbianLearning a1 a2
           (snd (ECAN.performHebbianLearning a1 a2 (w, e)))
         = (Throw "TypeError: tv.getStrength is not a function",
            snd (ECAN.performHebbianLearning a1 a2 (w, e)))).
Proof.
  intros Hr. pose proof (reachable_consistent w Hr) as Hc.
  pose proof (cs_wf w Hc) as Hwf.
  assert (Hget : forall w' r, well_formed w' ->
            getAtom r w' = if hasAtom r w' then heap w' !! r else None)
    by done.
  split.
  - intros Hmiss. unfold ECAN.performHebbianLearning.
    apply andb_false_iff in Hmiss as [Hm|Hm]; unfold getAtom; rewrite Hm;
      [done|]. by destruct (if hasAtom a1 w then _ else _).
  - intros Hboth. apply andb_true_iff in Hboth as [H1 H2].
    apply bool_decide_eq_true in H1, H2.
    destruct (getAtom_of_consistent w a1 Hwf H1) as [x1 G1].
    destruct (getAtom_of_consistent w a2 Hwf H2) as [x2 G2].
    assert (Again : forall w1, consistent w1 -> a1 ∈ atoms w1 -> a2 ∈ atoms w1 ->
              is_Some (ECAN.findHebbianLink a1 a2 w1) ->
              ECAN.performHebbianLearning a1 a2 (w1, e)
              = (Throw "TypeError: tv.getStrength is not a function", (w1, e))).
    { intros w1 Hc1 K1 K2 [l Hl]. unfold ECAN.performHebbianLearning.
      destruct (getAtom_of_consistent w1 a1 (cs_wf _ Hc1) K1) as [y1 ->].
      destruct (getAtom_of_consistent w1 a2 (cs_wf _ Hc1) K2) as [y2 ->].
      by rewrite Hl. }
    destruct (ECAN.findHebbianLink a1 a2 w) as [l|] eqn:Efind.
    + assert (E : ECAN.performHebbianLearning a1 a2 (w, e)
                  = (Throw "TypeError: tv.getStrength is not a function", (w, e))).
      { apply Again; try done. }
      rewrite E. cbn [fst snd]. rewrite Efind.
      split; [done|]. split; [done|]. split; [done|]. split; [lia|done].
    + pose proof (addLink_returns HEBBIAN_LINK [a1; a2]
                    (Some (new_TruthValue 0.1 0.1)) w Hc ltac:(done))
        as (a & Ha & Hty & Hout).
      pose proof (addLink_consistent HEBBIAN_LINK [a1; a2]
                    (Some (new_TruthValue 0.1 0.1)) w Hc) as Hc1.
      pose proof (addLink_keeps HEBBIAN_LINK [a1; a2]
                    (Some (new_TruthValue 0.1 0.1)) w a1 Hwf H1) as K1.
      pose proof (addLink_keeps HEBBIAN_LINK [a1; a2]
                    (Some (new_TruthValue 0.1 0.1)) w a2 Hwf H2) as K2.
      assert (Hsz : (size (snd (addLink HEBBIAN_LINK [a1; a2]
                                  (Some (new_TruthValue 0.1 0.1)) w))
                     <= size w + 1)%Z).
      { rewrite (ix_size _ (cs_indexed _ Hc1)), (ix_size _ (cs_indexed _ Hc)).
        destruct (addLink_frame HEBBIAN_LINK [a1; a2]
                    (Some (new_TruthValue 0.1 0.1)) w) as (_ & _ & _ & Hsub).
        pose proof (wf_keys _ (cs_wf _ Hc1)) as Hnd.
        assert (Hle : (length (atoms (snd (addLink HEBBIAN_LINK [a1; a2]
                                  (Some (new_TruthValue 0.1 0.1)) w)))
                       <= length (atoms w ++ [length (heap w)]))%nat).
        { apply submseteq_length, NoDup_submseteq; [done|].
          intros x Hx. apply elem_of_app. rewrite list_elem_of_singleton.
          by apply Hsub. }
        rewrite length_app in Hle. cbn in Hle. lia. }
      pose proof (findHebbianLink_finds a1 a2 _ a _ (cs_indexed _ Hc1)
                    Ha Hty Hout) as Hfound.
      assert (E : ECAN.performHebbianLearning a1 a2 (w, e)
                  = (Throw "TypeError: tv.getStrength is not a function",
                     (snd (addLink HEBBIAN_LINK [a1; a2]
                             (Some (new_TruthValue 0.1 0.1)) w), e))).
      { unfold ECAN.performHebbianLearning. rewrite G1, G2, Efind.
        by destruct (addLink _ _ _ w). }
      rewrite E. cbn [fst snd].
      split; [done|]. split; [done|]. split; [done|]. split; [done|].
      by apply Again.
Qed.

Lemma getSize_counts_the_atoms_witness :
  reachable scenario_S4
  /\ getSize scenario_S4 = Z.of_nat (length (getAllAtoms scenario_S4)).
Proof.
  assert (H : reachable scenario_S4).
  { unfold scenario_S4, two_nodes. repeat constructor. }
  split; [exact H|]. exact (getSize_counts_the_atoms scenario_S4 H).
Defined.

Lemma getAtomsByType_is_exact_witness :
  reachable scenario_S4
  /\ ((forall r, r ∈ getAtomsByType CONCEPT_NODE scenario_S4
                 <-> exists a, getAtom r scenario_S4 = Some a
                               /\ atom_type a = CONCEPT_NODE)
      /\ (CONCEPT_NODE <> EmptyString ->
          getAtomsByType CONCEPT_NODE scenario_S4
          = AtomSpace.query
              (AtomSpace.mkPattern (Some CONCEPT_NODE) None None) scenario_S4)).
Proof.
  assert (H : reachable scenario_S4).
  { unfold scenario_S4, two_nodes. repeat constructor. }
  split; [exact H|]. exact (getAtomsByType_is_exact scenario_S4 CONCEPT_NODE H).
Defined.

Lemma getIncoming_is_exact_witness :
  reachable scenario_S4
  /\ hasAtom 0 scenario_S4 = true
  /\ (getIncoming 0 scenario_S4
      = List.filter (points_to (heap scenario_S4) 0) (getAllAtoms scenario_S4)
      /\ forall r, r ∈ getIncoming 0 scenario_S4
                   <-> exists a, getAtom r scenario_S4 = Some a
                                 /\ 0%nat ∈ outgoing a).
Proof.
  assert (H : reachable scenario_S4).
  { unfold scenario_S4, two_nodes. repeat constructor. }
  assert (H0 : hasAtom 0 scenario_S4 = true) by (vm_compute; reflexivity).
  split; [exact H|]. split; [exact H0|].
  exact (getIncoming_is_exact scenario_S4 0 H H0).
Defined.

Lemma no_two_atoms_are_alike_witness :
  reachable scenario_S4
  /\ getAtom 2 scenario_S4
     = Some (mkAtom LIST_LINK None [0; 1]%nat default_TruthValue
                    default_AttentionValue [])
  /\ 2%nat = 2%nat.
Proof.
  assert (H : reachable scenario_S4).
  { unfold scenario_S4, two_nodes. repeat constructor. }
  assert (G : getAtom 2 scenario_S4
              = Some (mkAtom LIST_LINK None [0; 1]%nat default_TruthValue
                             default_AttentionValue []))
    by (vm_compute; reflexivity).
  split; [exact H|]. split; [exact G|].
  refine (no_two_atoms_are_alike scenario_S4 2 2 _ _ H G G eq_refl eq_refl _).
  left. simpl. discriminate.
Defined.

Lemma structural_lookups_are_exact_witness :
  reachable scenario_S4
  /\ ((forall n r, n <> EmptyString ->
         getNodeByName LIST_LINK (Some n) scenario_S4 = Some r
         <-> exists a, getAtom r scenario_S4 = Some a /\ isNode a = true
                       /\ atom_type a = LIST_LINK /\ atom_name a = Some n)
      /\ (forall out r, out <> [] ->
            getLinkByOutgoing LIST_LINK out scenario_S4 = Some r
            <-> exists a, getAtom r scenario_S4 = Some a
                          /\ atom_type a = LIST_LINK /\ outgoing a = out)).
Proof.
  assert (H : reachable scenario_S4).
  { unfold scenario_S4, two_nodes. repeat constructor. }
  split; [exact H|]. exact (structural_lookups_are_exact scenario_S4 LIST_LINK H).
Defined.

Lemma removeAtom_removes_one_atom_witness :
  reachable scenario_S4
  /\ fst (removeAtom 0 scenario_S4) = hasAtom 0 scenario_S4
  /\ getSize (snd (removeAtom 0 scenario_S4))
     = (getSize scenario_S4 - if hasAtom 0 scenario_S4 then 1 else 0)%Z.
Proof.
  assert (H : reachable scenario_S4).
  { unfold scenario_S4, two_nodes. repeat constructor. }
  split; [exact H|].
  pose proof (removeAtom_removes_one_atom scenario_S4 0 H)
    as (H1 & _ & _ & _ & _ & H6 & _).
  split; [exact H1|exact H6].
Defined.

Lemma cycle_forgets_nothing_within_bounds_witness :
  sane_config (ECAN.config (snd one_node))
  /\ sti_bounded (ECAN.config (snd one_node)) (fst one_node)
  /\ getAllAtoms (fst (ECAN.runCycle (fst one_node, snd one_node)))
     = getAllAtoms (fst one_node).
Proof.
  assert (H1 : sane_config (ECAN.config (snd one_node))).
  { split; vm_compute; discriminate. }
  assert (H2 : sti_bounded (ECAN.config (snd one_node)) (fst one_node)).
  { intros r Hr. vm_compute in Hr. apply list_elem_of_singleton in Hr as ->.
    split; vm_compute; discriminate. }
  split; [exact H1|]. split; [exact H2|].
  exact (proj1 (proj2 (cycle_forgets_nothing_within_bounds
                         (fst one_node) (snd one_node) H1 H2))).
Defined.

Lemma cycle_keeps_protected_atoms_witness :
  getAtom 0 lasting_node
  = Some (mkAtom CONCEPT_NODE (Some "cat"%string) [] default_TruthValue
                 (mkAV (-5000) 1 false) [])
  /\ 0 < lti (mkAV (-5000) 1 false)
  /\ hasAtom 0 (fst (ECAN.runCycle
                       (lasting_node, ECAN.new_ECAN ECAN.no_options (fun _ => 0))))
     = true.
Proof.
  assert (G : getAtom 0 lasting_node
              = Some (mkAtom CONCEPT_NODE (Some "cat"%string) []
                             default_TruthValue (mkAV (-5000) 1 false) []))
    by (vm_compute; reflexivity).
  assert (L : 0 < lti (mkAV (-5000) 1 false)) by (vm_compute; reflexivity).
  split; [exact G|]. split; [exact L|].
  exact (proj2 (cycle_keeps_protected_atoms lasting_node
                  (ECAN.new_ECAN ECAN.no_options (fun _ => 0)) 0 _ G
                  (or_introl L))).
Defined.

Lemma focus_holds_the_highest_witness :
  NoDup (atoms (fst scenario_S2))
  /\ focus_live (fst scenario_S2)
  /\ length (attentionalFocus
               (fst (ECAN.updateAttentionalFocus
                       (fst scenario_S2, snd scenario_S2))))
     = Nat.min (ECAN.maxAF (ECAN.config (snd scenario_S2)))
               (length (eligible (ECAN.config (snd scenario_S2))
                          (fst scenario_S2))).
Proof.
  assert (Hnd : NoDup (atoms (fst scenario_S2))).
  { vm_compute. repeat (apply NoDup_cons_2; [by (vm_compute; intros H; repeat
      (apply elem_of_cons in H as [H|H]; [discriminate H|]);
      apply elem_of_nil in H)|]). apply NoDup_nil_2. }
  assert (Hf : focus_live (fst scenario_S2)).
  { intros x Hx. vm_compute in Hx. by apply elem_of_nil in Hx. }
  split; [exact Hnd|]. split; [exact Hf|].
  exact (proj1 (proj2 (focus_holds_the_highest (fst scenario_S2)
                         (snd scenario_S2) Hnd Hf))).
Defined.

Lemma performHebbianLearning_never_succeeds_witness :
  reachable two_nodes
  /\ hasAtom 0 two_nodes && hasAtom 1 two_nodes = true
  /\ fst (ECAN.performHebbianLearning 0 1
            (two_nodes, ECAN.new_ECAN ECAN.no_options (fun _ => 0)))
     = Throw "TypeError: tv.getStrength is not a function".
Proof.
  assert (H : reachable two_nodes).
  { unfold two_nodes. repeat constructor. }
  assert (B : hasAtom 0 two_nodes && hasAtom 1 two_nodes = true)
    by (vm_compute; reflexivity).
  split; [exact H|]. split; [exact B|].
  exact (proj1 (proj2 (performHebbianLearning_never_succeeds two_nodes
                         (ECAN.new_ECAN ECAN.no_options (fun _ => 0)) 0 1 H) B)).
Defined.

(** ** The scheduler of the CogServer *)

Section Scheduling.
Import CogServer Scheduler.

Lemma insert_by_priority_perm (j : Job) (l : list Job) :
  insert_by_priority j l ≡ₚ j :: l.
Proof.
  induction l as [|k l IH]; cbn [insert_by_priority]; [done|].
  destruct (Qle_bool _ _); [done|]. rewrite IH. apply Permutation_swap.
Qed.

Lemma sort_queue_perm (l : list Job) : sort_queue l ≡ₚ l.
Proof.
  unfold sort_queue. induction l as [|j l IH]; cbn [foldr]; [done|].
  by rewrite insert_by_priority_perm, IH.
Qed.

Lemma insert_by_priority_ordered (j : Job) (l : list Job) :
  by_priority l -> by_priority (insert_by_priority j l).
Proof.
  induction l as [|k l IH]; cbn [insert_by_priority by_priority].
  { intros _. split; [|done]. intros z Hz. by apply elem_of_nil in Hz. }
  intros [Hk Hl].
  destruct (Qle_bool (priority (options k)) (priority (options j))) eqn:E.
  - apply Qle_bool_iff in E. cbn [by_priority]. split; [|done].
    intros z Hz. apply elem_of_cons in Hz as [->|Hz]; [done|].
    specialize (Hk z Hz). lra.
  - apply Qle_bool_false in E. cbn [by_priority]. split; [|by apply IH].
    intros z Hz. apply elem_of_insert_by_priority in Hz as [->|Hz]; [lra|].
    by apply Hk.
Qed.

Lemma sort_queue_ordered (l : list Job) : by_priority (sort_queue l).
Proof.
  unfold sort_queue. induction l as [|j l IH]; cbn [foldr]; [done|].
  by apply insert_by_priority_ordered.
Qed.

End Scheduling.

(** X17.  [scheduleJob] either throws and leaves the server as it was (the
    plugin is not registered, is disabled, or the queue holds
    [maxQueueSize] jobs already), or it returns the id of a new job that
    is in the queue with status [queued]; the queue is then the old one
    with that job added, in descending order of priority, and within
    [maxQueueSize]. *)
Theorem scheduleJob_keeps_the_queue_in_order (pluginId : string)
    (o : Scheduler.Given) (s : Scheduler.Server) :
  match Scheduler.scheduleJob pluginId o s with
  | (Ok id, s') =>
      (exists plugin,
         Scheduler.registry s !! pluginId = Some plugin
         /\ Scheduler.enabled plugin = true)
      /\ (exists job,
            CogServer.job_id job = id
            /\ CogServer.pluginId job = pluginId
            /\ CogServer.status job = CogServer.queued
            /\ CogServer.retryCount job = 0%nat
            /\ CogServer.jobQueue (Scheduler.core s')
               ≡ₚ job :: CogServer.jobQueue (Scheduler.core s))
      /\ by_priority (CogServer.jobQueue (Scheduler.core s'))
      /\ (length (CogServer.jobQueue (Scheduler.core s'))
          <= Scheduler.maxQueueSize (Scheduler.config s))%nat
      /\ Scheduler.totalJobsScheduled s' = S (Scheduler.totalJobsScheduled s)
  | (Throw message, s') =>
      s' = s
      /\ (Scheduler.registry s !! pluginId = None
          \/ (exists plugin,
                Scheduler.registry s !! pluginId = Some plugin
                /\ Scheduler.enabled plugin = false)
          \/ (Scheduler.maxQueueSize (Scheduler.config s)
              <= length (CogServer.jobQueue (Scheduler.core s)))%nat)
  end.
Proof.
  unfold Scheduler.scheduleJob.
  destruct (Scheduler.registry s !! pluginId) as [plugin|] eqn:Hreg;
    [|split; [done|by left]].
  destruct (Scheduler.enabled plugin) eqn:Hen; cbn [negb];
    [|split; [done|right; left; by exists plugin]].
  destruct (Nat.leb_spec (Scheduler.maxQueueSize (Scheduler.config s))
              (length (CogServer.jobQueue (Scheduler.core s)))) as [Hfull|Hroom];
    [split; [done|right; by right]|].
  cbn [Scheduler.generateJobId Scheduler.Date_now Scheduler.core
       Scheduler.config Scheduler.totalJobsScheduled Scheduler.with_queue
       CogServer.jobQueue].
  split; [by exists plugin|]. split.
  { match goal with
    | |- context [CogServer.sort_queue (_ ++ [?j])] => exists j
    end.
    repeat (split; [reflexivity|]).
    rewrite sort_queue_perm. symmetry. apply Permutation_cons_append. }
  split; [apply sort_queue_ordered|]. split; [|done].
  rewrite (Permutation_length (sort_queue_perm _)), length_app. cbn. lia.
Qed.

Section Cycle.
Import CogServer Scheduler.

Lemma running_delete_length (id : nat) (l : list Job) :
  (length (running_delete id l) <= length l)%nat.
Proof. unfold running_delete. apply List.filter_length_le. Qed.

Lemma running_set_length (j : Job) (l : list Job) :
  (length (running_set j l) <= S (length l))%nat.
Proof.
  unfold running_set. destruct (existsb _ l).
  - rewrite length_map. lia.
  - rewrite length_app. cbn. lia.
Qed.

Lemma elem_of_running_delete (id : nat) (l : list Job) (k : Job) :
  k ∈ running_delete id l <-> k ∈ l /\ job_id k <> id.
Proof.
  unfold running_delete. rewrite list_elem_of_In, filter_In, <- list_elem_of_In.
  by rewrite negb_true_iff, Nat.eqb_neq.
Qed.

Lemma running_delete_set (j : Job) (l : list Job) :
  (length (running_delete (job_id j) (running_set j l)) <= length l)%nat.
Proof.
  unfold running_set. destruct (existsb _ l) eqn:E.
  - etransitivity; [apply running_delete_length|]. by rewrite length_map.
  - unfold running_delete. rewrite List.filter_app, length_app. cbn.
    rewrite Nat.eqb_refl. cbn.
    pose proof (List.filter_length_le
                  (fun k => negb (Nat.eqb (job_id k) (job_id j))) l). lia.
Qed.

Lemma attempts_cons (j : Job) (l : list Job) :
  attempts (j :: l) = (attempts_left j + attempts l)%nat.
Proof. reflexivity. Qed.

Lemma attempts_perm (l l' : list Job) : l ≡ₚ l' -> attempts l = attempts l'.
Proof.
  unfold attempts.
  induction 1 as [|x l l' _ IH|x y l|l1 l2 l3 _ IH1 _ IH2]; cbn [foldr]; lia.
Qed.

Lemma attempts_app (l l' : list Job) :
  attempts (l ++ l') = (attempts l + attempts l')%nat.
Proof.
  unfold attempts. induction l as [|x l IH]; cbn [foldr app]; [done|].
  rewrite IH. lia.
Qed.

Lemma by_priority_tail (j : Job) (l : list Job) :
  by_priority (j :: l) -> by_priority l.
Proof. by intros [_ H]. Qed.

Local Arguments attempts : simpl never.
Local Arguments attempts_left : simpl never.

(** One [failJob] and one [retryJob] of the server. *)
Lemma failJob_spec (job : Job) (message : string) (s : Server) :
  jobQueue (core (Scheduler.failJob job message s)) = jobQueue (core s)
  /\ config (Scheduler.failJob job message s) = config s
  /\ cycleCount (Scheduler.failJob job message s) = cycleCount s
  /\ cyclesRun (Scheduler.failJob job message s) = cyclesRun s
  /\ clock (Scheduler.failJob job message s) = clock s
  /\ ticks (Scheduler.failJob job message s) = S (ticks s)
  /\ runningJobs (core (Scheduler.failJob job message s))
     = running_delete (job_id job) (runningJobs (core s))
  /\ completedJobs (core (Scheduler.failJob job message s))
     = completedJobs (core s)
       ++ [mkJob (job_id job) (pluginId job) (options job) failed
                 (startedAt job) (Some (clock s (ticks s))) (retryCount job)
                 (result job) (Some message)]
  /\ totalJobsFailed (stats (core (Scheduler.failJob job message s)))
     = S (totalJobsFailed (stats (core s))).
Proof. by repeat split. Qed.

Lemma retryJob_spec (job : Job) (message : string) (s : Server) :
  jobQueue (core (Scheduler.retryJob job message s))
  = sort_queue
      (jobQueue (core s)
       ++ [mkJob (job_id job) (pluginId job) (options job) queued
                 (startedAt job) (completedAt job) (S (retryCount job))
                 (result job) (Some message)])
  /\ config (Scheduler.retryJob job message s) = config s
  /\ cycleCount (Scheduler.retryJob job message s) = cycleCount s
  /\ cyclesRun (Scheduler.retryJob job message s) = cyclesRun s
  /\ runningJobs (core (Scheduler.retryJob job message s))
     = running_delete (job_id job) (runningJobs (core s)).
Proof. by repeat split. Qed.

(** What [startJob] leaves alone, by how much the running jobs grow, and
    what it does to the queue. *)
Lemma startJob_frame (call : Call) (job : Job) (s : Server) :
  config (startJob call job s) = config s
  /\ cycleCount (startJob call job s) = cycleCount s
  /\ cyclesRun (startJob call job s) = cyclesRun s
  /\ (length (runningJobs (core (startJob call job s)))
      <= S (length (runningJobs (core s))))%nat
  /\ (attempts (jobQueue (core (startJob call job s))) + 1
      <= attempts (jobQueue (core s)) + attempts_left job)%nat
  /\ (by_priority (jobQueue (core s)) ->
      by_priority (jobQueue (core (startJob call job s))))
  /\ (call = Returns ->
      jobQueue (core (startJob call job s)) = jobQueue (core s)).
Proof.
  unfold startJob. destruct (plugins (core s) !! pluginId job) as [p|].
  - cbn [Date_now]. destruct call as [|message].
    + cbn [with_core core config cycleCount cyclesRun runningJobs jobQueue].
      repeat (split; [done|]). split; [apply running_set_length|].
      split; [unfold attempts_left; lia|done].
    + cbn [retryCount options].
      pose proof (running_delete_set
                    (mkJob (job_id job) (pluginId job) (options job)
                           running (Some (clock s (ticks s)))
                           (completedAt job) (retryCount job) (result job)
                           (error job)) (runningJobs (core s))) as Hlen.
      cbn [job_id] in Hlen.
      destruct (Nat.ltb_spec (retryCount job) (maxRetries (options job)))
        as [Hretry|Hlast].
      * match goal with
        | |- context [Scheduler.retryJob ?j ?m ?x] =>
            destruct (retryJob_spec j m x) as (R1 & R2 & R3 & R4 & R5)
        end.
        rewrite R1, R2, R3, R4, R5.
        cbn [with_core core config cycleCount cyclesRun runningJobs jobQueue
             job_id pluginId options startedAt completedAt retryCount result].
        repeat (split; [done|]). split; [lia|].
        split; [|split; [intros _; apply sort_queue_ordered|done]].
        rewrite (attempts_perm _ _ (sort_queue_perm _)), attempts_app.
        rewrite attempts_cons. unfold attempts_left, attempts.
        cbn [foldr options retryCount]. lia.
      * match goal with
        | |- context [Scheduler.failJob ?j ?m ?x] =>
            destruct (failJob_spec j m x) as (F1 & F2 & F3 & F4 & _ & _ & F7 & _)
        end.
        rewrite F1, F2, F3, F4, F7.
        cbn [with_core core config cycleCount cyclesRun runningJobs jobQueue
             job_id].
        repeat (split; [done|]). split; [lia|].
        split; [unfold attempts_left; lia|done].
  - destruct (failJob_spec job ("Plugin " +:+ pluginId job +:+ " not found") s)
      as (F1 & F2 & F3 & F4 & _ & _ & F7 & _).
    rewrite F1, F2, F3, F4, F7. repeat (split; [done|]). split.
    { pose proof (running_delete_length (job_id job) (runningJobs (core s))).
      lia. }
    split; [unfold attempts_left; lia|done].
Qed.

(** The loop of [processCycle]: what it keeps, and that it has ended when
    its fuel is the number of attempts left in the queue. *)
Lemma start_jobs_spec (fuel : nat) (calls : nat -> Call) :
  forall (turn : nat) (s : Server),
  config (start_jobs fuel calls turn s) = config s
  /\ cycleCount (start_jobs fuel calls turn s) = cycleCount s
  /\ cyclesRun (start_jobs fuel calls turn s) = cyclesRun s
  /\ (length (runningJobs (core (start_jobs fuel calls turn s)))
      <= Nat.max (maxConcurrentJobs (config s))
                 (length (runningJobs (core s))))%nat
  /\ (by_priority (jobQueue (core s)) ->
      by_priority (jobQueue (core (start_jobs fuel calls turn s))))
  /\ ((forall n, calls n = Returns) ->
      exists taken,
        jobQueue (core s)
        = taken ++ jobQueue (core (start_jobs fuel calls turn s)))
  /\ ((attempts (jobQueue (core s)) <= fuel)%nat ->
      jobQueue (core (start_jobs fuel calls turn s)) = []
      \/ (maxConcurrentJobs (config s)
          <= length (runningJobs (core (start_jobs fuel calls turn s))))%nat).
Proof.
  induction fuel as [|fuel IH]; intros turn s; cbn [start_jobs].
  { repeat (split; [done|]). split; [lia|]. split; [done|].
    split; [intros _; by exists []|].
    intros Hfuel. left. destruct (jobQueue (core s)) as [|j q]; [done|].
    rewrite attempts_cons in Hfuel. unfold attempts_left in Hfuel. lia. }
  destruct (jobQueue (core s)) as [|job rest] eqn:Hq.
  { repeat (split; [done|]). split; [lia|]. split; [by rewrite Hq|].
    split; [intros _; exists []; by rewrite Hq|]. intros _. left. exact Hq. }
  destruct (Nat.ltb_spec (length (runningJobs (core s)))
              (maxConcurrentJobs (config s))) as [Hroom|Hfull].
  - set (s0 := with_core (with_queue rest (core s)) s).
    destruct (startJob_frame (calls turn) job s0)
      as (Fc & Fy & Fr & Fl & Fa & Fp & Fq).
    destruct (IH (S turn) (startJob (calls turn) job s0))
      as (Ec & Ey & Er & El & Ep & Es & Eend).
    rewrite Ec, Ey, Er, Fc, Fy, Fr.
    cbn [s0 with_core config cycleCount cyclesRun].
    repeat (split; [done|]). split; [|split; [|split]].
    + rewrite Fc in El.
      cbn [s0 with_core config core with_queue runningJobs] in El, Fl. lia.
    + intros Hp. apply Ep, Fp. cbn [s0 with_core core with_queue jobQueue].
      by apply (by_priority_tail job).
    + intros Hcalls. destruct (Es Hcalls) as [taken Ht].
      rewrite (Fq (Hcalls turn)) in Ht.
      cbn [s0 with_core core with_queue jobQueue] in Ht.
      exists (job :: taken). cbn. by rewrite <- Ht.
    + intros Hfuel. rewrite Fc in Eend.
      cbn [s0 with_core config] in Eend. apply Eend.
      cbn [s0 with_core core with_queue jobQueue] in Fa.
      rewrite attempts_cons in Hfuel. lia.
  - repeat (split; [done|]). split; [lia|]. split; [by rewrite Hq|].
    split; [intros _; exists []; by rewrite Hq|]. intros _. by right.
Qed.

(** With enough fuel the loop has ended, and more fuel changes nothing. *)
Lemma start_jobs_fuel (fuel : nat) (calls : nat -> Call) :
  forall (turn : nat) (s : Server),
  (attempts (jobQueue (core s)) <= fuel)%nat ->
  start_jobs (S fuel) calls turn s = start_jobs fuel calls turn s.
Proof.
  induction fuel as [|fuel IH]; intros turn s Hfuel.
  { cbn [start_jobs]. destruct (jobQueue (core s)) as [|j q]; [done|].
    rewrite attempts_cons in Hfuel. unfold attempts_left in Hfuel. lia. }
  cbn [start_jobs]. destruct (jobQueue (core s)) as [|job rest] eqn:Hq; [done|].
  destruct (Nat.ltb _ _); [|done].
  set (s0 := with_core (with_queue rest (core s)) s).
  change (start_jobs (S fuel) calls (S turn) (startJob (calls turn) job s0)
          = start_jobs fuel calls (S turn) (startJob (calls turn) job s0)).
  apply IH. destruct (startJob_frame (calls turn) job s0) as (_&_&_&_&Fa&_).
  cbn [s0 with_core core with_queue jobQueue] in Fa.
  rewrite attempts_cons in Hfuel. lia.
Qed.

Lemma start_jobs_enough (calls : nat -> Call) (turn : nat) (s : Server)
    (more : nat) :
  start_jobs (attempts (jobQueue (core s)) + more) calls turn s
  = start_jobs (attempts (jobQueue (core s))) calls turn s.
Proof.
  induction more as [|more IH]; [by rewrite Nat.add_0_r|].
  rewrite Nat.add_succ_r, start_jobs_fuel by lia. exact IH.
Qed.

(** What the fold of [checkTimeouts] does with the jobs it fails: the job
    at position [i] is stamped with the reading number [ticks s + i]. *)
Lemma fail_fold_spec (l : list Job) :
  forall s : Server,
  jobQueue (core (foldl (fun s job => Scheduler.failJob job "Job timed out" s)
                        s l))
  = jobQueue (core s)
  /\ config (foldl (fun s job => Scheduler.failJob job "Job timed out" s) s l)
     = config s
  /\ cycleCount (foldl (fun s job => Scheduler.failJob job "Job timed out" s)
                       s l)
     = cycleCount s
  /\ cyclesRun (foldl (fun s job => Scheduler.failJob job "Job timed out" s)
                      s l)
     = cyclesRun s
  /\ ticks (foldl (fun s job => Scheduler.failJob job "Job timed out" s) s l)
     = (ticks s + length l)%nat
  /\ completedJobs
       (core (foldl (fun s job => Scheduler.failJob job "Job timed out" s) s l))
     = completedJobs (core s)
       ++ imap (fun i job => timed_out_record (clock s (ticks s + i)) job) l
  /\ totalJobsFailed
       (stats (core (foldl (fun s job =>
                              Scheduler.failJob job "Job timed out" s) s l)))
     = (totalJobsFailed (stats (core s)) + length l)%nat
  /\ forall k,
       k ∈ runningJobs
             (core (foldl (fun s job =>
                             Scheduler.failJob job "Job timed out" s) s l))
       <-> k ∈ runningJobs (core s) /\ forall j, j ∈ l -> job_id j <> job_id k.
Proof.
  induction l as [|job l IH]; intros s; cbn [foldl].
  { cbn [imap length]. rewrite app_nil_r, !Nat.add_0_r.
    repeat (split; [done|]).
    intros k. split; [|tauto]. intros Hk. split; [done|].
    intros j Hj. by apply elem_of_nil in Hj. }
  destruct (failJob_spec job "Job timed out" s)
    as (F1 & F2 & F3 & F4 & F5 & F6 & F7 & F8 & F9).
  destruct (IH (Scheduler.failJob job "Job timed out" s))
    as (E1 & E2 & E3 & E4 & E5 & E6 & E7 & Hrun).
  rewrite E1, E2, E3, E4, E5, E6, E7, F1, F2, F3, F4, F5, F6, F8, F9.
  cbn [length imap]. repeat (split; [done || lia|]).
  split; [|split; [lia|]].
  - rewrite <- app_assoc. cbn [app]. rewrite Nat.add_0_r. do 2 f_equal.
    apply imap_ext. intros i x _. cbn. do 2 f_equal. lia.
  - intros k. rewrite Hrun, F7, elem_of_running_delete. split.
    + intros [[Hk Hne] Hl]. split; [done|]. intros j Hj.
      apply elem_of_cons in Hj as [->|Hj]; [congruence|by apply Hl].
    + intros [Hk Hl]. split; [split; [done|]|].
      * intros E. apply (Hl job); [apply list_elem_of_here|done].
      * intros j Hj. apply Hl. by apply list_elem_of_further.
Qed.

Lemma fail_fold_length (l : list Job) :
  forall s : Server,
  (length (runningJobs
             (core (foldl (fun s job =>
                             Scheduler.failJob job "Job timed out" s) s l)))
   <= length (runningJobs (core s)))%nat.
Proof.
  induction l as [|job l IH]; intros s; cbn [foldl]; [done|].
  etransitivity; [apply IH|].
  destruct (failJob_spec job "Job timed out" s) as (_&_&_&_&_&_&F7&_).
  rewrite F7. apply running_delete_length.
Qed.

End Cycle.

(** X18.  A cognitive cycle starts jobs from the head of the queue, and
    only while fewer than [maxConcurrentJobs] are running, whatever the
    calls of [plugin.execute] do: afterwards the number of running jobs is
    at most [maxConcurrentJobs] (or what it was before, if that was more),
    a queue that was in descending order of priority still is, and the
    cycle counters have gone up by one.  When no call of [plugin.execute]
    throws at once, the queue afterwards is a suffix of what it was; a call
    that throws at once can put its job back into the queue. *)
Theorem processCycle_respects_the_limit (calls : nat -> Scheduler.Call)
    (s : Scheduler.Server) :
  (length (CogServer.runningJobs
             (Scheduler.core (Scheduler.processCycle calls s)))
   <= Nat.max (Scheduler.maxConcurrentJobs (Scheduler.config s))
              (length (CogServer.runningJobs (Scheduler.core s))))%nat
  /\ (by_priority (CogServer.jobQueue (Scheduler.core s)) ->
      by_priority
        (CogServer.jobQueue (Scheduler.core (Scheduler.processCycle calls s))))
  /\ ((forall n, calls n = Scheduler.Returns) ->
      exists taken,
        CogServer.jobQueue (Scheduler.core s)
        = taken
          ++ CogServer.jobQueue
               (Scheduler.core (Scheduler.processCycle calls s)))
  /\ Scheduler.cycleCount (Scheduler.processCycle calls s)
     = S (Scheduler.cycleCount s)
  /\ Scheduler.cyclesRun (Scheduler.processCycle calls s)
     = S (Scheduler.cyclesRun s)
  /\ Scheduler.config (Scheduler.processCycle calls s) = Scheduler.config s.
Proof.
  unfold Scheduler.processCycle.
  set (s1 := Scheduler.mkCogServer _ _ _ _ _ _ _ _ _ _ _).
  destruct (start_jobs_spec
              (Scheduler.attempts (CogServer.jobQueue (Scheduler.core s1)))
              calls 0 s1) as (Ec & Ey & Er & El & Ep & Es & _).
  set (s2 := Scheduler.start_jobs _ calls 0 s1) in *.
  unfold Scheduler.checkTimeouts, Scheduler.Date_now.
  set (s3 := Scheduler.mkCogServer _ _ _ _ _ _ _ _ _ _ _).
  set (l := List.filter _ _).
  destruct (fail_fold_spec l s3) as (Eq & Fc & Fy & Fr & _).
  pose proof (fail_fold_length l s3) as Fl.
  rewrite Eq, Fc, Fy, Fr.
  cbn [s3 Scheduler.core Scheduler.config Scheduler.cycleCount
       Scheduler.cyclesRun] in *.
  split; [etransitivity; [exact Fl|exact El]|].
  split; [exact Ep|]. split; [exact Es|]. done.
Qed.

(** X19.  [checkTimeouts] collects the running jobs that are overdue at its
    reading of the clock and fails them one after the other.  Afterwards no
    job that still runs was overdue at that reading; the overdue jobs are
    in the completed list with status [failed], the error 'Job timed out'
    and, for the one at position [i] among them, the time [failJob] read
    for it, which is reading number [i + 1] after that of [checkTimeouts];
    the count of failed jobs has gone up by the number of those jobs, and
    the queue is as it was. *)
Theorem checkTimeouts_fails_the_overdue (s : Scheduler.Server) :
  (forall k,
     k ∈ CogServer.runningJobs (Scheduler.core (Scheduler.checkTimeouts s)) ->
     k ∈ CogServer.runningJobs (Scheduler.core s)
     /\ CogServer.timed_out (Scheduler.clock s (Scheduler.ticks s)) k = false)
  /\ (forall i j,
        List.filter
          (CogServer.timed_out (Scheduler.clock s (Scheduler.ticks s)))
          (CogServer.runningJobs (Scheduler.core s)) !! i = Some j ->
        timed_out_record (Scheduler.clock s (S (Scheduler.ticks s + i))) j
        ∈ CogServer.completedJobs (Scheduler.core (Scheduler.checkTimeouts s)))
  /\ CogServer.totalJobsFailed
       (CogServer.stats (Scheduler.core (Scheduler.checkTimeouts s)))
     = (CogServer.totalJobsFailed (CogServer.stats (Scheduler.core s))
        + length (List.filter
                    (CogServer.timed_out
                       (Scheduler.clock s (Scheduler.ticks s)))
                    (CogServer.runningJobs (Scheduler.core s))))%nat
  /\ Scheduler.ticks (Scheduler.checkTimeouts s)
     = S (Scheduler.ticks s
          + length (List.filter
                      (CogServer.timed_out
                         (Scheduler.clock s (Scheduler.ticks s)))
                      (CogServer.runningJobs (Scheduler.core s))))
  /\ CogServer.jobQueue (Scheduler.core (Scheduler.checkTimeouts s))
     = CogServer.jobQueue (Scheduler.core s).
Proof.
  unfold Scheduler.checkTimeouts, Scheduler.Date_now.
  set (s1 := Scheduler.mkCogServer _ _ _ _ _ _ _ _ _ _ _).
  set (now := Scheduler.clock s (Scheduler.ticks s)).
  change (CogServer.runningJobs (Scheduler.core s1))
    with (CogServer.runningJobs (Scheduler.core s)).
  set (l := List.filter (CogServer.timed_out now)
              (CogServer.runningJobs (Scheduler.core s))).
  destruct (fail_fold_spec l s1) as (Eq & _ & _ & _ & Et & Ec & Ef & Hrun).
  split; [|split; [|split; [exact Ef|split; [exact Et|exact Eq]]]].
  - intros k Hk. apply Hrun in Hk as [Hk Hne]. split; [done|].
    destruct (CogServer.timed_out now k) eqn:E; [|done].
    exfalso. apply (Hne k); [|done].
    apply list_elem_of_In, filter_In. split; [by apply list_elem_of_In|done].
  - intros i j Hij. rewrite Ec. apply elem_of_app. right.
    apply (list_elem_of_lookup_2 _ i). rewrite list_lookup_imap, Hij. done.
Qed.

Section Cancelling.
Import CogServer Scheduler.

Lemma find_id_None (id : nat) (l : list Job) :
  find (fun j => Nat.eqb (job_id j) id) l = None
  <-> forall k, k ∈ l -> job_id k <> id.
Proof.
  split.
  - intros H k Hk. apply (find_none_elem _ _ k H) in Hk.
    by apply Nat.eqb_neq in Hk.
  - intros H. destruct (find _ l) as [j|] eqn:E; [|done].
    apply find_some in E as [Hin Hid]. apply Nat.eqb_eq in Hid.
    apply list_elem_of_In in Hin. by destruct (H j Hin).
Qed.

Lemma cancelJob_spec (id : nat) (s : Server) :
  match find (fun j => Nat.eqb (job_id j) id) (runningJobs (core s)) with
  | Some job =>
      job ∈ runningJobs (core s) /\ job_id job = id
      /\ fst (cancelJob id s) = true
      /\ runningJobs (core (snd (cancelJob id s)))
         = running_delete id (runningJobs (core s))
      /\ completedJobs (core (snd (cancelJob id s)))
         = completedJobs (core s) ++ [cancelled_record (clock s (ticks s)) job]
      /\ jobQueue (core (snd (cancelJob id s))) = jobQueue (core s)
      /\ isRunning (snd (cancelJob id s)) = isRunning s
  | None => cancelJob id s = (false, s)
  end.
Proof.
  unfold cancelJob. destruct (find _ _) as [job|] eqn:E; [|done].
  apply find_some in E as [Hin Hid]. apply Nat.eqb_eq in Hid.
  apply list_elem_of_In in Hin. done.
Qed.

(** Cancelling the jobs of [ids] one after the other. *)
Lemma cancel_fold_spec (ids : list nat) (s : Server) :
  jobQueue (core (foldl (fun s id => snd (cancelJob id s)) s ids))
  = jobQueue (core s)
  /\ isRunning (foldl (fun s id => snd (cancelJob id s)) s ids) = isRunning s
  /\ (forall k,
        k ∈ runningJobs (core (foldl (fun s id => snd (cancelJob id s)) s ids))
        <-> k ∈ runningJobs (core s) /\ job_id k ∉ ids)
  /\ (forall j, j ∈ runningJobs (core s) -> job_id j ∈ ids ->
        exists j', j' ∈ completedJobs
                          (core (foldl (fun s id => snd (cancelJob id s)) s ids))
                   /\ job_id j' = job_id j /\ status j' = cancelled)
  /\ forall j, j ∈ completedJobs (core s) ->
       j ∈ completedJobs (core (foldl (fun s id => snd (cancelJob id s)) s ids)).
Proof.
  revert s. induction ids as [|id ids IH]; intros s; cbn [foldl].
  { split; [done|]. split; [done|]. split; [|split; [|done]].
    - intros k. split; [|tauto]. intros Hk. split; [done|]. apply not_elem_of_nil.
    - intros j _ Hj. by apply elem_of_nil in Hj. }
  destruct (IH (snd (cancelJob id s))) as (Eq & Er & Hrun & Hdone & Hkeep).
  pose proof (cancelJob_spec id s) as Hc.
  destruct (find _ (runningJobs (core s))) as [job|] eqn:E.
  - destruct Hc as (Hin & Hid & _ & Crun & Cdone & Cq & Cr).
    rewrite Eq, Er, Cq, Cr. split; [done|]. split; [done|]. split; [|split].
    + intros k. rewrite Hrun, Crun, elem_of_running_delete, not_elem_of_cons.
      tauto.
    + intros j Hj Hjid. destruct (decide (job_id j = id)) as [Heq|Hne].
      * exists (cancelled_record (clock s (ticks s)) job).
        split; [|split; [cbn; congruence|done]].
        apply Hkeep. rewrite Cdone. apply elem_of_app. right.
        apply list_elem_of_here.
      * apply Hdone.
        -- rewrite Crun. by apply elem_of_running_delete.
        -- apply elem_of_cons in Hjid as [?|?]; [done|done].
    + intros j Hj. apply Hkeep. rewrite Cdone. apply elem_of_app. by left.
  - pose proof (proj1 (find_id_None _ _) E) as E'.
    rewrite Hc in *. cbn [snd] in *. split; [done|]. split; [done|].
    split; [|split; [|done]].
    + intros k. rewrite Hrun, not_elem_of_cons. split; [|tauto].
      intros [Hk Hn]. split; [done|]. split; [by apply E'|done].
    + intros j Hj Hjid. apply Hdone; [done|].
      apply elem_of_cons in Hjid as [Heq|?]; [|done]. by destruct (E' j Hj).
Qed.

End Cancelling.

(** X20.  [cancelJob(id)] cancels running jobs only.  When no running job
    has the id it returns [false] and changes nothing, so that a job that
    is still queued stays queued and will be run.  When one has, it returns
    [true], the job leaves the running jobs and joins the completed ones
    with status [cancelled]; the queue is as it was. *)
Theorem cancelJob_cancels_running_jobs_only (id : nat) (s : Scheduler.Server) :
  ((forall k, k ∈ CogServer.runningJobs (Scheduler.core s) ->
      CogServer.job_id k <> id) ->
   Scheduler.cancelJob id s = (false, s))
  /\ (forall job, job ∈ CogServer.runningJobs (Scheduler.core s) ->
        CogServer.job_id job = id ->
        fst (Scheduler.cancelJob id s) = true
        /\ (forall k, k ∈ CogServer.runningJobs
                            (Scheduler.core (snd (Scheduler.cancelJob id s))) ->
              CogServer.job_id k <> id)
        /\ (exists job',
              job' ∈ CogServer.completedJobs
                       (Scheduler.core (snd (Scheduler.cancelJob id s)))
              /\ CogServer.job_id job' = id
              /\ CogServer.status job' = CogServer.cancelled)
        /\ CogServer.jobQueue (Scheduler.core (snd (Scheduler.cancelJob id s)))
           = CogServer.jobQueue (Scheduler.core s)).
Proof.
  pose proof (cancelJob_spec id s) as Hc. split.
  - intros Hnone. apply (proj2 (find_id_None _ _)) in Hnone.
    by rewrite Hnone in Hc.
  - intros job Hjob Hid.
    destruct (find _ (CogServer.runningJobs (Scheduler.core s))) as [found|] eqn:E.
    + destruct Hc as (Hin & Hfid & Ht & Crun & Cdone & Cq & _).
      split; [done|]. split; [|split; [|done]].
      * intros k. rewrite Crun, elem_of_running_delete. tauto.
      * exists (cancelled_record (Scheduler.clock s (Scheduler.ticks s)) found).
        split; [|done]. rewrite Cdone. apply elem_of_app. right.
        apply list_elem_of_here.
    + pose proof (proj1 (find_id_None _ _) E) as E'. by destruct (E' job Hjob).
Qed.

(** X21.  [stop()] on a running server cancels every running job: it
    returns [true], afterwards no job is running and every job that was
    is among the completed ones with status [cancelled].  The queued jobs
    stay queued.  On a server that is not running it returns [false] and
    changes nothing. *)
Theorem stop_cancels_every_running_job (s : Scheduler.Server) :
  (Scheduler.isRunning s = false -> Scheduler.stop s = (false, s))
  /\ (Scheduler.isRunning s = true ->
      fst (Scheduler.stop s) = true
      /\ Scheduler.isRunning (snd (Scheduler.stop s)) = false
      /\ CogServer.runningJobs (Scheduler.core (snd (Scheduler.stop s))) = []
      /\ CogServer.jobQueue (Scheduler.core (snd (Scheduler.stop s)))
         = CogServer.jobQueue (Scheduler.core s)
      /\ forall j, j ∈ CogServer.runningJobs (Scheduler.core s) ->
           exists j', j' ∈ CogServer.completedJobs
                             (Scheduler.core (snd (Scheduler.stop s)))
                      /\ CogServer.job_id j' = CogServer.job_id j
                      /\ CogServer.status j' = CogServer.cancelled).
Proof.
  unfold Scheduler.stop. split; intros Hrun; rewrite Hrun; cbn [negb]; [done|].
  set (s1 := Scheduler.mkCogServer _ _ _ _ _ _ _ _ _ _ _).
  destruct (cancel_fold_spec
              (map CogServer.job_id (CogServer.runningJobs (Scheduler.core s1)))
              s1) as (Eq & Er & Hr & Hdone & _).
  cbn [fst snd]. split; [done|]. split; [by rewrite Er|]. split; [|split].
  - destruct (CogServer.runningJobs _) as [|k l] eqn:E in |- *; [done|].
    exfalso. assert (Hk : k ∈ k :: l) by apply list_elem_of_here.
    rewrite <- E in Hk. apply Hr in Hk as [Hk Hn]. apply Hn.
    apply list_elem_of_fmap. by exists k.
  - by rewrite Eq.
  - intros j Hj. apply Hdone; [done|]. apply list_elem_of_fmap. by exists j.
Qed.

(** X22.  Once a plugin is unregistered, [scheduleJob] for it throws
    'Plugin ... not found' and leaves the server as it was, and a job of
    the plugin that was queued before is failed with that error when the
    cycle comes to start it, without a retry whatever its [maxRetries]:
    it never runs, and [plugin.execute] is not called. *)
Theorem unregistered_plugin_fails_its_jobs (id : string) (s : Scheduler.Server) :
  is_Some (Scheduler.registry s !! id) ->
  fst (Scheduler.unregisterPlugin id s) = true
  /\ (forall o,
        Scheduler.scheduleJob id o (snd (Scheduler.unregisterPlugin id s))
        = (Throw ("Plugin " +:+ id +:+ " not found"),
           snd (Scheduler.unregisterPlugin id s)))
  /\ forall call job,
       CogServer.pluginId job = id ->
       (forall k,
          k ∈ CogServer.runningJobs
                (Scheduler.core
                   (Scheduler.startJob call job
                      (snd (Scheduler.unregisterPlugin id s)))) ->
          CogServer.job_id k <> CogServer.job_id job)
       /\ exists job',
            job' ∈ CogServer.completedJobs
                     (Scheduler.core
                        (Scheduler.startJob call job
                           (snd (Scheduler.unregisterPlugin id s))))
            /\ CogServer.job_id job' = CogServer.job_id job
            /\ CogServer.status job' = CogServer.failed
            /\ CogServer.retryCount job' = CogServer.retryCount job
            /\ CogServer.error job' = Some ("Plugin " +:+ id +:+ " not found").
Proof.
  intros [p Hp]. unfold Scheduler.unregisterPlugin. rewrite Hp. cbn [fst snd].
  split; [done|]. split.
  - intros o. unfold Scheduler.scheduleJob. cbn [Scheduler.registry].
    by rewrite lookup_delete_eq.
  - intros call job <-. unfold Scheduler.startJob.
    cbn [Scheduler.core CogServer.plugins]. rewrite lookup_delete_eq.
    unfold Scheduler.failJob.
    cbn [Scheduler.Date_now Scheduler.with_core Scheduler.core CogServer.failJob
         snd CogServer.runningJobs CogServer.completedJobs].
    split.
    + intros k Hk. by apply elem_of_running_delete in Hk as [_ ?].
    + eexists. split; [apply elem_of_app; right; apply list_elem_of_here|].
      done.
Qed.

Lemma unregistered_plugin_fails_its_jobs_witness :
  is_Some (Scheduler.registry fresh_server !! "pln"%string)
  /\ fst (Scheduler.unregisterPlugin "pln" fresh_server) = true.
Proof.
  assert (is_Some (Scheduler.registry fresh_server !! "pln"%string)) as H
    by (eexists; vm_compute; reflexivity).
  split; [exact H|].
  apply (unregistered_plugin_fails_its_jobs "pln" fresh_server H).
Defined.

(** ** Atom types *)

Section TypeTables.

Import AtomTypes.

Lemma includes_true (l : list string) (x : string) :
  includes l x = true <-> In x l.
Proof.
  unfold includes. rewrite existsb_exists. split.
  - intros (y & Hy & E). apply String.eqb_eq in E. by subst.
  - intros H. exists x. split; [done|]. apply String.eqb_refl.
Qed.

Lemma includes_false (l : list string) (x : string) :
  includes l x = false <-> ~ In x l.
Proof.
  rewrite <- includes_true. by destruct (includes l x).
Qed.

Lemma isNodeType_includes (ty : string) :
  isNodeType ty = true ->
  exists l, In ty l /\ forallb isValidType l = true
            /\ forallb isNodeType l = true
            /\ forallb (fun x => negb (isLinkType x)) l = true.
Proof.
  unfold isNodeType at 1. intros H. apply orb_true_iff in H as [H|H];
    apply includes_true in H; eexists; (split; [exact H|]);
    by vm_compute.
Qed.

Lemma isLinkType_includes (ty : string) :
  isLinkType ty = true ->
  exists l, In ty l /\ forallb isValidType l = true
            /\ forallb isLinkType l = true
            /\ forallb (fun x => negb (isNodeType x)) l = true.
Proof.
  unfold isLinkType at 1. intros H. apply orb_true_iff in H as [H|H];
    apply includes_true in H; eexists; (split; [exact H|]);
    by vm_compute.
Qed.

Lemma valid_types_split :
  forallb (fun x => xorb (isNodeType x) (isLinkType x))
          (Object_values ATOM_TYPES) = true.
Proof. by vm_compute. Qed.

Lemma getSubtypes_other (parent : string) :
  parent <> "Node"%string -> parent <> "Link"%string ->
  getSubtypes parent = [].
Proof.
  intros Hn Hl. unfold getSubtypes.
  assert (forallb (fun entry => forallb (fun p => String.eqb p "Node"
                                                  || String.eqb p "Link")
                                        (snd entry))
                  TYPE_HIERARCHY = true) as Hroots by (by vm_compute).
  rewrite forallb_forall in Hroots.
  induction TYPE_HIERARCHY as [|entry rest IH]; [done|].
  cbn [List.filter].
  destruct (includes (snd entry) parent) eqn:E.
  - apply includes_true in E.
    specialize (Hroots entry (or_introl eq_refl)).
    rewrite forallb_forall in Hroots. specialize (Hroots _ E).
    apply orb_true_iff in Hroots as [H|H]; apply String.eqb_eq in H;
      congruence.
  - apply IH. intros e He. apply Hroots. by right.
Qed.

Lemma getSubtypes_root (parent : string) :
  parent = "Node"%string \/ parent = "Link"%string ->
  NoDup (getSubtypes parent).
Proof.
  intros [H|H]; subst parent; apply (bool_decide_unpack _); by vm_compute.
Qed.

Lemma getSubtypes_Node :
  forallb isNodeType (getSubtypes "Node") = true.
Proof. by vm_compute. Qed.

Lemma getSubtypes_Link :
  forallb isLinkType (getSubtypes "Link") = true.
Proof. by vm_compute. Qed.

End TypeTables.

(** X23.  Every string is a valid type exactly when it is a node type or a
    link type, and no string is both: [isValidType] is the exclusive or of
    [isNodeType] and [isLinkType]. *)
Theorem valid_types_are_node_or_link_types (ty : string) :
  AtomTypes.isValidType ty
  = xorb (AtomTypes.isNodeType ty) (AtomTypes.isLinkType ty).
Proof.
  destruct (AtomTypes.isNodeType ty) eqn:En.
  - destruct (isNodeType_includes ty En) as (l & Hin & Hv & _ & Hl).
    rewrite forallb_forall in Hv, Hl.
    specialize (Hv _ Hin). specialize (Hl _ Hin).
    apply negb_true_iff in Hl. by rewrite Hv, Hl.
  - destruct (AtomTypes.isLinkType ty) eqn:El.
    + destruct (isLinkType_includes ty El) as (l & Hin & Hv & _ & _).
      rewrite forallb_forall in Hv. by rewrite (Hv _ Hin).
    + destruct (AtomTypes.isValidType ty) eqn:Ev; [|done].
      apply includes_true in Ev.
      pose proof valid_types_split as Hs. rewrite forallb_forall in Hs.
      specialize (Hs _ Ev). by rewrite En, El in Hs.
Qed.

(** X24.  [getSubtypes] knows two parents only.  The subtypes of ['Node'] are
    node types, the subtypes of ['Link'] are link types, each a valid type
    listed once, and every other parent, the concrete types among them, has
    no subtype. *)
Theorem getSubtypes_of_the_two_roots (parent : string) :
  NoDup (AtomTypes.getSubtypes parent)
  /\ (forall ty, ty ∈ AtomTypes.getSubtypes parent ->
        (parent = "Node"%string /\ AtomTypes.isNodeType ty = true)
        \/ (parent = "Link"%string /\ AtomTypes.isLinkType ty = true))
  /\ (parent <> "Node"%string -> parent <> "Link"%string ->
      AtomTypes.getSubtypes parent = []).
Proof.
  destruct (String.eqb_spec parent "Node") as [->|Hn];
    [|destruct (String.eqb_spec parent "Link") as [->|Hl]].
  - split; [apply (getSubtypes_root "Node"); by left|].
    split; [|done]. intros ty Hty. left. split; [done|].
    apply list_elem_of_In in Hty.
    pose proof getSubtypes_Node as H. rewrite forallb_forall in H. by apply H.
  - split; [apply (getSubtypes_root "Link"); by right|].
    split; [|done]. intros ty Hty. right. split; [done|].
    apply list_elem_of_In in Hty.
    pose proof getSubtypes_Link as H. rewrite forallb_forall in H. by apply H.
  - rewrite (getSubtypes_other parent Hn Hl).
    split; [constructor|]. split; [|done].
    intros ty Hty. by apply elem_of_nil in Hty.
Qed.

(** ** The STI economy: rent *)

Section Economy.
Import ECAN.

Lemma total_sti_ext (h h' : list Atom) (l : list ref) :
  (forall r, r ∈ l -> getSTI h' r = getSTI h r) ->
  total_sti h' l = total_sti h l.
Proof.
  induction l as [|x l IH]; intros H; cbn [total_sti foldr]; [done|].
  rewrite (H x) by apply list_elem_of_here.
  fold (total_sti h' l). fold (total_sti h l).
  rewrite IH; [done|]. intros r Hr. apply H. by apply list_elem_of_further.
Qed.

Lemma total_sti_setSTI_notin (x : ref) (v : Q) (h : list Atom) (l : list ref) :
  x ∉ l -> total_sti (heap_setSTI x v h) l = total_sti h l.
Proof.
  intros Hx. apply total_sti_ext. intros r Hr.
  apply getSTI_heap_setSTI_ne. intros ->. contradiction.
Qed.

Lemma total_sti_setSTI (x : ref) (v : Q) (h : list Atom) (l : list ref) :
  NoDup l -> x ∈ l -> (x < length h)%nat ->
  total_sti (heap_setSTI x v h) l == total_sti h l + (v - getSTI h x).
Proof.
  intros Hnd Hx Hlt. induction l as [|y l IH]; [by apply elem_of_nil in Hx|].
  apply NoDup_cons in Hnd as [Hy Hnd]. cbn [total_sti foldr].
  fold (total_sti (heap_setSTI x v h) l). fold (total_sti h l).
  destruct (decide (y = x)) as [->|Hne].
  - rewrite getSTI_heap_setSTI_eq by done.
    rewrite total_sti_setSTI_notin by done. lra.
  - apply elem_of_cons in Hx as [Hx|Hx]; [congruence|].
    rewrite getSTI_heap_setSTI_ne by congruence.
    rewrite (IH Hnd Hx). lra.
Qed.

Lemma unpaid_rent_nonneg (c : Config) (x : Q) : 0 <= unpaid_rent c x.
Proof.
  unfold unpaid_rent.
  destruct (Math_max_cases (x - rentAmount c) (minSTI c)) as [[H ->]|[H ->]];
    lra.
Qed.

Lemma unpaid_rent_zero (c : Config) (x : Q) :
  minSTI c + rentAmount c <= x -> unpaid_rent c x == 0.
Proof.
  intros Hx. unfold unpaid_rent.
  destruct (Math_max_cases (x - rentAmount c) (minSTI c)) as [[H ->]|[H ->]];
    lra.
Qed.

Lemma unpaid_rent_pos (c : Config) (x : Q) :
  x < minSTI c + rentAmount c -> 0 < unpaid_rent c x.
Proof.
  intros Hx. unfold unpaid_rent.
  destruct (Math_max_cases (x - rentAmount c) (minSTI c)) as [[H ->]|[H ->]];
    lra.
Qed.

Lemma unpaid_total_ext (c : Config) (h h' : list Atom) (l : list ref) :
  (forall r, r ∈ l -> getSTI h' r = getSTI h r) ->
  unpaid_total c h' l = unpaid_total c h l.
Proof.
  induction l as [|x l IH]; intros H; cbn [unpaid_total foldr]; [done|].
  rewrite (H x) by apply list_elem_of_here.
  fold (unpaid_total c h' l). fold (unpaid_total c h l).
  rewrite IH; [done|]. intros r Hr. apply H. by apply list_elem_of_further.
Qed.

Lemma unpaid_total_nonneg (c : Config) (h : list Atom) (l : list ref) :
  0 <= unpaid_total c h l.
Proof.
  induction l as [|x l IH]; cbn [unpaid_total foldr]; [lra|].
  fold (unpaid_total c h l). pose proof (unpaid_rent_nonneg c (getSTI h x)). lra.
Qed.

Lemma unpaid_total_zero (c : Config) (h : list Atom) (l : list ref) :
  (forall r, r ∈ l -> minSTI c + rentAmount c <= getSTI h r) ->
  unpaid_total c h l == 0.
Proof.
  induction l as [|x l IH]; intros H; cbn [unpaid_total foldr]; [lra|].
  fold (unpaid_total c h l).
  rewrite (unpaid_rent_zero c _ (H x (list_elem_of_here _ _))).
  rewrite IH; [lra|]. intros r Hr. apply H. by apply list_elem_of_further.
Qed.

Lemma unpaid_total_pos (c : Config) (h : list Atom) (l : list ref) (r : ref) :
  r ∈ l -> getSTI h r < minSTI c + rentAmount c -> 0 < unpaid_total c h l.
Proof.
  induction l as [|x l IH]; intros Hr Hlt; [by apply elem_of_nil in Hr|].
  cbn [unpaid_total foldr]. fold (unpaid_total c h l).
  apply elem_of_cons in Hr as [->|Hr].
  - pose proof (unpaid_rent_pos c _ Hlt). pose proof (unpaid_total_nonneg c h l).
    lra.
  - pose proof (unpaid_rent_nonneg c (getSTI h x)). pose proof (IH Hr Hlt). lra.
Qed.

Lemma rent_fold_total (c : Config) (keys l : list ref) :
  forall (h : list Atom) (pool : Q),
  NoDup keys -> NoDup l ->
  (forall r, r ∈ l -> r ∈ keys /\ (r < length h)%nat) ->
  total_sti (fst (foldl (rent_step c) (h, pool) l)) keys
  + snd (foldl (rent_step c) (h, pool) l)
  == total_sti h keys + pool + unpaid_total c h l
  /\ snd (foldl (rent_step c) (h, pool) l)
     == pool + rentAmount c * inject_Z (Z.of_nat (length l)).
Proof.
  induction l as [|x l IH]; intros h pool Hk Hnd Hl; cbn [foldl].
  { cbn [fst snd unpaid_total foldr length]. split; [lra|].
    change (inject_Z (Z.of_nat 0)) with 0. lra. }
  apply NoDup_cons in Hnd as [Hx Hnd].
  destruct (Hl x (list_elem_of_here _ _)) as [Hxk Hxh].
  unfold rent_step at 2 4 6.
  set (v := Math_max (getSTI h x - rentAmount c) (minSTI c)).
  destruct (IH (heap_setSTI x v h) (pool + rentAmount c) Hk Hnd) as [IH1 IH2].
  { intros r Hr. rewrite heap_setSTI_length.
    apply Hl. by apply list_elem_of_further. }
  split.
  - rewrite IH1. rewrite (total_sti_setSTI x v h keys Hk Hxk Hxh).
    rewrite (unpaid_total_ext c h (heap_setSTI x v h) l).
    + cbn [unpaid_total foldr]. fold (unpaid_total c h l).
      unfold unpaid_rent. fold v. lra.
    + intros r Hr. apply getSTI_heap_setSTI_ne. intros ->. contradiction.
  - rewrite IH2. cbn [length]. rewrite Nat2Z.inj_succ. unfold Z.succ.
    rewrite inject_Z_plus. change (inject_Z 1) with 1. lra.
Qed.

End Economy.

(** X25.  On whole numbers, where the arithmetic of [collectRent] is exact:
    when [rentAmount], [minSTI], the pool before and after, and the STI of
    every atom of the focus are integers of magnitude at most 2^50,
    [collectRent] credits the pool with the whole rent for every atom of
    the focus, whether or not the atom could pay it: the pool grows by
    [rentAmount] times the size of the focus.  The STI of the atoms and
    of the pool together does not go down; it stays the same when every
    atom of the focus has an STI of at least [minSTI + rentAmount], and it
    goes up as soon as one has less, the clamp at [minSTI] making up the
    difference. *)
Theorem collectRent_can_mint_sti (w : World) (e : ECAN.t) :
  well_formed w ->
  NoDup (attentionalFocus w) ->
  whole (ECAN.rentAmount (ECAN.config e)) ->
  whole (ECAN.minSTI (ECAN.config e)) ->
  whole (ECAN.currentSTIPool e) ->
  whole (ECAN.currentSTIPool e
         + ECAN.rentAmount (ECAN.config e)
           * inject_Z (Z.of_nat (length (getAttentionalFocus w)))) ->
  (forall r, r ∈ getAttentionalFocus w -> whole (getSTI (heap w) r)) ->
  ECAN.currentSTIPool (snd (ECAN.collectRent (w, e)))
  == ECAN.currentSTIPool e
     + ECAN.rentAmount (ECAN.config e)
       * inject_Z (Z.of_nat (length (getAttentionalFocus w)))
  /\ total_sti (heap w) (getAllAtoms w) + ECAN.currentSTIPool e
     <= total_sti (heap (fst (ECAN.collectRent (w, e))))
                  (getAllAtoms (fst (ECAN.collectRent (w, e))))
        + ECAN.currentSTIPool (snd (ECAN.collectRent (w, e)))
  /\ ((forall r, r ∈ getAttentionalFocus w ->
         ECAN.minSTI (ECAN.config e) + ECAN.rentAmount (ECAN.config e)
         <= getSTI (heap w) r) ->
      total_sti (heap (fst (ECAN.collectRent (w, e))))
                (getAllAtoms (fst (ECAN.collectRent (w, e))))
      + ECAN.currentSTIPool (snd (ECAN.collectRent (w, e)))
      == total_sti (heap w) (getAllAtoms w) + ECAN.currentSTIPool e)
  /\ (forall r, r ∈ getAttentionalFocus w ->
        getSTI (heap w) r
        < ECAN.minSTI (ECAN.config e) + ECAN.rentAmount (ECAN.config e) ->
        total_sti (heap w) (getAllAtoms w) + ECAN.currentSTIPool e
        < total_sti (heap (fst (ECAN.collectRent (w, e))))
                    (getAllAtoms (fst (ECAN.collectRent (w, e))))
          + ECAN.currentSTIPool (snd (ECAN.collectRent (w, e)))).
Proof.
  intros [Hnd Hal Hfl] Hf _ _ _ _ _.
  assert (NoDup (getAttentionalFocus w)) as Hnf
    by (by apply NoDup_List_filter).
  destruct (rent_fold_total (ECAN.config e) (atoms w) (getAttentionalFocus w)
              (heap w) (ECAN.currentSTIPool e) Hnd Hnf) as [H1 H2].
  { intros r Hr. apply elem_of_List_filter in Hr as [Hr _].
    split; [by apply Hfl|]. by apply Hal, Hfl. }
  unfold ECAN.collectRent, getAllAtoms.
  destruct (foldl _ _ _) as [h' pool'].
  cbn [fst snd heap atoms with_heap ECAN.currentSTIPool ECAN.with_pool] in *.
  split; [exact H2|]. split; [|split].
  - pose proof (unpaid_total_nonneg (ECAN.config e) (heap w)
                  (getAttentionalFocus w)). lra.
  - intros Hall.
    pose proof (unpaid_total_zero (ECAN.config e) (heap w)
                  (getAttentionalFocus w) Hall). lra.
  - intros r Hr Hlt.
    pose proof (unpaid_total_pos (ECAN.config e) (heap w)
                  (getAttentionalFocus w) r Hr Hlt). lra.
Qed.

(** ** The memory consolidation plugin *)

Section Consolidation.
Import Plugins.

Lemma consolidate_step_spec (thr : option Q) (h : list Atom) (x : ref) :
  length (consolidate_step thr h x) = length h
  /\ (forall r, r <> x -> consolidate_step thr h x !! r = h !! r)
  /\ consolidate_step thr h x !! x
     = (fun a => if Qltb (num_or thr 50) (sti (av a)) then consolidated a
                 else a) <$> h !! x.
Proof.
  unfold consolidate_step, getSTI, heap_alter.
  destruct (h !! x) as [a|] eqn:Ha; cbn [fmap option_fmap option_map].
  - destruct (Qltb _ _).
    + split; [apply length_alter|]. split.
      * intros r Hr. by apply list_lookup_alter_ne, not_eq_sym.
      * rewrite list_lookup_alter_eq, Ha. reflexivity.
    + by rewrite Ha.
  - destruct (Qltb (num_or thr 50) 0).
    + split; [apply length_alter|]. split.
      * intros r Hr. by apply list_lookup_alter_ne, not_eq_sym.
      * rewrite list_lookup_alter_eq, Ha. reflexivity.
    + by rewrite Ha.
Qed.

Lemma consolidate_fold_spec (thr : option Q) (l : list ref) :
  forall h : list Atom,
  NoDup l ->
  (forall r, r ∉ l -> foldl (consolidate_step thr) h l !! r = h !! r)
  /\ (forall r, r ∈ l ->
        foldl (consolidate_step thr) h l !! r
        = (fun a => if Qltb (num_or thr 50) (sti (av a)) then consolidated a
                    else a) <$> h !! r).
Proof.
  induction l as [|x l IH]; intros h Hnd; cbn [foldl].
  { split; [done|]. intros r Hr. by apply elem_of_nil in Hr. }
  apply NoDup_cons in Hnd as [Hx Hnd].
  destruct (consolidate_step_spec thr h x) as (_ & Hother & Hself).
  destruct (IH (consolidate_step thr h x) Hnd) as [Hout Hin].
  split.
  - intros r Hr. apply not_elem_of_cons in Hr as [Hrx Hrl].
    rewrite Hout by done. by apply Hother.
  - intros r Hr. apply elem_of_cons in Hr as [->|Hr].
    + rewrite Hout by done. exact Hself.
    + rewrite Hin by done. f_equal. apply Hother. intros ->. contradiction.
Qed.

End Consolidation.

(** X27.  The memory consolidation plugin raises by one the LTI of every
    atom of the store whose STI exceeds [stiThreshold] (50 when it is
    missing or 0) and leaves the other atoms, the keys, the size and the
    focus of the store as they are; the count [consolidatedAtoms] it
    reports is 0 whatever it did. *)
Theorem memory_consolidation_reports_none (stiThreshold : option Q)
    (w : World) :
  NoDup (atoms w) ->
  fst (Plugins.executeMemoryConsolidationPlugin stiThreshold w) = 0%nat
  /\ (forall r a, getAtom r w = Some a ->
        getAtom r (snd (Plugins.executeMemoryConsolidationPlugin stiThreshold w))
        = Some (if Qltb (num_or stiThreshold 50) (sti (av a))
                then consolidated a else a))
  /\ getAllAtoms (snd (Plugins.executeMemoryConsolidationPlugin stiThreshold w))
     = getAllAtoms w
  /\ getSize (snd (Plugins.executeMemoryConsolidationPlugin stiThreshold w))
     = getSize w
  /\ attentionalFocus
       (snd (Plugins.executeMemoryConsolidationPlugin stiThreshold w))
     = attentionalFocus w.
Proof.
  intros Hnd. split; [reflexivity|]. split; [|by repeat split].
  intros r a Hget. apply getAtom_Some in Hget as [Hr Ha].
  apply getAtom_Some. split; [exact Hr|].
  unfold Plugins.executeMemoryConsolidationPlugin, getAllAtoms.
  cbn [snd heap with_heap].
  destruct (consolidate_fold_spec stiThreshold (atoms w) (heap w) Hnd)
    as [_ Hin].
  rewrite (Hin r Hr), Ha. reflexivity.
Qed.

Lemma collectRent_can_mint_sti_witness :
  well_formed (fst focused_node)
  /\ NoDup (attentionalFocus (fst focused_node))
  /\ whole (ECAN.rentAmount (ECAN.config (snd focused_node)))
  /\ whole (ECAN.minSTI (ECAN.config (snd focused_node)))
  /\ whole (ECAN.currentSTIPool (snd focused_node))
  /\ whole (ECAN.currentSTIPool (snd focused_node)
            + ECAN.rentAmount (ECAN.config (snd focused_node))
              * inject_Z (Z.of_nat (length (getAttentionalFocus
                                              (fst focused_node)))))
  /\ total_sti (heap (fst focused_node)) (getAllAtoms (fst focused_node))
     + ECAN.currentSTIPool (snd focused_node)
     <= total_sti (heap (fst (ECAN.collectRent (fst focused_node, snd focused_node))))
          (getAllAtoms (fst (ECAN.collectRent (fst focused_node, snd focused_node))))
        + ECAN.currentSTIPool
            (snd (ECAN.collectRent (fst focused_node, snd focused_node))).
Proof.
  assert (H1 : well_formed (fst focused_node)).
  { apply addToAttentionalFocus_well_formed, addNode_well_formed,
      new_AtomSpace_well_formed. }
  assert (H2 : NoDup (attentionalFocus (fst focused_node))).
  { vm_compute. apply NoDup_singleton. }
  assert (H3 : whole (ECAN.rentAmount (ECAN.config (snd focused_node)))).
  { exists 1%Z. split; vm_compute; [reflexivity|discriminate]. }
  assert (H4 : whole (ECAN.minSTI (ECAN.config (snd focused_node)))).
  { exists (-1000)%Z. split; vm_compute; [reflexivity|discriminate]. }
  assert (H5 : whole (ECAN.currentSTIPool (snd focused_node))).
  { exists 10000%Z. split; vm_compute; [reflexivity|discriminate]. }
  assert (H6 : whole (ECAN.currentSTIPool (snd focused_node)
                      + ECAN.rentAmount (ECAN.config (snd focused_node))
                        * inject_Z (Z.of_nat (length (getAttentionalFocus
                                                        (fst focused_node)))))).
  { exists 10001%Z. split; vm_compute; [reflexivity|discriminate]. }
  assert (H7 : forall r, r ∈ getAttentionalFocus (fst focused_node) ->
                 whole (getSTI (heap (fst focused_node)) r)).
  { intros r Hr. vm_compute in Hr. apply list_elem_of_singleton in Hr as ->.
    exists 0%Z. split; vm_compute; [reflexivity|discriminate]. }
  split; [exact H1|]. split; [exact H2|]. split; [exact H3|].
  split; [exact H4|]. split; [exact H5|]. split; [exact H6|].
  exact (proj1 (proj2 (collectRent_can_mint_sti (fst focused_node)
                         (snd focused_node) H1 H2 H3 H4 H5 H6 H7))).
Defined.

Lemma memory_consolidation_reports_none_witness :
  NoDup (atoms (fst decay_example))
  /\ fst (Plugins.executeMemoryConsolidationPlugin (Some 10)
            (fst decay_example)) = 0%nat.
Proof.
  assert (H : NoDup (atoms (fst decay_example))).
  { vm_compute. apply NoDup_singleton. }
  split; [exact H|].
  exact (proj1 (memory_consolidation_reports_none (Some 10)
                  (fst decay_example) H)).
Defined.

(** ** [addAtom] called directly

    The invariants of the built graphs above are kept by [addNode] and
    [addLink], which look an atom up before they add one.  [addAtom] looks
    for the id only. *)

Lemma removeAtom_forgets_incoming (id : ref) (w : World) (a : Atom) :
  getAtom id w = Some a -> outgoing a = [] ->
  incomingIndex (snd (removeAtom id w)) !! id = None.
Proof.
  intros Hget Hout. unfold removeAtom. rewrite Hget, Hout.
  cbn [foldl snd incomingIndex].
  destruct (incomingIndex w !! id) eqn:E; cbn [incomingIndex];
    [apply lookup_delete_eq|exact E].
Qed.

Lemma isNode_outgoing (a : Atom) : isNode a = true -> outgoing a = [].
Proof.
  unfold isNode. intros H. apply Nat.eqb_eq in H. by destruct (outgoing a).
Qed.

(** X28.  [addAtom] does not look for an atom alike: called with a new atom
    of the type and the name of a node that is in the store, it adds the
    new atom beside the old one.  It returns the new atom, both are in the
    store with the same type, name and (empty) outgoing array, and the
    size has gone up by one. *)
Theorem addAtom_takes_a_second_atom_alike (w : World) (e : ref) (a : Atom)
    (t : option TruthValue) :
  well_formed w ->
  getAtom e w = Some a ->
  isNode a = true ->
  fst (addAtom_new (new_Atom (atom_type a) (atom_name a) [] t) w) <> e
  /\ getAtom (fst (addAtom_new (new_Atom (atom_type a) (atom_name a) [] t) w))
       (snd (addAtom_new (new_Atom (atom_type a) (atom_name a) [] t) w))
     = Some (new_Atom (atom_type a) (atom_name a) [] t)
  /\ getAtom e (snd (addAtom_new (new_Atom (atom_type a) (atom_name a) [] t) w))
     = Some a
  /\ getAllAtoms (snd (addAtom_new (new_Atom (atom_type a) (atom_name a) [] t) w))
     = getAllAtoms w
       ++ [fst (addAtom_new (new_Atom (atom_type a) (atom_name a) [] t) w)]
  /\ getSize (snd (addAtom_new (new_Atom (atom_type a) (atom_name a) [] t) w))
     = (getSize w + 1)%Z.
Proof.
  intros [Hnd Hal Hfl] Hget Hnode. apply getAtom_Some in Hget as [He Ha].
  assert (Hfresh : length (heap w) ∉ atoms w).
  { intros Hin. apply Hal in Hin. lia. }
  assert (Hlt : (e < length (heap w))%nat) by (by apply Hal).
  set (fresh := new_Atom (atom_type a) (atom_name a) [] t).
  assert (E : addAtom_new fresh w
              = (length (heap w),
                 mkW (heap w ++ [fresh]) (atoms w ++ [length (heap w)])
                     (index_add (atom_type fresh) (length (heap w))
                        (typeIndex w))
                     (if isNode fresh && truthy_name (atom_name fresh)
                      then index_add (default EmptyString (atom_name fresh))
                             (length (heap w)) (nameIndex w)
                      else nameIndex w)
                     (incomingIndex w) (attentionalFocus w) (size w + 1)%Z)).
  { unfold addAtom_new, alloc, addAtom. cbn [heap with_heap].
    rewrite list_lookup_middle by done. unfold hasAtom. cbn [atoms with_heap].
    by rewrite bool_decide_eq_false_2. }
  rewrite E. cbn [fst snd getAllAtoms getSize atoms size].
  split; [lia|]. split; [|split; [|done]].
  - apply getAtom_of_key; cbn [atoms heap].
    + apply elem_of_app. right. apply list_elem_of_here.
    + by rewrite list_lookup_middle.
  - apply getAtom_of_key; cbn [atoms heap].
    + apply elem_of_app. by left.
    + by rewrite lookup_app_l.
Qed.

(** X29.  A node that is removed and added again with [addAtom] has lost
    its incoming index: it is in the store, [getIncoming] of it is empty,
    and every link that pointed to it is still in the store and still has
    it in its outgoing array. *)
Theorem readded_node_has_no_incoming (w : World) (r : ref) (a : Atom) :
  reachable w ->
  getAtom r w = Some a ->
  isNode a = true ->
  hasAtom r (snd (addAtom r (snd (removeAtom r w)))) = true
  /\ getIncoming r (snd (addAtom r (snd (removeAtom r w)))) = []
  /\ forall i, i ∈ getIncoming r w ->
       exists l, getAtom i (snd (addAtom r (snd (removeAtom r w)))) = Some l
                 /\ r ∈ outgoing l.
Proof.
  intros Hreach Hget Hnode.
  pose proof (reachable_consistent w Hreach) as [[Hnd Hal Hfl] Hix Hdd].
  pose proof (isNode_outgoing a Hnode) as Hout.
  destruct (removeAtom_spec r w a Hget) as (_ & Eat & _ & _ & _ & _ & Est).
  pose proof (removeAtom_forgets_incoming r w a Hget Hout) as Einc.
  apply getAtom_Some in Hget as [Hr Ha].
  set (w1 := snd (removeAtom r w)) in *.
  pose proof (lookup_static _ _ r Est) as Hsr. rewrite Ha in Hsr.
  destruct (heap w1 !! r) as [a1|] eqn:Ha1; [|done].
  cbn in Hsr. unfold static in Hsr. injection Hsr as _ _ Hout1.
  assert (Hgone : r ∉ atoms w1).
  { rewrite Eat. rewrite elem_of_Set_delete. tauto. }
  assert (E2 : snd (addAtom r w1)
               = mkW (heap w1) (atoms w1 ++ [r])
                     (index_add (atom_type a1) r (typeIndex w1))
                     (if isNode a1 && truthy_name (atom_name a1)
                      then index_add (default EmptyString (atom_name a1)) r
                             (nameIndex w1)
                      else nameIndex w1)
                     (incomingIndex w1) (attentionalFocus w1)
                     (size w1 + 1)%Z).
  { unfold addAtom. rewrite Ha1. unfold hasAtom.
    rewrite bool_decide_eq_false_2 by done. cbn [snd].
    by rewrite Hout1, Hout. }
  rewrite E2. split; [|split].
  - apply bool_decide_eq_true_2. cbn [atoms]. apply elem_of_app. right.
    apply list_elem_of_here.
  - unfold getIncoming. cbn [incomingIndex]. by rewrite Einc.
  - intros i Hi. unfold getIncoming in Hi.
    rewrite (ix_incoming w Hix r) in Hi by (by left).
    rewrite live_only_List_filter in Hi.
    apply elem_of_List_filter in Hi as [Hi Hpt]. unfold points_to in Hpt.
    destruct (heap w !! i) as [l|] eqn:Hl; [|done].
    apply bool_decide_eq_true in Hpt.
    assert (Hne : i <> r).
    { intros ->. rewrite Ha in Hl. injection Hl as <-.
      rewrite Hout in Hpt. by apply elem_of_nil in Hpt. }
    pose proof (lookup_static _ _ i Est) as Hsi. rewrite Hl in Hsi.
    destruct (heap w1 !! i) as [l1|] eqn:Hl1; [|done].
    cbn in Hsi. unfold static in Hsi. injection Hsi as _ _ Houtl.
    exists l1. split; [|by rewrite Houtl].
    apply getAtom_of_key; cbn [atoms heap]; [|done].
    apply elem_of_app. left. rewrite Eat. by apply elem_of_Set_delete.
Qed.

Lemma addAtom_takes_a_second_atom_alike_witness :
  well_formed two_nodes
  /\ getAtom 0 two_nodes
     = Some (new_Atom CONCEPT_NODE (Some "A"%string) [] None)
  /\ getSize (snd (addAtom_new (new_Atom CONCEPT_NODE (Some "A"%string) [] None)
                     two_nodes))
     = (getSize two_nodes + 1)%Z.
Proof.
  assert (H1 : well_formed two_nodes).
  { unfold two_nodes.
    apply addNode_well_formed, addNode_well_formed, new_AtomSpace_well_formed. }
  assert (H2 : getAtom 0 two_nodes
               = Some (new_Atom CONCEPT_NODE (Some "A"%string) [] None))
    by (vm_compute; reflexivity).
  split; [exact H1|]. split; [exact H2|].
  exact (proj2 (proj2 (proj2 (proj2
           (addAtom_takes_a_second_atom_alike two_nodes 0
              (new_Atom CONCEPT_NODE (Some "A"%string) [] None) None
              H1 H2 eq_refl))))).
Defined.

Lemma readded_node_has_no_incoming_witness :
  reachable scenario_S4
  /\ getIncoming 0 scenario_S4 = [2%nat]
  /\ getIncoming 0 (snd (addAtom 0 (snd (removeAtom 0 scenario_S4)))) = [].
Proof.
  assert (H : reachable scenario_S4).
  { unfold scenario_S4, two_nodes. repeat constructor. }
  assert (G : getAtom 0 scenario_S4
              = Some (mkAtom CONCEPT_NODE (Some "A"%string) []
                             default_TruthValue default_AttentionValue [2%nat]))
    by (vm_compute; reflexivity).
  split; [exact H|]. split; [vm_compute; reflexivity|].
  exact (proj1 (proj2 (readded_node_has_no_incoming scenario_S4 0 _ H G
                         eq_refl))).
Defined.
